(** * BoTSORT tracker controller: a shallow embedding of [src/BoTSORT.cpp]

    The development follows the translation unit from top to bottom: the
    floating-point values the controller compares and clamps, the records it
    reads and writes, the constructor, the per-frame entry point [track] and
    the helper [_merge_track_lists].  The collaborators declared in headers
    that are not part of the translation unit (Track, KalmanFilter, the cost
    matrix builders, the linear-assignment solver, GMC, Re-ID) are taken as
    an interface, [Collaborators]; every theorem about the controller is
    stated for an arbitrary implementation of that interface. *)

From Stdlib Require Import ZArith List Bool Lia.
From Stdlib Require Import Floats.SpecFloat.
From Stdlib Require Import Strings.String.
From stdpp Require Import base option list gmap.

Open Scope Z_scope.

(** ** IEEE-754 values

    [float] is binary32 and [double] is binary64.  Both are carried by
    [spec_float]; the precision only matters where a value is rounded.  The
    values of a format are the canonical ones ([valid_binary]): the
    conversions and the operations below return canonical values, and the
    comparisons are the order of the reals on canonical values of one
    format. *)

Module Float.

Definition f32 := spec_float.
Definition f64 := spec_float.

Definition prec32 : Z := 24.
Definition emax32 : Z := 128.
Definition prec64 : Z := 53.
Definition emax64 : Z := 1024.

(** [static_cast<float>(i)] and the int-to-double promotion. *)
Definition f32_of_int (i : Z) : f32 := binary_normalize prec32 emax32 i 0 false.
Definition f64_of_int (i : Z) : f64 := binary_normalize prec64 emax64 i 0 false.

(** The promotion of a [float] to [double]: the same value, in the
    canonical form of binary64. *)
Definition f64_of_f32 (a : f32) : f64 :=
  match a with
  | S754_finite s m e => binary_round prec64 emax64 s m e
  | _ => a
  end.

Definition f32_div : f32 -> f32 -> f32 := SFdiv prec32 emax32.
Definition f64_div : f64 -> f64 -> f64 := SFdiv prec64 emax64.
Definition f64_mul : f64 -> f64 -> f64 := SFmul prec64 emax64.

(** The literals of the translation unit. *)
Definition zero_f : f32 := S754_zero false.                       (* 0.0f *)
Definition lit_30_0 : f64 := f64_of_int 30.                       (* 30.0 *)
Definition lit_1_0 : f64 := f64_of_int 1.                         (* 1.0  *)
Definition lit_0_1 : f64 := S754_finite false 7205759403792794 (-56). (* 0.1 *)
Definition lit_0_5 : f32 := S754_finite false 8388608 (-24).      (* 0.5 *)

(** The ordered comparisons of C++ on floating-point operands: each one is
    false as soon as an operand is a NaN. *)
Definition lt (a b : spec_float) : bool := SFltb a b.
Definition gt (a b : spec_float) : bool := SFltb b a.
Definition ge (a b : spec_float) : bool := SFleb b a.
Definition le (a b : spec_float) : bool := SFleb a b.

Definition is_nan (a : spec_float) : bool :=
  match a with S754_nan => true | _ => false end.

(** [std::max(a, b)] is [(a < b) ? b : a]; [std::min(a, b)] is
    [(b < a) ? b : a]. *)
Definition std_max (a b : f32) : f32 := if lt a b then b else a.
Definition std_min (a b : f32) : f32 := if lt b a then b else a.

(** Truncation toward zero of a floating-point value, the first half of a
    floating-to-integer conversion.  There is none for NaN and infinities. *)
Definition trunc (x : spec_float) : option Z :=
  match x with
  | S754_zero _ => Some 0
  | S754_finite s m e =>
      let mag := match e with
                 | Z0 => Zpos m
                 | Zpos _ => Z.shiftl (Zpos m) e
                 | Zneg p => Z.shiftr (Zpos m) (Zpos p)
                 end in
      Some (if s then - mag else mag)
  | S754_infinity _ | S754_nan => None
  end.

(** [static_cast<uint8_t>(x)] for a double [x]: the truncated value when it
    fits in eight bits; the conversion is undefined otherwise. *)
Definition to_uint8 (x : f64) : option Z :=
  match trunc x with
  | Some z => if (0 <=? z) && (z <=? 255) then Some z else None
  | None => None
  end.

End Float.

Import Float.

(** ** Data model *)

(** [cv::Rect_<float>]. *)
Record Rect := mkRect { x : f32; y : f32; width : f32; height : f32 }.

Definition FeatureVector := list f32.

(** Modelled from the spec: the declaration of [Detection] is in a header
    outside the translation unit.  The controller reads [bbox_tlwh],
    [confidence] and [class_id]; the optional [embedding] is the fourth field
    of the record in the data model. *)
Record Detection := mkDetection {
  bbox_tlwh : Rect;
  confidence : f32;
  class_id : Z;
  embedding : option FeatureVector
}.

(** [cv::Mat], as far as the controller looks into it: its two [int]
    dimensions; [pixels] stands for the image data. *)
Record Mat := mkMat { cols : Z; rows : Z; pixels : list Z }.

(** A default-constructed [cv::Mat]. *)
Definition Mat_default : Mat := {| cols := 0; rows := 0; pixels := [] |}.

Inductive TrackState := New | Tracked | Lost | Removed.

#[global] Instance TrackState_eq_dec : EqDecision TrackState.
Proof. solve_decision. Defined.

(** Modelled from the spec: the declaration of [Track] is in a header outside
    the translation unit.  The controller itself reads [track_id], [state]
    and [is_activated]; the other fields are those of the data model. *)
Record Track := mkTrack {
  track_id : Z;
  state : TrackState;
  is_activated : bool;
  tlwh : list f32;
  score : f32;
  track_class_id : Z;
  curr_feat : option FeatureVector;
  smooth_feat : option FeatureVector;
  mean : list f32;
  covariance : list (list f32);
  start_frame : Z;
  frame_id : Z;
  tracklet_len : Z
}.

(** Modelled from the spec: [CostMatrix] is a dense two-dimensional buffer of
    32-bit floats with an explicit shape, stored row after row. *)
Record CostMatrix := mkCostMatrix {
  m_rows : nat;
  m_cols : nat;
  coeffs : list f32
}.

(** A default-constructed [CostMatrix]: no rows, no columns. *)
Definition CostMatrix_default : CostMatrix :=
  {| m_rows := 0; m_cols := 0; coeffs := [] |}.

(** [AssociationData]: the indices are [int]s. *)
Record AssociationData := mkAssociationData {
  matches : list (Z * Z);
  unmatched_track_indices : list Z;
  unmatched_det_indices : list Z
}.

Definition HomographyMatrix := list (list f32).

Record KalmanFilter := mkKalmanFilter { dt : f64 }.

Record ReIDModel := mkReIDModel { weights : String.string; fp16 : bool }.

(** A [Track *]: an index into the program's store of [Track] objects. *)
Definition ptr := nat.

(** ** The collaborators

    Everything [BoTSORT.cpp] calls and does not define.  A method that
    mutates its receiver is given as the function from the old object to the
    new one. *)
Class Collaborators (GlobalMotionCompensation : Type) := {
  (** [GlobalMotionCompensation] is the state a backend keeps between frames *)
  gmc_make : String.string -> GlobalMotionCompensation;
  gmc_apply : GlobalMotionCompensation -> Mat -> list Detection ->
              HomographyMatrix * GlobalMotionCompensation;
  (** [frame(bbox)]; [None] when OpenCV throws *)
  Mat_roi : Mat -> Rect -> option Mat;
  reid_extract_features : ReIDModel -> Mat -> FeatureVector;
  (** [Track::Track(tlwh, score, class_id[, feat])] *)
  Track_new : list f32 -> f32 -> Z -> option FeatureVector -> Track;
  Track_update : KalmanFilter -> Track -> Track -> Z -> Track;
  Track_re_activate : KalmanFilter -> Track -> Track -> Z -> bool -> Track;
  Track_mark_lost : Track -> Track;
  (** what [Track::multi_predict] and [Track::multi_gmc] do to one track *)
  Track_predict : KalmanFilter -> Track -> Track;
  Track_gmc : HomographyMatrix -> Track -> Track;
  iou_distance : list Track -> list Track -> CostMatrix;
  fuse_score : CostMatrix -> list Track -> CostMatrix;
  embedding_distance : list Track -> list Track -> CostMatrix;
  fuse_motion : KalmanFilter -> CostMatrix -> list Track -> list Track ->
                bool -> f32 -> CostMatrix;
  fuse_iou_with_emb : CostMatrix -> CostMatrix -> f32 -> f32 -> CostMatrix;
  linear_assignment : CostMatrix -> f32 -> AssociationData
}.

(** ** The machine: a store of tracks and a log of collaborator calls *)

Inductive Call :=
| Call_extract_features (patch : Mat)
| Call_multi_predict (tracks : list ptr)
| Call_multi_gmc (tracks : list ptr) (H : HomographyMatrix)
| Call_iou_distance (atracks btracks : list ptr)
| Call_linear_assignment (cost : CostMatrix) (thresh : f32)
| Call_update (track detection : ptr) (fid : Z)
| Call_re_activate (track detection : ptr) (fid : Z) (new_id : bool)
| Call_mark_lost (track : ptr).

Record Machine := mkMachine { heap : list Track; calls : list Call }.

(** A computation either returns a value and the next machine, or has no
    defined result: a dangling pointer, an index outside its vector, an
    exception out of OpenCV. *)
Definition M (A : Type) : Type := Machine -> option (A * Machine).

Definition ret {A} (a : A) : M A := fun s => Some (a, s).

Definition bind {A B} (m : M A) (k : A -> M B) : M B :=
  fun s => match m s with
           | Some (a, s') => k a s'
           | None => None
           end.

Definition undefined {A} : M A := fun _ => None.

Notation "x <~ m ;; k" := (bind m (fun x => k))
  (at level 100, m at next level, right associativity).
Notation "m ;;; k" := (bind m (fun _ => k))
  (at level 100, right associativity).

(** [*p] *)
Definition deref (p : ptr) : M Track :=
  fun s => match heap s !! p with
           | Some t => Some (t, s)
           | None => None
           end.

(** [*p = t] *)
Definition store (p : ptr) (t : Track) : M unit :=
  fun s => match heap s !! p with
           | Some _ => Some (tt, {| heap := <[p := t]> (heap s); calls := calls s |})
           | None => None
           end.

(** [new Track(...)]: the next free cell of the store. *)
Definition new_Track (t : Track) : M ptr :=
  fun s => Some (length (heap s), {| heap := heap s ++ [t]; calls := calls s |}).

Definition call (c : Call) : M unit :=
  fun s => Some (tt, {| heap := heap s; calls := calls s ++ [c] |}).

(** [v[i]] for an [int] index: undefined outside the vector. *)
Definition vec_at {A} (v : list A) (i : Z) : M A :=
  if i <? 0 then undefined
  else match v !! Z.to_nat i with
       | Some a => ret a
       | None => undefined
       end.

(** A range-based [for] that carries the locals [S] it updates. *)
Fixpoint for_each {A S} (l : list A) (body : A -> S -> M S) (s : S) : M S :=
  match l with
  | [] => ret s
  | a :: l' => s' <~ body a s ;; for_each l' body s'
  end.

Definition deref_all (ps : list ptr) : M (list Track) :=
  for_each ps (fun p acc => t <~ deref p ;; ret (acc ++ [t])) [].

(** ** The controller *)

Section Controller.

Context {GlobalMotionCompensation : Type}.
Context {C : Collaborators GlobalMotionCompensation}.

(** The data members of [BoTSORT].  The two [uint8_t] parameters and the
    members computed from them are integers in [0, 255]; [_frame_id] is the
    frame counter.  Modelled from the spec: the width of [_frame_id] is
    declared in a header outside the translation unit, the counter is an
    integer. *)
Record BoTSORT := mkBoTSORT {
  _track_high_thresh : f32;
  _new_track_thresh : f32;
  _track_buffer : Z;
  _match_thresh : f32;
  _proximity_thresh : f32;
  _appearance_thresh : f32;
  _frame_rate : Z;
  _lambda : f32;
  _frame_id : Z;
  _buffer_size : Z;
  _max_time_lost : Z;
  _kalman_filter : KalmanFilter;
  _reid_model : option ReIDModel;
  _reid_enabled : bool;
  _gmc_algo : GlobalMotionCompensation;
  _tracked_tracks : list ptr;
  _lost_tracks : list ptr
}.

(** [BoTSORT::BoTSORT].  There is no object when the conversion of the
    buffer size to [uint8_t] is undefined. *)
Definition BoTSORT_new
    (model_weights : option String.string) (fp16_inference : bool)
    (track_high_thresh new_track_thresh : f32) (track_buffer : Z)
    (match_thresh proximity_thresh appearance_thresh : f32)
    (gmc_method : String.string) (frame_rate : Z) (lambda : f32)
  : option BoTSORT :=
  match to_uint8 (f64_mul (f64_div (f64_of_int frame_rate) lit_30_0)
                          (f64_of_int track_buffer)) with
  | None => None
  | Some buffer_size =>
      Some {| _track_high_thresh := track_high_thresh;
              _new_track_thresh := new_track_thresh;
              _track_buffer := track_buffer;
              _match_thresh := match_thresh;
              _proximity_thresh := proximity_thresh;
              _appearance_thresh := appearance_thresh;
              _frame_rate := frame_rate;
              _lambda := lambda;
              _frame_id := 0;
              _buffer_size := buffer_size;
              _max_time_lost := buffer_size;
              _kalman_filter := {| dt := f64_div lit_1_0 (f64_of_int frame_rate) |};
              _reid_model := match model_weights with
                             | Some w => Some {| weights := w; fp16 := fp16_inference |}
                             | None => None
                             end;
              _reid_enabled := match model_weights with
                               | Some _ => true
                               | None => false
                               end;
              _gmc_algo := gmc_make gmc_method;
              _tracked_tracks := [];
              _lost_tracks := [] |}
  end.

(** [BoTSORT::_extract_features]: the patch is cut out of the frame, and the
    features are extracted from [patch_resized], which is still empty. *)
Definition _extract_features (self : BoTSORT) (frame : Mat) (bbox : Rect)
  : M FeatureVector :=
  match Mat_roi frame bbox, _reid_model self with
  | Some patch, Some model =>
      let patch_resized := Mat_default in
      call (Call_extract_features patch_resized) ;;;
      ret (reid_extract_features model patch_resized)
  | _, _ => undefined
  end.

(** [BoTSORT::_merge_track_lists]; [exists] is the [std::map<int, bool>]. *)
Definition _merge_track_lists (tracks_list_a tracks_list_b : list ptr)
  : M (list ptr) :=
  r <~ for_each tracks_list_a
         (fun track '(exists_, merged_tracks_list) =>
            t <~ deref track ;;
            ret (<[track_id t := true]> exists_, merged_tracks_list ++ [track]))
         ((∅ : gmap Z bool), []) ;;
  r <~ for_each tracks_list_b
         (fun track '(exists_, merged_tracks_list) =>
            t <~ deref track ;;
            match exists_ !! track_id t with
            | None =>
                ret (<[track_id t := true]> exists_, merged_tracks_list ++ [track])
            | Some _ => ret (exists_, merged_tracks_list)
            end)
         r ;;
  ret (snd r).

(** The four clamping assignments of the detection loop. *)
Definition clamp (frame : Mat) (detection : Detection) : Detection :=
  let b := bbox_tlwh detection in
  let b := {| x := std_max zero_f (x b); y := y b;
              width := width b; height := height b |} in
  let b := {| x := x b; y := std_max zero_f (y b);
              width := width b; height := height b |} in
  let b := {| x := x b; y := y b;
              width := std_min (f32_of_int (cols frame - 1)) (width b);
              height := height b |} in
  let b := {| x := x b; y := y b; width := width b;
              height := std_min (f32_of_int (rows frame - 1)) (height b) |} in
  {| bbox_tlwh := b; confidence := confidence detection;
     class_id := class_id detection; embedding := embedding detection |}.

(** The locals of the detection loop: the caller's vector, written through
    the [const_cast], and the two lists of tracklets. *)
Record DetectionLoop := mkDetectionLoop {
  dl_detections : list Detection;
  dl_high : list ptr;
  dl_low : list ptr
}.

(** One turn of the detection loop, on the element at index [i]. *)
Definition detection_body (self : BoTSORT) (frame : Mat)
    (i : nat) (st : DetectionLoop) : M DetectionLoop :=
  match dl_detections st !! i with
  | None => undefined
  | Some detection =>
      let detection := clamp frame detection in
      let detections := <[i := detection]> (dl_detections st) in
      let b := bbox_tlwh detection in
      let tlwh := [x b; y b; width b; height b] in
      tracklet <~ (if _reid_enabled self then
                     embedding <~ _extract_features self frame b ;;
                     new_Track (Track_new tlwh (confidence detection)
                                          (class_id detection) (Some embedding))
                   else
                     new_Track (Track_new tlwh (confidence detection)
                                          (class_id detection) None)) ;;
      if ge (confidence detection) (_track_high_thresh self) then
        ret {| dl_detections := detections;
               dl_high := dl_high st ++ [tracklet]; dl_low := dl_low st |}
      else if gt (f64_of_f32 (confidence detection)) lit_0_1
              && lt (confidence detection) (_track_high_thresh self) then
        ret {| dl_detections := detections;
               dl_high := dl_high st; dl_low := dl_low st ++ [tracklet] |}
      else
        ret {| dl_detections := detections;
               dl_high := dl_high st; dl_low := dl_low st |}
  end.

(** The locals of the two update loops. *)
Record Updated := mkUpdated {
  activated_tracks : list ptr;
  refind_tracks : list ptr
}.

(** One turn of an update loop: the match [m] indexes [tracks] and
    [detections]. *)
Definition update_body (self : BoTSORT) (fid : Z)
    (tracks detections : list ptr) (m : Z * Z) (u : Updated) : M Updated :=
  track <~ vec_at tracks (fst m) ;;
  detection <~ vec_at detections (snd m) ;;
  t <~ deref track ;;
  if decide (state t = Tracked) then
    d <~ deref detection ;;
    call (Call_update track detection fid) ;;;
    store track (Track_update (_kalman_filter self) t d fid) ;;;
    ret {| activated_tracks := activated_tracks u ++ [track];
           refind_tracks := refind_tracks u |}
  else
    d <~ deref detection ;;
    call (Call_re_activate track detection fid false) ;;;
    store track (Track_re_activate (_kalman_filter self) t d fid false) ;;;
    ret {| activated_tracks := activated_tracks u;
           refind_tracks := refind_tracks u ++ [track] |}.

(** One turn of the loop that collects the tracks of the second
    association. *)
Definition still_tracked_body (tracks_pool : list ptr)
    (track_idx : Z) (acc : list ptr) : M (list ptr) :=
  track <~ vec_at tracks_pool track_idx ;;
  t <~ deref track ;;
  if decide (state t = Tracked) then ret (acc ++ [track]) else ret acc.

(** One turn of the loop that marks tracks as lost. *)
Definition mark_lost_body (tracks : list ptr)
    (idx : Z) (lost_tracks : list ptr) : M (list ptr) :=
  track <~ vec_at tracks idx ;;
  t <~ deref track ;;
  if decide (state t ≠ Lost) then
    call (Call_mark_lost track) ;;;
    store track (Track_mark_lost t) ;;;
    ret (lost_tracks ++ [track])
  else ret lost_tracks.

(** Modelled from the spec: [Track::multi_predict] and [Track::multi_gmc] are
    declared outside the translation unit; both are batched operations that
    rewrite each track of the list, in the order of the list. *)
Definition multi_predict (tracks : list ptr) (kf : KalmanFilter) : M unit :=
  call (Call_multi_predict tracks) ;;;
  for_each tracks (fun p _ => t <~ deref p ;; store p (Track_predict kf t)) tt.

Definition multi_gmc (tracks : list ptr) (H : HomographyMatrix) : M unit :=
  call (Call_multi_gmc tracks H) ;;;
  for_each tracks (fun p _ => t <~ deref p ;; store p (Track_gmc H t)) tt.

(** The locals of [track] at its [return]. *)
Record Locals := mkLocals {
  detections_high_conf : list ptr;
  detections_low_conf : list ptr;
  unconfirmed_tracks : list ptr;
  tracked_tracks : list ptr;
  tracks_pool : list ptr;
  first_associations : AssociationData;
  unmatched_tracks_after_1st_association : list ptr;
  iou_dists_second : CostMatrix;
  second_associations : AssociationData;
  updated : Updated;
  lost_tracks : list ptr
}.

(** What one call of [track] leaves behind: the returned vector, the
    tracker, the caller's detections, and the locals. *)
Record Frame := mkFrame {
  returned : list Track;
  tracker : BoTSORT;
  detections_after : list Detection;
  locals : Locals
}.

(** The detection loop of [track], under its guard. *)
Definition create_tracklets (self : BoTSORT) (detections : list Detection)
    (frame : Mat) : M DetectionLoop :=
  if (0 <? length detections)%nat then
    for_each (seq 0 (length detections)) (detection_body self frame)
             {| dl_detections := detections; dl_high := []; dl_low := [] |}
  else
    ret {| dl_detections := detections; dl_high := []; dl_low := [] |}.

(** The loop that segregates the tracked pool: the unconfirmed tracks and
    the tracked ones. *)
Definition segregate (self : BoTSORT) : M (list ptr * list ptr) :=
  for_each (_tracked_tracks self)
    (fun track '(unconfirmed_tracks, tracked_tracks) =>
       t <~ deref track ;;
       if negb (is_activated t)
       then ret (unconfirmed_tracks ++ [track], tracked_tracks)
       else ret (unconfirmed_tracks, tracked_tracks ++ [track]))
    ([], []).

(** The cost matrix of the first association and its solution.  [fuse_score]
    and [fuse_motion] rewrite the matrix they are given. *)
Definition first_association (self : BoTSORT)
    (tracks_pool detections_high_conf : list ptr) : M AssociationData :=
  pool_objs <~ deref_all tracks_pool ;;
  high_objs <~ deref_all detections_high_conf ;;
  call (Call_iou_distance tracks_pool detections_high_conf) ;;;
  let iou_dists := iou_distance pool_objs high_objs in
  let iou_dists := fuse_score iou_dists high_objs in
  let raw_emd_dist :=
    if _reid_enabled self then
      fuse_motion (_kalman_filter self)
                  (embedding_distance pool_objs high_objs)
                  pool_objs high_objs false (_lambda self)
    else CostMatrix_default in
  let distances_first_association :=
    fuse_iou_with_emb iou_dists raw_emd_dist
                      (_proximity_thresh self) (_appearance_thresh self) in
  call (Call_linear_assignment distances_first_association (_match_thresh self)) ;;;
  ret (linear_assignment distances_first_association (_match_thresh self)).

(** The cost matrix of the second association and its solution:
    [iou_dists_second] is default-constructed, the value [iou_distance]
    returns is dropped, and the solver runs on [iou_dists_second]. *)
Definition second_association
    (unmatched_tracks_after_1st_association detections_low_conf : list ptr)
  : M (CostMatrix * AssociationData) :=
  let iou_dists_second := CostMatrix_default in
  unmatched_objs <~ deref_all unmatched_tracks_after_1st_association ;;
  low_objs <~ deref_all detections_low_conf ;;
  call (Call_iou_distance unmatched_tracks_after_1st_association
                          detections_low_conf) ;;;
  let _ := iou_distance unmatched_objs low_objs in
  call (Call_linear_assignment iou_dists_second lit_0_5) ;;;
  ret (iou_dists_second, linear_assignment iou_dists_second lit_0_5).

(** An update loop over the matches of an association. *)
Definition update_matched (self : BoTSORT) (tracks detections : list ptr)
    (ms : list (Z * Z)) (u : Updated) : M Updated :=
  for_each ms (update_body self (_frame_id self) tracks detections) u.

(** The body of [BoTSORT::track] after [_frame_id++]: [self] already holds
    the incremented counter. *)
Definition track_body (self : BoTSORT) (detections : list Detection)
    (frame : Mat) : M Frame :=
  (* create a tracklet for every detection *)
  dl <~ create_tracklets self detections frame ;;
  (* segregate the tracked pool *)
  seg <~ segregate self ;;
  (* predict and compensate the camera motion *)
  tracks_pool <~ _merge_track_lists (snd seg) (_lost_tracks self) ;;
  multi_predict tracks_pool (_kalman_filter self) ;;;
  let Hg := gmc_apply (_gmc_algo self) frame (dl_detections dl) in
  multi_gmc tracks_pool (fst Hg) ;;;
  multi_gmc (fst seg) (fst Hg) ;;;
  (* first association *)
  first_associations <~ first_association self tracks_pool (dl_high dl) ;;
  u1 <~ update_matched self tracks_pool (dl_high dl)
          (matches first_associations)
          {| activated_tracks := []; refind_tracks := [] |} ;;
  (* second association *)
  unmatched_tracks_after_1st_association <~
    for_each (unmatched_track_indices first_associations)
             (still_tracked_body tracks_pool) [] ;;
  second <~ second_association unmatched_tracks_after_1st_association
                               (dl_low dl) ;;
  u2 <~ update_matched self unmatched_tracks_after_1st_association (dl_low dl)
          (matches (snd second)) u1 ;;
  lost_tracks <~
    for_each (unmatched_track_indices (snd second))
             (mark_lost_body unmatched_tracks_after_1st_association) [] ;;
  (* return std::vector<Track>() *)
  ret {| returned := [];
         tracker := {| _track_high_thresh := _track_high_thresh self;
                       _new_track_thresh := _new_track_thresh self;
                       _track_buffer := _track_buffer self;
                       _match_thresh := _match_thresh self;
                       _proximity_thresh := _proximity_thresh self;
                       _appearance_thresh := _appearance_thresh self;
                       _frame_rate := _frame_rate self;
                       _lambda := _lambda self;
                       _frame_id := _frame_id self;
                       _buffer_size := _buffer_size self;
                       _max_time_lost := _max_time_lost self;
                       _kalman_filter := _kalman_filter self;
                       _reid_model := _reid_model self;
                       _reid_enabled := _reid_enabled self;
                       _gmc_algo := snd Hg;
                       _tracked_tracks := _tracked_tracks self;
                       _lost_tracks := _lost_tracks self |};
         detections_after := dl_detections dl;
         locals := {| detections_high_conf := dl_high dl;
                      detections_low_conf := dl_low dl;
                      unconfirmed_tracks := fst seg;
                      tracked_tracks := snd seg;
                      tracks_pool := tracks_pool;
                      first_associations := first_associations;
                      unmatched_tracks_after_1st_association :=
                        unmatched_tracks_after_1st_association;
                      iou_dists_second := fst second;
                      second_associations := snd second;
                      updated := u2;
                      lost_tracks := lost_tracks |} |}.

(** [_frame_id++]. *)
Definition next_frame (self : BoTSORT) : BoTSORT :=
  {| _track_high_thresh := _track_high_thresh self;
     _new_track_thresh := _new_track_thresh self;
     _track_buffer := _track_buffer self;
     _match_thresh := _match_thresh self;
     _proximity_thresh := _proximity_thresh self;
     _appearance_thresh := _appearance_thresh self;
     _frame_rate := _frame_rate self;
     _lambda := _lambda self;
     _frame_id := _frame_id self + 1;
     _buffer_size := _buffer_size self;
     _max_time_lost := _max_time_lost self;
     _kalman_filter := _kalman_filter self;
     _reid_model := _reid_model self;
     _reid_enabled := _reid_enabled self;
     _gmc_algo := _gmc_algo self;
     _tracked_tracks := _tracked_tracks self;
     _lost_tracks := _lost_tracks self |}.

(** [BoTSORT::track]. *)
Definition track (self : BoTSORT) (detections : list Detection) (frame : Mat)
  : M Frame :=
  track_body (next_frame self) detections frame.

(** A sequence of calls: each frame is tracked by the tracker the previous
    call has left. *)
Fixpoint track_frames (self : BoTSORT) (inputs : list (list Detection * Mat))
  : M BoTSORT :=
  match inputs with
  | [] => ret self
  | (detections, frame) :: rest =>
      fr <~ track self detections frame ;;
      track_frames (tracker fr) rest
  end.

End Controller.

(** ** A reference implementation of the collaborators

    Used to run the controller on concrete frames.  The theorems about every
    call of the controller are stated for any collaborators; the runs on
    concrete frames use these. *)

Module Reference.

Definition f32_add : f32 -> f32 -> f32 := SFadd prec32 emax32.
Definition f32_sub : f32 -> f32 -> f32 := SFsub prec32 emax32.
Definition f32_mul : f32 -> f32 -> f32 := SFmul prec32 emax32.
Definition one_f : f32 := f32_of_int 1.

(** The binary32 value nearest to [n / d]. *)
Definition f32_ratio (n d : Z) : f32 := f32_div (f32_of_int n) (f32_of_int d).

(** Modelled from the spec: a track is created from a detection in state
    New, not activated, and has no identity before its activation. *)
Definition new (tlwh : list f32) (score : f32) (cls : Z)
    (feat : option FeatureVector) : Track :=
  {| track_id := 0; state := New; is_activated := false; tlwh := tlwh;
     score := score; track_class_id := cls; curr_feat := feat;
     smooth_feat := feat; mean := []; covariance := [];
     start_frame := 0; frame_id := 0; tracklet_len := 0 |}.

(** Modelled from the spec: [update] takes the detection's measurement,
    increments [tracklet_len] and leaves the track Tracked and activated.
    The Kalman state is left out: the box is the measurement. *)
Definition update (kf : KalmanFilter) (t d : Track) (fid : Z) : Track :=
  {| track_id := track_id t; state := Tracked; is_activated := true;
     tlwh := tlwh d; score := score d; track_class_id := track_class_id t;
     curr_feat := curr_feat d; smooth_feat := smooth_feat t;
     mean := mean t; covariance := covariance t;
     start_frame := start_frame t; frame_id := fid;
     tracklet_len := tracklet_len t + 1 |}.

(** Modelled from the spec: [re_activate] takes the detection's
    measurement, resets [tracklet_len] and leaves the track Tracked and
    activated.  The counter of fresh identities is not part of this model:
    the identity is kept, which is what [new_id = false] asks for. *)
Definition re_activate (kf : KalmanFilter) (t d : Track) (fid : Z)
    (new_id : bool) : Track :=
  {| track_id := track_id t; state := Tracked; is_activated := true;
     tlwh := tlwh d; score := score d; track_class_id := track_class_id t;
     curr_feat := curr_feat d; smooth_feat := smooth_feat t;
     mean := mean t; covariance := covariance t;
     start_frame := start_frame t; frame_id := fid; tracklet_len := 0 |}.

(** Modelled from the spec: [mark_lost] is a state transition only. *)
Definition mark_lost (t : Track) : Track :=
  {| track_id := track_id t; state := Lost; is_activated := is_activated t;
     tlwh := tlwh t; score := score t; track_class_id := track_class_id t;
     curr_feat := curr_feat t; smooth_feat := smooth_feat t;
     mean := mean t; covariance := covariance t;
     start_frame := start_frame t; frame_id := frame_id t;
     tracklet_len := tracklet_len t |}.

(** A dense matrix from a cost on pairs. *)
Definition matrix_of {A B} (cost : A -> B -> f32) (l : list A) (r : list B)
  : CostMatrix :=
  {| m_rows := length l; m_cols := length r;
     coeffs := flat_map (fun a => map (cost a) r) l |}.

Definition iou (a b : Track) : f32 :=
  match tlwh a, tlwh b with
  | [ax; ay; aw; ah], [bx; by_; bw; bh] =>
      let iw := f32_sub (std_min (f32_add ax aw) (f32_add bx bw)) (std_max ax bx) in
      let ih := f32_sub (std_min (f32_add ay ah) (f32_add by_ bh)) (std_max ay by_) in
      if gt iw zero_f && gt ih zero_f then
        let inter := f32_mul iw ih in
        f32_div inter (f32_sub (f32_add (f32_mul aw ah) (f32_mul bw bh)) inter)
      else zero_f
  | _, _ => zero_f
  end.

(** Modelled from the spec: [1 - IoU] for each pair, of shape
    [|tracks| x |detections|]. *)
Definition iou_dist (l r : list Track) : CostMatrix :=
  matrix_of (fun a b => f32_sub one_f (iou a b)) l r.

(** Modelled from the spec: [1 - (1 - cost) * confidence], column by
    column. *)
Definition fuse (cost : CostMatrix) (dets : list Track) : CostMatrix :=
  {| m_rows := m_rows cost; m_cols := m_cols cost;
     coeffs := imap (fun k c =>
                 match dets !! (k mod (m_cols cost))%nat with
                 | Some d => f32_sub one_f (f32_mul (f32_sub one_f c) (score d))
                 | None => c
                 end) (coeffs cost) |}.

(** Row [i] of a matrix. *)
Definition row (cost : CostMatrix) (i : nat) : list f32 :=
  take (m_cols cost) (drop (i * m_cols cost)%nat (coeffs cost)).

(** The cheapest free column of a row under the gate, if any. *)
Fixpoint best_column (r : list f32) (j : nat) (used : list nat) (thresh : f32)
    (best : option (nat * f32)) : option (nat * f32) :=
  match r with
  | [] => best
  | c :: r' =>
      let better := match best with
                    | Some (_, cb) => lt c cb
                    | None => true
                    end in
      best_column r' (S j) used thresh
        (if le c thresh && negb (bool_decide (j ∈ used)) && better
         then Some (j, c) else best)
  end.

(** A gated greedy stand-in for the solver: row after row, the cheapest
    free column at or under the gate.  It is the optimum on a matrix with
    one row, and reports no index on a matrix without rows and columns. *)
Fixpoint assign_rows (cost : CostMatrix) (is_ : list nat) (used : list nat)
    (thresh : f32) (acc : list (Z * Z) * list Z)
  : list (Z * Z) * list Z * list nat :=
  match is_ with
  | [] => (acc, used)
  | i :: is' =>
      match best_column (row cost i) 0 used thresh None with
      | Some (j, _) =>
          assign_rows cost is' (used ++ [j]) thresh
                      (fst acc ++ [(Z.of_nat i, Z.of_nat j)], snd acc)
      | None =>
          assign_rows cost is' used thresh (fst acc, snd acc ++ [Z.of_nat i])
      end
  end.

Definition assignment (cost : CostMatrix) (thresh : f32) : AssociationData :=
  let '(ms, ut, used) :=
    assign_rows cost (seq 0 (m_rows cost)) [] thresh ([], []) in
  {| matches := ms;
     unmatched_track_indices := ut;
     unmatched_det_indices :=
       map Z.of_nat (filter (fun j => j ∉ used) (seq 0 (m_cols cost))) |}.

(** Modelled from the spec: without Re-ID ([emb_cost] empty) the fused cost
    is the IoU cost; otherwise an entry of [emb_cost] is rejected (set to 1)
    when the pair is too far apart or too dissimilar, and the result is the
    entrywise minimum. *)
Definition fuse_emb (iou_cost emb_cost : CostMatrix) (proximity appearance : f32)
  : CostMatrix :=
  match coeffs emb_cost with
  | [] => iou_cost
  | _ =>
      {| m_rows := m_rows iou_cost; m_cols := m_cols iou_cost;
         coeffs := zip_with (fun i e =>
                     let e := if gt i proximity || gt e appearance
                              then one_f else e in
                     std_min i e) (coeffs iou_cost) (coeffs emb_cost) |}
  end.

(** The backend [none] of the motion compensation: the identity, no state;
    no Re-ID network: every patch has the empty feature vector, and the
    embedding and motion costs are those of a disabled Re-ID. *)
#[export] Instance collaborators : Collaborators unit := {|
  gmc_make := fun _ => tt;
  gmc_apply := fun _ _ _ =>
    ([[one_f; zero_f; zero_f]; [zero_f; one_f; zero_f]; [zero_f; zero_f; one_f]], tt);
  Mat_roi := fun _ _ => Some Mat_default;
  reid_extract_features := fun _ _ => [];
  Track_new := new;
  Track_update := update;
  Track_re_activate := re_activate;
  Track_mark_lost := mark_lost;
  Track_predict := fun _ t => t;
  Track_gmc := fun _ t => t;
  iou_distance := iou_dist;
  fuse_score := fuse;
  embedding_distance := fun _ _ => CostMatrix_default;
  fuse_motion := fun _ cost _ _ _ _ => cost;
  fuse_iou_with_emb := fuse_emb;
  linear_assignment := assignment
|}.

End Reference.

(** ** Vocabulary of the statements *)

(** The two tests of the detection loop, as predicates on a detection. *)
Definition is_high (thresh : f32) (d : Detection) : bool :=
  ge (confidence d) thresh.

Definition is_low (thresh : f32) (d : Detection) : bool :=
  negb (ge (confidence d) thresh)
  && (gt (f64_of_f32 (confidence d)) lit_0_1 && lt (confidence d) thresh).

(** The tracklets of the detections that satisfy [P], when the tracklet of
    the first detection is the cell [base] of the store and each detection
    takes the next cell. *)
Fixpoint tracklets_where (P : Detection -> bool) (base : ptr)
    (dets : list Detection) : list ptr :=
  match dets with
  | [] => []
  | d :: dets' =>
      if P d then base :: tracklets_where P (S base) dets'
      else tracklets_where P (S base) dets'
  end.

(** The integer nearest to [n / d], for [d > 0]; halves go up. *)
Definition round_nearest (n d : Z) : Z := (2 * n + d) / (2 * d).

(** The double [frame_rate / 30.0 * track_buffer] of the constructor. *)
Definition buffer_size_double (frame_rate track_buffer : Z) : f64 :=
  f64_mul (f64_div (f64_of_int frame_rate) lit_30_0) (f64_of_int track_buffer).

(** The truncation of the double [x] is the integer quotient of [n] by 30, or
    one less. *)
Definition truncation_is_near_quotient (n : Z) (x : f64) : bool :=
  match trunc x with
  | Some v => (30 * v <=? n) && (n <? 30 * v + 60)
  | None => false
  end.

(** The values of a [uint8_t]. *)
Definition uint8_values : list Z := map Z.of_nat (seq 0 256).

(** A frame rate, whose quotient by 30.0 is [q], against every track
    buffer. *)
Definition buffers_near_quotient (fr : Z) (q : f64) : bool :=
  forallb (fun tb => truncation_is_near_quotient (fr * tb) (f64_mul q (f64_of_int tb)))
          uint8_values.

Definition frame_rate_near_quotient (fr : Z) : bool :=
  buffers_near_quotient fr (f64_div (f64_of_int fr) lit_30_0).

(** The [track_id] and the [is_activated] flag behind a pointer. *)
Definition id_at (h : list Track) (p : ptr) : option Z := track_id <$> h !! p.

Definition activated_at (h : list Track) (p : ptr) : option bool :=
  is_activated <$> h !! p.

(** The tracks of [ps] whose [track_id] is neither in [seen] nor the
    [track_id] of an earlier track of [ps], in the order of [ps]. *)
Fixpoint not_yet_seen (h : list Track) (seen : list (option Z)) (ps : list ptr)
  : list ptr :=
  match ps with
  | [] => []
  | p :: ps' =>
      if decide (id_at h p ∈ seen) then not_yet_seen h seen ps'
      else p :: not_yet_seen h (id_at h p :: seen) ps'
  end.

(** [s'] comes after [s]: the store has not shrunk, and the log has grown by
    calls that satisfy [P]. *)
Definition after (P : Call -> Prop) (s s' : Machine) : Prop :=
  (exists added, calls s' = calls s ++ added /\ Forall P added) /\
  (length (heap s) <= length (heap s'))%nat.

(** A computation grows the machine by calls that satisfy [P]. *)
Definition grows (P : Call -> Prop) {A} (m : M A) : Prop :=
  forall s a s', m s = Some (a, s') -> after P s s'.

(** What a call in the log may say about the frame and the detections:
    an update or a re-activation is stamped with the frame [fid], takes its
    detection from [dets], and a re-activation keeps the identity. *)
Definition stamped (fid : Z) (dets : list ptr) (c : Call) : Prop :=
  match c with
  | Call_update _ d f => f = fid /\ d ∈ dets
  | Call_re_activate _ d f new_id => f = fid /\ d ∈ dets /\ new_id = false
  | _ => True
  end.

(** A stamped call that is not a call of [Track::multi_predict]. *)
Definition quiet (fid : Z) (dets : list ptr) (c : Call) : Prop :=
  stamped fid dets c /\ forall ps, c <> Call_multi_predict ps.

(** On a store of at least [n] cells, the computation [m] has a result that
    satisfies [Q], and the store keeps at least [n] cells. *)
Definition runs (n : nat) {A} (m : M A) (Q : A -> Prop) : Prop :=
  forall s, (n <= length (heap s))%nat ->
    exists a s', m s = Some (a, s') /\ (n <= length (heap s'))%nat /\ Q a.

(** The pointers of [l] are cells of a store of [n] cells. *)
Definition below (n : nat) (l : list ptr) : Prop :=
  Forall (fun p => (p < n)%nat) l.

(** The indices of an association are rows and columns of the matrix. *)
Definition in_range (cost : CostMatrix) (a : AssociationData) : Prop :=
  Forall (fun m => 0 <= fst m < Z.of_nat (m_rows cost)
                   /\ 0 <= snd m < Z.of_nat (m_cols cost)) (matches a) /\
  Forall (fun r => 0 <= r < Z.of_nat (m_rows cost)) (unmatched_track_indices a).

(** What the controller relies on: the cost matrices have one row for each
    track and one column for each detection, and the solver reports rows
    and columns of the matrix it is given. *)
Class Lawful {GlobalMotionCompensation : Type}
    (C : Collaborators GlobalMotionCompensation) : Prop := {
  iou_distance_shape : forall a b,
    m_rows (iou_distance a b) = length a /\ m_cols (iou_distance a b) = length b;
  fuse_score_shape : forall cost dets,
    m_rows (fuse_score cost dets) = m_rows cost /\
    m_cols (fuse_score cost dets) = m_cols cost;
  fuse_iou_with_emb_shape : forall iou_cost emb_cost p a,
    m_rows (fuse_iou_with_emb iou_cost emb_cost p a) = m_rows iou_cost /\
    m_cols (fuse_iou_with_emb iou_cost emb_cost p a) = m_cols iou_cost;
  linear_assignment_in_range : forall cost thresh,
    in_range cost (linear_assignment cost thresh)
}.

(** Where the product [fr * tb] is under 30, or from 7680 to 7709, the
    conversion of the buffer size to [uint8_t] is defined exactly when the
    product is under 7680. *)
Definition conversion_at_the_edges (fr tb : Z) : bool :=
  let n := fr * tb in
  if (n <? 30) || ((7680 <=? n) && (n <? 7710)) then
    match to_uint8 (buffer_size_double fr tb) with
    | Some _ => n <? 7680
    | None => 7680 <=? n
    end
  else true.

(** The frame rates that are multiples of 30. *)
Definition multiples_of_30 : list Z := map (fun k => 30 * Z.of_nat k) (seq 0 9).

(** At the frame rate [30 * k] the double of the buffer size is the integer
    [k * tb]. *)
Definition exact_at_multiple (k tb : Z) : bool :=
  match trunc (buffer_size_double (30 * k) tb) with
  | Some v => v =? k * tb
  | None => false
  end.

(** The store [h'] has the cells of [h], and the same object in every cell
    that is not in [ps]. *)
Definition same_but (ps : list ptr) (h h' : list Track) : Prop :=
  length h' = length h /\ forall q, q ∉ ps -> h' !! q = h !! q.

(** A computation writes to cells of [ps] only, and allocates nothing. *)
Definition writes_only (ps : list ptr) {A} (m : M A) : Prop :=
  forall s a s', m s = Some (a, s') -> same_but ps (heap s) (heap s').

(** The track an update, a re-activation or a transition to Lost is called
    on is in [ps]. *)
Definition on_tracks (ps : list ptr) (c : Call) : Prop :=
  match c with
  | Call_update t _ _ | Call_re_activate t _ _ _ | Call_mark_lost t => t ∈ ps
  | _ => True
  end.

Section Tracklets.

Context {GlobalMotionCompensation : Type}.
Context {C : Collaborators GlobalMotionCompensation}.

(** The tracklet the detection loop builds from a clamped detection: with
    Re-ID, its features are those of a default-constructed matrix. *)
Definition tracklet_of (self : @BoTSORT GlobalMotionCompensation)
    (detection : Detection) : Track :=
  let b := bbox_tlwh detection in
  Track_new [x b; y b; width b; height b] (confidence detection)
            (class_id detection)
            (if _reid_enabled self
             then (fun model => reid_extract_features model Mat_default)
                    <$> _reid_model self
             else None).

(** The calls the detection loop logs for [n] detections. *)
Definition feature_calls (self : @BoTSORT GlobalMotionCompensation) (n : nat)
  : list Call :=
  if _reid_enabled self then replicate n (Call_extract_features Mat_default)
  else [].

End Tracklets.

(** An update or a re-activation. *)
Definition is_update (c : Call) : Prop :=
  match c with
  | Call_update _ _ _ | Call_re_activate _ _ _ _ => True
  | _ => False
  end.

(** A transition to Lost. *)
Definition is_mark_lost (c : Call) : Prop :=
  match c with Call_mark_lost _ => True | _ => False end.

Section TrackerUpdate.

Context {GlobalMotionCompensation : Type}.

(** The tracker [self] with the state [g] of its motion compensation. *)
Definition with_gmc_algo (self : @BoTSORT GlobalMotionCompensation)
    (g : GlobalMotionCompensation) : @BoTSORT GlobalMotionCompensation :=
  {| _track_high_thresh := _track_high_thresh self;
     _new_track_thresh := _new_track_thresh self;
     _track_buffer := _track_buffer self;
     _match_thresh := _match_thresh self;
     _proximity_thresh := _proximity_thresh self;
     _appearance_thresh := _appearance_thresh self;
     _frame_rate := _frame_rate self;
     _lambda := _lambda self;
     _frame_id := _frame_id self;
     _buffer_size := _buffer_size self;
     _max_time_lost := _max_time_lost self;
     _kalman_filter := _kalman_filter self;
     _reid_model := _reid_model self;
     _reid_enabled := _reid_enabled self;
     _gmc_algo := g;
     _tracked_tracks := _tracked_tracks self;
     _lost_tracks := _lost_tracks self |}.

End TrackerUpdate.

Section Configuration.

Context {GlobalMotionCompensation : Type}.

(** The configuration of a tracker: what the constructor computes from its
    arguments, the frame counter and the state of the motion compensation
    apart. *)
Definition same_configuration (a b : @BoTSORT GlobalMotionCompensation) : Prop :=
  _track_high_thresh a = _track_high_thresh b /\
  _new_track_thresh a = _new_track_thresh b /\
  _track_buffer a = _track_buffer b /\
  _match_thresh a = _match_thresh b /\
  _proximity_thresh a = _proximity_thresh b /\
  _appearance_thresh a = _appearance_thresh b /\
  _frame_rate a = _frame_rate b /\
  _lambda a = _lambda b /\
  _buffer_size a = _buffer_size b /\
  _max_time_lost a = _max_time_lost b /\
  _kalman_filter a = _kalman_filter b /\
  _reid_model a = _reid_model b /\
  _reid_enabled a = _reid_enabled b.

End Configuration.

(** The tracks at the indices [idxs] of the vector [pool]. *)
Definition tracks_at (pool : list ptr) (idxs : list Z) : list ptr :=
  omap (fun i => if i <? 0 then None else pool !! Z.to_nat i) idxs.

(** The state of the track behind a pointer. *)
Definition state_at (h : list Track) (p : ptr) : option TrackState :=
  state <$> h !! p.

(** What the four clamping assignments guarantee of a box, in a frame whose
    last column and last row are [right] and [bottom]: no component is a
    NaN, x and y are at least 0, the width is at most [right] and the height
    at most [bottom]. *)
Definition clamped (right bottom : f32) (b : Rect) : Prop :=
  is_nan (x b) = false /\ ge (x b) zero_f = true /\
  is_nan (y b) = false /\ ge (y b) zero_f = true /\
  is_nan (width b) = false /\ le (width b) right = true /\
  is_nan (height b) = false /\ le (height b) bottom = true.

Section Replay.

Context {GlobalMotionCompensation : Type}.
Context {C : Collaborators GlobalMotionCompensation}.

(** What a logged call does to the store: a method of [Track] rewrites its
    receiver, a batched operation rewrites the tracks of its list one after
    the other, and the other calls write nothing. *)
Definition apply_call (kf : KalmanFilter) (c : Call) (h : list Track)
  : list Track :=
  match c with
  | Call_multi_predict tracks =>
      foldl (fun h p => alter (Track_predict kf) p h) h tracks
  | Call_multi_gmc tracks H =>
      foldl (fun h p => alter (Track_gmc H) p h) h tracks
  | Call_update track detection fid =>
      match h !! track, h !! detection with
      | Some t, Some d => <[track := Track_update kf t d fid]> h
      | _, _ => h
      end
  | Call_re_activate track detection fid new_id =>
      match h !! track, h !! detection with
      | Some t, Some d => <[track := Track_re_activate kf t d fid new_id]> h
      | _, _ => h
      end
  | Call_mark_lost track => alter Track_mark_lost track h
  | Call_extract_features _ | Call_iou_distance _ _
  | Call_linear_assignment _ _ => h
  end.

(** The store [h] once the calls [cs] have been carried out, in order. *)
Definition replay (kf : KalmanFilter) (cs : list Call) (h : list Track)
  : list Track :=
  foldl (fun h c => apply_call kf c h) h cs.

(** A computation that allocates nothing, and whose writes are those of the
    calls it logs. *)
Definition replays (kf : KalmanFilter) {A} (m : M A) : Prop :=
  forall s a s', m s = Some (a, s') ->
    exists added, calls s' = calls s ++ added /\
                  heap s' = replay kf added (heap s).

End Replay.

(** The receivers of the updates of a log, and those of its
    re-activations. *)
Definition updated_in (cs : list Call) : list ptr :=
  omap (fun c => match c with Call_update t _ _ => Some t | _ => None end) cs.

Definition re_activated_in (cs : list Call) : list ptr :=
  omap (fun c => match c with Call_re_activate t _ _ _ => Some t | _ => None end) cs.

(** The call one turn of an update loop logs for a track in the state it
    finds: an update for a Tracked track, a re-activation under the same
    identity otherwise. *)
Definition update_call (track detection : ptr) (fid : Z) (t : Track) : Call :=
  if decide (state t = Tracked) then Call_update track detection fid
  else Call_re_activate track detection fid false.

(** ** Concrete trackers, frames and stores *)

Module Examples.

Import Reference.

(** A 640 x 480 frame. *)
Definition frame : Mat := {| cols := 640; rows := 480; pixels := [] |}.

(** The box (100, 200, 50, 100). *)
Definition box : Rect :=
  {| x := f32_of_int 100; y := f32_of_int 200;
     width := f32_of_int 50; height := f32_of_int 100 |}.

Definition det (b : Rect) (conf : f32) : Detection :=
  {| bbox_tlwh := b; confidence := conf; class_id := 0; embedding := None |}.

(** A tracker with the default thresholds, Re-ID disabled. *)
Definition tracker_with (high : f32) (fid : Z) (tracked lost : list ptr)
  : BoTSORT (GlobalMotionCompensation := unit) :=
  {| _track_high_thresh := high;
     _new_track_thresh := f32_ratio 7 10;
     _track_buffer := 30;
     _match_thresh := f32_ratio 8 10;
     _proximity_thresh := f32_ratio 5 10;
     _appearance_thresh := f32_ratio 25 100;
     _frame_rate := 30;
     _lambda := f32_ratio 98 100;
     _frame_id := fid;
     _buffer_size := 30;
     _max_time_lost := 30;
     _kalman_filter := {| dt := f64_div lit_1_0 (f64_of_int 30) |};
     _reid_model := None;
     _reid_enabled := false;
     _gmc_algo := tt;
     _tracked_tracks := tracked;
     _lost_tracks := lost |}.

(** A track on [box] with identity [id]. *)
Definition track_at (id : Z) (st : TrackState) (activated : bool) : Track :=
  {| track_id := id; state := st; is_activated := activated;
     tlwh := [x box; y box; width box; height box];
     score := f32_ratio 9 10; track_class_id := 0;
     curr_feat := None; smooth_feat := None; mean := []; covariance := [];
     start_frame := 1; frame_id := 1; tracklet_len := 0 |}.

Definition empty_machine : Machine := {| heap := []; calls := [] |}.

(** The tracker the constructor builds from the default configuration, and
    the one it builds for 25 frames per second. *)
Definition configured (track_buffer frame_rate : Z)
  : option (BoTSORT (GlobalMotionCompensation := unit)) :=
  BoTSORT_new None false (f32_ratio 6 10) (f32_ratio 7 10) track_buffer
              (f32_ratio 8 10) (f32_ratio 5 10) (f32_ratio 25 100)
              "none"%string frame_rate (f32_ratio 98 100).

(** The tracker of the second frame, with the cell 0 of the store in its
    tracked pool, and a call of [track] on it. *)
Definition second_frame_tracker : BoTSORT (GlobalMotionCompensation := unit) :=
  tracker_with (f32_ratio 6 10) 1 [0%nat] [].

Definition run (self : BoTSORT) (detections : list Detection) (m : Machine)
  : option (Frame * Machine) :=
  track (C := collaborators) self detections frame m.

(** The objects behind a list of pointers. *)
Definition objects (h : list Track) (ps : list ptr) : list Track :=
  omap (fun p => h !! p) ps.

(** A box that leaves the frame on the left and on the right, and a box of
    negative width. *)
Definition wide_box : Rect :=
  {| x := f32_of_int (-3); y := f32_of_int 5;
     width := f32_of_int 1000; height := f32_of_int 100 |}.

Definition negative_box : Rect :=
  {| x := f32_of_int 100; y := f32_of_int 200;
     width := f32_of_int (-5); height := f32_of_int 100 |}.

(** A tracker on its first frame, with [track_high_thresh = high]. *)
Definition first_frame_tracker (high : f32) : BoTSORT (GlobalMotionCompensation := unit) :=
  tracker_with high 0 [] [].

(** Two frames: one detection of confidence 0.9, then none. *)
Definition two_frames : list (list Detection * Mat) :=
  [([det box (f32_ratio 9 10)], frame); ([], frame)].

(** One confirmed track, tracked since frame 1. *)
Definition one_track : Machine :=
  {| heap := [track_at 1 Tracked true]; calls := [] |}.

(** One confirmed track and two lost tracks that share the identity 7. *)
Definition twin_lost : Machine :=
  {| heap := [track_at 1 Tracked true; track_at 7 Lost true; track_at 7 Lost true];
     calls := [] |}.

(** One confirmed track and one lost track. *)
Definition one_lost : Machine :=
  {| heap := [track_at 1 Tracked true; track_at 7 Lost true]; calls := [] |}.

(** A tracker with Re-ID enabled, on its first frame. *)
Definition reid_tracker : BoTSORT (GlobalMotionCompensation := unit) :=
  {| _track_high_thresh := f32_ratio 6 10;
     _new_track_thresh := f32_ratio 7 10;
     _track_buffer := 30;
     _match_thresh := f32_ratio 8 10;
     _proximity_thresh := f32_ratio 5 10;
     _appearance_thresh := f32_ratio 25 100;
     _frame_rate := 30;
     _lambda := f32_ratio 98 100;
     _frame_id := 0;
     _buffer_size := 30;
     _max_time_lost := 30;
     _kalman_filter := {| dt := f64_div lit_1_0 (f64_of_int 30) |};
     _reid_model := Some {| weights := "model.trt"; fp16 := false |};
     _reid_enabled := true;
     _gmc_algo := tt;
     _tracked_tracks := [];
     _lost_tracks := [] |}.

(** The reference collaborators, with a frame out of which no patch can be
    cut. *)
Definition no_patch : Collaborators unit := {|
  gmc_make := gmc_make (Collaborators := collaborators);
  gmc_apply := gmc_apply (Collaborators := collaborators);
  Mat_roi := fun _ _ => None;
  reid_extract_features := reid_extract_features (Collaborators := collaborators);
  Track_new := new;
  Track_update := update;
  Track_re_activate := re_activate;
  Track_mark_lost := mark_lost;
  Track_predict := fun _ t => t;
  Track_gmc := fun _ t => t;
  iou_distance := iou_dist;
  fuse_score := fuse;
  embedding_distance := fun _ _ => CostMatrix_default;
  fuse_motion := fun _ cost _ _ _ _ => cost;
  fuse_iou_with_emb := fuse_emb;
  linear_assignment := assignment
|}.

(** One track of the tracked pool that is not activated yet. *)
Definition one_unconfirmed : Machine :=
  {| heap := [track_at 1 Tracked false]; calls := [] |}.

End Examples.

(** ** Facts about the machine *)

Section MachineFacts.

Lemma bind_Some {A B} (m : M A) (k : A -> M B) s r :
  bind m k s = Some r <-> exists a s1, m s = Some (a, s1) /\ k a s1 = Some r.
Proof.
  unfold bind. split.
  - destruct (m s) as [[a s1]|]; [eauto | discriminate].
  - intros (a & s1 & -> & Hk). exact Hk.
Qed.

Lemma ret_Some {A} (a : A) s r : ret a s = Some r <-> r = (a, s).
Proof. unfold ret. split; [intros [= <-] | intros ->]; reflexivity. Qed.

Lemma deref_Some p s r :
  deref p s = Some r <-> exists t, heap s !! p = Some t /\ r = (t, s).
Proof.
  unfold deref. destruct (heap s !! p) as [t|]; split.
  - intros [= <-]. eauto.
  - intros (t' & [= <-] & ->). reflexivity.
  - discriminate.
  - intros (t' & [=] & _).
Qed.

Lemma store_Some p t s r :
  store p t s = Some r <->
  is_Some (heap s !! p) /\
  r = (tt, {| heap := <[p := t]> (heap s); calls := calls s |}).
Proof.
  unfold store. destruct (heap s !! p) as [t0|]; split.
  - intros [= <-]. eauto.
  - intros [_ ->]. reflexivity.
  - discriminate.
  - intros [[? [=]] _].
Qed.

Lemma call_Some c s r :
  call c s = Some r <-> r = (tt, {| heap := heap s; calls := calls s ++ [c] |}).
Proof. unfold call. split; [intros [= <-] | intros ->]; reflexivity. Qed.

Lemma vec_at_Some {A} (v : list A) i s r :
  vec_at v i s = Some r <->
  exists a, 0 <= i /\ v !! Z.to_nat i = Some a /\ r = (a, s).
Proof.
  unfold vec_at. destruct (Z.ltb_spec i 0) as [Hi|Hi].
  - split; [discriminate | intros (a & ? & _); lia].
  - destruct (v !! Z.to_nat i) as [a|]; split.
    + intros [= <-]. eauto.
    + intros (a' & _ & [= <-] & ->). reflexivity.
    + discriminate.
    + intros (a' & _ & [=] & _).
Qed.

Lemma for_each_app {A S} (l1 l2 : list A) (body : A -> S -> M S) st s :
  for_each (l1 ++ l2) body st s =
  bind (for_each l1 body st) (for_each l2 body) s.
Proof.
  revert st s. induction l1 as [|a l1 IH]; intros st s.
  - reflexivity.
  - cbn [app for_each]. cbv beta delta [bind] in IH |- *.
    destruct (body a st s) as [[st1 s1]|]; [apply IH | reflexivity].
Qed.

End MachineFacts.

(** Break a hypothesis [m s = Some r] along the structure of [m]. *)
Ltac run_step H :=
  lazymatch type of H with
  | bind _ _ _ = Some _ =>
      let a := fresh "a" in let s := fresh "s" in let H1 := fresh "Hrun" in
      apply bind_Some in H; destruct H as (a & s & H1 & H)
  | ret _ _ = Some _ => apply ret_Some in H
  | call _ _ = Some _ => apply call_Some in H
  | undefined _ = Some _ => discriminate H
  end.

(** Break every hypothesis about a primitive step, and substitute the values
    and machines it yields. *)
Ltac run_inv :=
  repeat match goal with
    | H : bind _ _ _ = Some _ |- _ =>
        let H1 := fresh "Hrun" in
        apply bind_Some in H; destruct H as (? & ? & H1 & H)
    | H : ret _ _ = Some _ |- _ =>
        apply ret_Some in H; injection H as ? ?; subst
    | H : call _ _ = Some _ |- _ =>
        apply call_Some in H; injection H as ? ?; subst
    | H : deref _ _ = Some _ |- _ =>
        let E := fresh "E" in
        apply deref_Some in H; destruct H as (? & ? & E);
        injection E as ? ?; subst
    | H : store _ _ _ = Some _ |- _ =>
        let E := fresh "E" in
        apply store_Some in H; destruct H as (? & E);
        injection E as ? ?; subst
    | H : vec_at _ _ _ = Some _ |- _ =>
        let E := fresh "E" in
        apply vec_at_Some in H; destruct H as (? & ? & ? & E);
        injection E as ? ?; subst
    | H : undefined _ = Some _ |- _ => discriminate H
    end.

(** ** Computations only add to the store and to the log *)

Section Grows.

Context (P : Call -> Prop).

Lemma after_refl s : after P s s.
Proof. split; [exists []; by rewrite app_nil_r | reflexivity]. Qed.

Lemma after_trans s1 s2 s3 : after P s1 s2 -> after P s2 s3 -> after P s1 s3.
Proof.
  intros [(l1 & E1 & F1) H1] [(l2 & E2 & F2) H2]. split; [|lia].
  exists (l1 ++ l2). rewrite E2, E1, <- app_assoc. split; [done|].
  by apply Forall_app.
Qed.

Lemma after_weaken (Q : Call -> Prop) s s' :
  (forall c, P c -> Q c) -> after P s s' -> after Q s s'.
Proof.
  intros HPQ [(l & E & F) H]. split; [|done].
  exists l. split; [done|]. eapply Forall_impl; eauto.
Qed.

Lemma after_prefix s s' : after P s s' -> calls s `prefix_of` calls s'.
Proof. intros [(l & E & _) _]. by exists l. Qed.

Lemma grows_ret {A} (a : A) : grows P (ret a).
Proof. intros s a' s' [= _ <-]. apply after_refl. Qed.

Lemma grows_undefined {A} : grows P (@undefined A).
Proof. intros s a s' [=]. Qed.

Lemma grows_bind {A B} (m : M A) (k : A -> M B) :
  grows P m -> (forall a, grows P (k a)) -> grows P (bind m k).
Proof.
  intros Hm Hk s b s' (a & s1 & H1 & H2)%bind_Some.
  apply after_trans with s1; [eapply Hm | eapply Hk]; eassumption.
Qed.

Lemma grows_deref p : grows P (deref p).
Proof. intros s a s' (t & _ & [= _ <-])%deref_Some. apply after_refl. Qed.

Lemma grows_store p t : grows P (store p t).
Proof.
  intros s a s' (_ & [= _ ->])%store_Some.
  split; simpl; [exists []; by rewrite app_nil_r | by rewrite length_insert].
Qed.

Lemma grows_new_Track t : grows P (new_Track t).
Proof.
  intros s a s' [= _ <-]. split; simpl; [exists []; by rewrite app_nil_r |].
  rewrite length_app. lia.
Qed.

Lemma grows_call c : P c -> grows P (call c).
Proof.
  intros Hc s a s' [= _ <-]. split; simpl; [|reflexivity].
  exists [c]. split; [done | by constructor].
Qed.

Lemma grows_vec_at {A} (v : list A) i : grows P (vec_at v i).
Proof. intros s a s' (x & _ & _ & [= _ <-])%vec_at_Some. apply after_refl. Qed.

Lemma grows_bind_vec_at {A B} (v : list A) i (k : A -> M B) :
  (forall a, a ∈ v -> grows P (k a)) -> grows P (bind (vec_at v i) k).
Proof.
  intros Hk s b s' (a & s1 & H1 & H2)%bind_Some.
  apply vec_at_Some in H1 as (a' & _ & Ha & [= -> ->]).
  eapply Hk; [|eassumption]. eapply list_elem_of_lookup_2; eassumption.
Qed.

Lemma grows_for_each {A S} (l : list A) (body : A -> S -> M S) st :
  (forall a st, grows P (body a st)) -> grows P (for_each l body st).
Proof.
  intros Hbody. revert st. induction l as [|a l IH]; intros st; simpl.
  - apply grows_ret.
  - apply grows_bind; [apply Hbody | intros st'; apply IH].
Qed.

End Grows.

Lemma grows_weaken (P Q : Call -> Prop) {A} (m : M A) :
  (forall c, P c -> Q c) -> grows P m -> grows Q m.
Proof. intros HPQ Hm s a s' H. eapply after_weaken; eauto. Qed.

(** Decompose a computation into the steps that grow; the calls it logs are
    left as goals. *)
Ltac grows :=
  repeat first
    [ apply grows_ret | apply grows_undefined | apply grows_deref
    | apply grows_store | apply grows_new_Track
    | apply grows_vec_at
    | apply grows_call
    | apply grows_bind; [| intros ?]
    | apply grows_for_each; intros ? ?
    | match goal with
      | |- grows _ (match ?x with _ => _ end) => destruct x
      | |- grows _ (let (_, _) := ?x in _) => destruct x
      end ].

(** ** The phases of one call *)

Section TrackFacts.

Context {GlobalMotionCompensation : Type}.
Context {C : Collaborators GlobalMotionCompensation}.
Implicit Types (self : @BoTSORT GlobalMotionCompensation).

(** A call of [track_body] that returns has gone through every phase. *)
Lemma track_body_inv self dets frame s fr s' :
  track_body self dets frame s = Some (fr, s') ->
  exists dl s1 seg s2 pool s3 s4 s5 s6 fa s7 u1 s8 unm s9 sec s10 u2 s11 lost,
    create_tracklets self dets frame s = Some (dl, s1) /\
    segregate self s1 = Some (seg, s2) /\
    _merge_track_lists (snd seg) (_lost_tracks self) s2 = Some (pool, s3) /\
    multi_predict pool (_kalman_filter self) s3 = Some (tt, s4) /\
    multi_gmc pool (fst (gmc_apply (_gmc_algo self) frame (dl_detections dl))) s4
      = Some (tt, s5) /\
    multi_gmc (fst seg) (fst (gmc_apply (_gmc_algo self) frame (dl_detections dl))) s5
      = Some (tt, s6) /\
    first_association self pool (dl_high dl) s6 = Some (fa, s7) /\
    update_matched self pool (dl_high dl) (matches fa)
      {| activated_tracks := []; refind_tracks := [] |} s7 = Some (u1, s8) /\
    for_each (unmatched_track_indices fa) (still_tracked_body pool) [] s8
      = Some (unm, s9) /\
    second_association unm (dl_low dl) s9 = Some (sec, s10) /\
    update_matched self unm (dl_low dl) (matches (snd sec)) u1 s10 = Some (u2, s11) /\
    for_each (unmatched_track_indices (snd sec)) (mark_lost_body unm) [] s11
      = Some (lost, s') /\
    returned fr = [] /\
    _frame_id (tracker fr) = _frame_id self /\
    _tracked_tracks (tracker fr) = _tracked_tracks self /\
    _lost_tracks (tracker fr) = _lost_tracks self /\
    detections_after fr = dl_detections dl /\
    locals fr = {| detections_high_conf := dl_high dl;
                   detections_low_conf := dl_low dl;
                   unconfirmed_tracks := fst seg;
                   tracked_tracks := snd seg;
                   tracks_pool := pool;
                   first_associations := fa;
                   unmatched_tracks_after_1st_association := unm;
                   iou_dists_second := fst sec;
                   second_associations := snd sec;
                   updated := u2;
                   lost_tracks := lost |}.
Proof.
  unfold track_body. intros H.
  run_step H. run_step H. run_step H. run_step H. cbv zeta in H.
  run_step H. run_step H. run_step H. run_step H. run_step H.
  run_step H. run_step H. run_step H. run_step H.
  injection H as Hfr Hs. subst fr s'.
  repeat match goal with u : unit |- _ => destruct u end.
  repeat eexists; eassumption.
Qed.

Ltac quiet := split; [simpl; auto | intros ?; discriminate].

Lemma grows_deref_all P ps : grows P (deref_all ps).
Proof. unfold deref_all. grows. Qed.

Lemma grows_create_tracklets fid ds self dets frame :
  grows (quiet fid ds) (create_tracklets self dets frame).
Proof.
  unfold create_tracklets, detection_body, _extract_features. grows; quiet.
Qed.

Lemma grows_segregate P self : grows P (segregate self).
Proof. unfold segregate. grows. Qed.

Lemma grows_merge P a b : grows P (_merge_track_lists a b).
Proof. unfold _merge_track_lists. grows. Qed.

Lemma grows_multi_predict fid ds ps kf : grows (stamped fid ds) (multi_predict ps kf).
Proof. unfold multi_predict. grows. exact I. Qed.

Lemma grows_multi_gmc fid ds ps H : grows (quiet fid ds) (multi_gmc ps H).
Proof. unfold multi_gmc. grows. quiet. Qed.

Lemma grows_first_association fid ds self pool high :
  grows (quiet fid ds) (first_association self pool high).
Proof. unfold first_association. grows; try quiet; apply grows_deref_all. Qed.

Lemma grows_second_association fid ds unm low :
  grows (quiet fid ds) (second_association unm low).
Proof. unfold second_association. grows; try quiet; apply grows_deref_all. Qed.

Lemma grows_update_matched self tracks dets ds ms u :
  dets ⊆ ds ->
  grows (quiet (_frame_id self) ds) (update_matched self tracks dets ms u).
Proof.
  intros Hsub. unfold update_matched.
  apply grows_for_each. intros m u'. unfold update_body.
  apply grows_bind; [apply grows_vec_at | intros track].
  apply grows_bind_vec_at. intros detection Hd%Hsub.
  grows; quiet.
Qed.

Lemma grows_still_tracked P pool idxs acc :
  grows P (for_each idxs (still_tracked_body pool) acc).
Proof. unfold still_tracked_body. grows. Qed.

Lemma grows_mark_lost fid ds tracks idxs acc :
  grows (quiet fid ds) (for_each idxs (mark_lost_body tracks) acc).
Proof. unfold mark_lost_body. grows. quiet. Qed.

(** One call of [track_body], around its call of [Track::multi_predict]:
    the calls logged before the prediction and after it are stamped with the
    tracker's frame, take their detections from the two lists of tracklets,
    and none of them is a prediction. *)
Lemma track_body_phases self dets frame s fr s' :
  track_body self dets frame s = Some (fr, s') ->
  let P := quiet (_frame_id self)
             (detections_high_conf (locals fr) ++ detections_low_conf (locals fr)) in
  exists s3 s4,
    after P s s3 /\
    multi_predict (tracks_pool (locals fr)) (_kalman_filter self) s3 = Some (tt, s4) /\
    after P s4 s'.
Proof.
  intros H. apply track_body_inv in H
    as (dl & s1 & seg & s2 & pool & s3 & s4 & s5 & s6 & fa & s7 & u1 & s8 & unm
        & s9 & sec & s10 & u2 & s11 & lost & H1 & H2 & H3 & H4 & H5 & H6 & H7
        & H8 & H9 & H10 & H11 & H12 & _ & _ & _ & _ & _ & ->).
  simpl.
  set (P := quiet (_frame_id self) (dl_high dl ++ dl_low dl)).
  apply (grows_create_tracklets (_frame_id self) (dl_high dl ++ dl_low dl)) in H1.
  apply (grows_segregate P) in H2.
  apply (grows_merge P) in H3.
  apply (grows_multi_gmc (_frame_id self) (dl_high dl ++ dl_low dl)) in H5.
  apply (grows_multi_gmc (_frame_id self) (dl_high dl ++ dl_low dl)) in H6.
  apply (grows_first_association (_frame_id self) (dl_high dl ++ dl_low dl)) in H7.
  apply (grows_update_matched _ _ _ (dl_high dl ++ dl_low dl)) in H8;
    [| intros p Hp; apply elem_of_app; by left].
  apply (grows_still_tracked P) in H9.
  apply (grows_second_association (_frame_id self) (dl_high dl ++ dl_low dl)) in H10.
  apply (grows_update_matched _ _ _ (dl_high dl ++ dl_low dl)) in H11;
    [| intros p Hp; apply elem_of_app; by right].
  apply (grows_mark_lost (_frame_id self) (dl_high dl ++ dl_low dl)) in H12.
  exists s3, s4. split; [|split; [exact H4|]].
  - repeat (eapply after_trans; [eassumption|]). apply after_refl.
  - repeat (eapply after_trans; [eassumption|]). apply after_refl.
Qed.

(** One call of [track_body]: the store has not shrunk, and every update and
    re-activation it has logged is stamped with the tracker's frame and
    takes its detection from the two lists of tracklets. *)
Lemma track_body_after self dets frame s fr s' :
  track_body self dets frame s = Some (fr, s') ->
  after (stamped (_frame_id self)
                 (detections_high_conf (locals fr) ++ detections_low_conf (locals fr)))
        s s'.
Proof.
  intros H. apply track_body_phases in H as (s3 & s4 & H1 & H2 & H3).
  apply (grows_multi_predict (_frame_id self)
           (detections_high_conf (locals fr) ++ detections_low_conf (locals fr))) in H2.
  eapply after_trans; [|eapply after_trans; [exact H2|]].
  - eapply after_weaken; [|exact H1]. by intros c [? _].
  - eapply after_weaken; [|exact H3]. by intros c [? _].
Qed.

End TrackFacts.

(** ** The frame counter *)

Section FrameCounter.

Context {GlobalMotionCompensation : Type}.
Context {C : Collaborators GlobalMotionCompensation}.
Implicit Types (self t tn : @BoTSORT GlobalMotionCompensation).

Lemma BoTSORT_new_frame_id mw fp th nt tb mt pt at_ gm fr la t0 :
  BoTSORT_new mw fp th nt tb mt pt at_ gm fr la = Some t0 -> _frame_id t0 = 0.
Proof.
  unfold BoTSORT_new. destruct (to_uint8 _); [|discriminate].
  intros [= <-]. reflexivity.
Qed.

(** The counter is incremented before the body runs: the body sees, and
    stamps on its calls, the incremented value. *)
Lemma track_frame_id self dets frame s fr s' :
  track self dets frame s = Some (fr, s') ->
  _frame_id (tracker fr) = _frame_id self + 1 /\
  after (stamped (_frame_id self + 1)
                 (detections_high_conf (locals fr) ++ detections_low_conf (locals fr)))
        s s'.
Proof.
  unfold track. intros H. split.
  - apply track_body_inv in H. destruct H as (? & ? & ? & ? & ? & ? & ? & ? & ?
      & ? & ? & ? & ? & ? & ? & ? & ? & ? & ? & ? & H). 
    destruct H as (_ & _ & _ & _ & _ & _ & _ & _ & _ & _ & _ & _ & _ & H & _).
    rewrite H. reflexivity.
  - apply track_body_after in H. exact H.
Qed.

Lemma track_frames_frame_id inputs : forall self s tn s',
  track_frames self inputs s = Some (tn, s') ->
  _frame_id tn = _frame_id self + Z.of_nat (length inputs).
Proof.
  induction inputs as [|[dets frame] rest IH]; intros self s tn s' H.
  - apply ret_Some in H. injection H as <- _. simpl. lia.
  - cbn [track_frames] in H. run_step H.
    apply track_frame_id in Hrun as [Hid _].
    apply IH in H. rewrite H, Hid. cbn [length]. lia.
Qed.

(** C10: the frame counter is 0 in a tracker the constructor has built, and
    every call of track that returns has incremented it by one, whatever the
    detections and the frames: after the n calls of a sequence it is n. *)
Theorem frame_id_counts_calls mw fp th nt tb mt pt at_ gm fr la t0 inputs s tn s' :
  BoTSORT_new mw fp th nt tb mt pt at_ gm fr la = Some t0 ->
  track_frames t0 inputs s = Some (tn, s') ->
  _frame_id t0 = 0 /\ _frame_id tn = Z.of_nat (length inputs).
Proof.
  intros Hnew Hrun. pose proof (BoTSORT_new_frame_id _ _ _ _ _ _ _ _ _ _ _ _ Hnew) as H0.
  split; [exact H0|].
  apply track_frames_frame_id in Hrun. lia.
Qed.

End FrameCounter.

(** The counter of the default tracker after two frames. *)
Lemma frame_id_counts_calls_witness :
  exists t0 tn s',
    Examples.configured 30 30 = Some t0 /\
    track_frames (C := Reference.collaborators) t0 Examples.two_frames
                 Examples.empty_machine = Some (tn, s') /\
    _frame_id t0 = 0 /\ _frame_id tn = 2.
Proof.
  destruct (Examples.configured 30 30) as [t0|] eqn:E0;
    [| vm_compute in E0; discriminate E0].
  destruct (track_frames (C := Reference.collaborators) t0 Examples.two_frames
                         Examples.empty_machine) as [[tn s']|] eqn:E1.
  - exists t0, tn, s'. split; [reflexivity|]. split; [exact E1|].
    exact (frame_id_counts_calls _ _ _ _ _ _ _ _ _ _ _ _ _ _ _ _ E0 E1).
  - vm_compute in E0. injection E0 as <-. vm_compute in E1. discriminate E1.
Defined.

(** ** The second association and the returned vector *)

Section SecondAssociation.

Context {GlobalMotionCompensation : Type}.
Context {C : Collaborators GlobalMotionCompensation}.
Implicit Types (self : @BoTSORT GlobalMotionCompensation).

(** Reading the objects of a list of pointers changes nothing. *)
Lemma deref_all_Some ps s ts s' :
  deref_all ps s = Some (ts, s') ->
  s' = s /\ Forall2 (fun p t => heap s !! p = Some t) ps ts.
Proof.
  unfold deref_all.
  enough (Hgen : forall acc ts, for_each ps
            (fun p acc => t <~ deref p ;; ret (acc ++ [t])) acc s = Some (ts, s') ->
            s' = s /\ exists l, ts = acc ++ l /\
                     Forall2 (fun p t => heap s !! p = Some t) ps l).
  { intros H. apply Hgen in H as (-> & l & -> & Hl). split; [reflexivity | exact Hl]. }
  induction ps as [|p ps IH]; intros acc r H; cbn [for_each] in H.
  - run_inv. split; [reflexivity|].
    exists []. rewrite app_nil_r. split; [reflexivity | constructor].
  - run_step H. run_inv.
    apply IH in H as (-> & l & -> & Hl). split; [reflexivity|].
    match goal with Ht : heap s !! p = Some ?t |- _ => exists (t :: l) end.
    rewrite <- app_assoc. split; [reflexivity|].
    constructor; assumption.
Qed.

(** The solver of the second association always runs on the
    default-constructed matrix, with the threshold 0.5. *)
Lemma second_association_Some unm low s sec s' :
  second_association unm low s = Some (sec, s') ->
  sec = (CostMatrix_default, linear_assignment CostMatrix_default lit_0_5) /\
  heap s' = heap s /\
  calls s' = calls s ++ [Call_iou_distance unm low;
                         Call_linear_assignment CostMatrix_default lit_0_5].
Proof.
  unfold second_association. intros H.
  run_step H. apply deref_all_Some in Hrun as [-> _].
  run_step H. apply deref_all_Some in Hrun as [-> _].
  cbv zeta in H. run_inv. simpl.
  rewrite <- app_assoc. auto.
Qed.

Lemma track_second_association self dets frame s fr s' :
  track self dets frame s = Some (fr, s') ->
  iou_dists_second (locals fr) = CostMatrix_default /\
  second_associations (locals fr) = linear_assignment CostMatrix_default lit_0_5.
Proof.
  unfold track. intros H. apply track_body_inv in H
    as (dl & s1 & seg & s2 & pool & s3 & s4 & s5 & s6 & fa & s7 & u1 & s8 & unm
        & s9 & sec & s10 & u2 & s11 & lost & _ & _ & _ & _ & _ & _ & _
        & _ & _ & H10 & _ & _ & _ & _ & _ & _ & _ & ->).
  apply second_association_Some in H10 as (-> & _ & _). simpl. auto.
Qed.

(** When the solver reports no unmatched track on the matrix without rows,
    no call of [track] marks a track as lost. *)
Lemma track_marks_nothing_lost self dets frame s fr s' :
  unmatched_track_indices (linear_assignment CostMatrix_default lit_0_5) = [] ->
  track self dets frame s = Some (fr, s') ->
  lost_tracks (locals fr) = [].
Proof.
  unfold track. intros Hsolver H. apply track_body_inv in H
    as (dl & s1 & seg & s2 & pool & s3 & s4 & s5 & s6 & fa & s7 & u1 & s8 & unm
        & s9 & sec & s10 & u2 & s11 & lost & _ & _ & _ & _ & _ & _ & _
        & _ & _ & H10 & _ & H12 & _ & _ & _ & _ & _ & ->).
  apply second_association_Some in H10 as (-> & _ & _). simpl in H12.
  rewrite Hsolver in H12. cbn [for_each] in H12. run_inv. reflexivity.
Qed.

(** One turn of the loop that marks tracks as lost: a track that is not
    Lost is marked and collected, a track that is Lost is left alone. *)
Lemma mark_lost_body_Some tracks idx lost s lost1 s1 :
  mark_lost_body tracks idx lost s = Some (lost1, s1) ->
  exists track t,
    tracks !! Z.to_nat idx = Some track /\
    heap s !! track = Some t /\
    if decide (state t ≠ Lost) then
      calls s1 = calls s ++ [Call_mark_lost track] /\
      heap s1 = <[track := Track_mark_lost t]> (heap s) /\
      lost1 = lost ++ [track]
    else s1 = s /\ lost1 = lost.
Proof.
  unfold mark_lost_body. intros H.
  run_step H. apply vec_at_Some in Hrun as (track & _ & Htrack & [= -> ->]).
  run_step H. apply deref_Some in Hrun as (t & Ht & [= -> ->]).
  exists track, t. split; [exact Htrack|]. split; [exact Ht|].
  destruct (decide (state t ≠ Lost)); run_inv; simpl; auto.
Qed.

(** When the solver reports an unmatched track on the matrix without rows,
    a tracker with empty pools cannot get through a frame: the loop that
    marks tracks as lost indexes an empty vector. *)
Lemma track_undefined_on_empty_pools self dets frame s z rest :
  unmatched_track_indices (linear_assignment CostMatrix_default lit_0_5) = z :: rest ->
  _tracked_tracks self = [] -> _lost_tracks self = [] ->
  track self dets frame s = None.
Proof.
  intros Hsolver Htr Hlo.
  destruct (track self dets frame s) as [[fr s']|] eqn:H; [|reflexivity].
  exfalso. unfold track in H. apply track_body_inv in H
    as (dl & s1 & seg & s2 & pool & s3 & s4 & s5 & s6 & fa & s7 & u1 & s8 & unm
        & s9 & sec & s10 & u2 & s11 & lost & _ & H2 & H3 & _ & _ & _ & _
        & _ & H9 & H10 & _ & H12 & _).
  unfold segregate in H2.
  change (_tracked_tracks (next_frame self)) with (_tracked_tracks self) in H2.
  change (_lost_tracks (next_frame self)) with (_lost_tracks self) in H3.
  rewrite Htr in H2. cbn [for_each] in H2. run_inv.
  rewrite Hlo in H3. unfold _merge_track_lists in H3. cbn [for_each snd] in H3.
  repeat (cbn [for_each snd] in *; run_inv).
  assert (unm = []) as ->.
  { destruct (unmatched_track_indices fa) as [|i is_]; cbn [for_each] in H9.
    - by run_inv.
    - run_step H9. unfold still_tracked_body in Hrun. run_step Hrun.
      match goal with
      | Hv : vec_at [] _ _ = Some _ |- _ =>
          apply vec_at_Some in Hv as (? & _ & Hnil & _); discriminate Hnil
      end. }
  apply second_association_Some in H10 as (-> & _ & _). simpl in H12.
  rewrite Hsolver in H12. cbn [for_each] in H12. run_step H12.
  apply mark_lost_body_Some in Hrun as (? & ? & Hnil & _). discriminate Hnil.
Qed.


End SecondAssociation.

(** C1: on the second frame of a tracker with one confirmed track, a
    detection of confidence 0.3 on the track's box goes to the second
    association.  The IoU distance matrix of the unmatched track and the
    low-confidence detection is the 1 x 1 matrix [0]; the matrix the solver
    is run on, with the threshold 0.5, is the default-constructed one, which
    has no row.  The solver finds no match where the IoU distance matrix has
    the match (0, 0).  On the first frame of a tracker, with the same
    detection, the IoU distance matrix has no row and one column, and the
    solver is run on the matrix without rows and columns. *)
Theorem second_association_solves_default_matrix :
  match Examples.run Examples.second_frame_tracker
          [Examples.det Examples.box (Reference.f32_ratio 3 10)]
          Examples.one_track with
  | Some (fr, s') =>
      unmatched_tracks_after_1st_association (locals fr) = [0%nat] /\
      detections_low_conf (locals fr) = [1%nat] /\
      iou_dists_second (locals fr) = CostMatrix_default /\
      last (calls s') = Some (Call_linear_assignment CostMatrix_default lit_0_5) /\
      Reference.iou_dist (Examples.objects (heap s') [0%nat])
                         (Examples.objects (heap s') [1%nat])
        = {| m_rows := 1; m_cols := 1; coeffs := [zero_f] |} /\
      matches (second_associations (locals fr)) = [] /\
      matches (Reference.assignment
                 (Reference.iou_dist (Examples.objects (heap s') [0%nat])
                                     (Examples.objects (heap s') [1%nat]))
                 lit_0_5) = [(0, 0)]
  | None => False
  end /\
  match Examples.run (Examples.first_frame_tracker (Reference.f32_ratio 6 10))
          [Examples.det Examples.box (Reference.f32_ratio 3 10)]
          Examples.empty_machine with
  | Some (fr, s') =>
      unmatched_tracks_after_1st_association (locals fr) = [] /\
      detections_low_conf (locals fr) = [0%nat] /\
      iou_dists_second (locals fr) = CostMatrix_default /\
      Reference.iou_dist [] (Examples.objects (heap s') [0%nat])
        = {| m_rows := 0; m_cols := 1; coeffs := [] |}
  | None => False
  end.
Proof. vm_compute. repeat split; reflexivity. Qed.

(** ** Comparisons *)

Section Comparisons.

Lemma SFcompare_antisym a b :
  SFcompare b a = CompOpp <$> SFcompare a b.
Proof.
  destruct a as [sa|sa| |sa ma ea], b as [sb|sb| |sb mb eb]; simpl;
    try reflexivity;
    try (destruct sa; reflexivity); try (destruct sb; reflexivity);
    try (destruct sa, sb; reflexivity).
  destruct sa, sb; simpl; try reflexivity; f_equal.
  - rewrite (Z.compare_antisym ea eb).
    destruct (ea ?= eb); simpl; try reflexivity.
    rewrite (Pos.compare_cont_antisym ma mb Eq). reflexivity.
  - rewrite (Z.compare_antisym ea eb).
    destruct (ea ?= eb); simpl; try reflexivity.
    rewrite (Pos.compare_cont_antisym ma mb Eq). reflexivity.
Qed.

(** [a < b] excludes [b <= a]. *)
Lemma lt_not_ge a b : lt a b = true -> ge a b = false.
Proof.
  unfold lt, ge, SFltb, SFleb. rewrite (SFcompare_antisym a b).
  destruct (SFcompare a b) as [[]|]; simpl; congruence.
Qed.

(** [a <= b] excludes [b < a]. *)
Lemma le_not_gt a b : le a b = true -> gt a b = false.
Proof.
  unfold le, gt, SFltb, SFleb. rewrite (SFcompare_antisym a b).
  destruct (SFcompare a b) as [[]|]; simpl; congruence.
Qed.

(** No ordered comparison holds of a NaN. *)
Lemma nan_unordered a b :
  is_nan a = true ->
  ge a b = false /\ gt a b = false /\ lt a b = false /\ le a b = false.
Proof.
  destruct a; try discriminate. intros _.
  unfold ge, gt, lt, le, SFleb, SFltb. destruct b; simpl; auto.
Qed.

Lemma is_low_spec thresh d :
  is_low thresh d = true <->
  gt (f64_of_f32 (confidence d)) lit_0_1 = true /\ lt (confidence d) thresh = true.
Proof.
  unfold is_low. rewrite andb_true_iff, andb_true_iff, negb_true_iff.
  split; [tauto|]. intros [Hgt Hlt]. split; [|auto].
  by apply lt_not_ge.
Qed.

End Comparisons.

(** ** The detection loop *)

Section DetectionLoopFacts.

Context {GlobalMotionCompensation : Type}.
Context {C : Collaborators GlobalMotionCompensation}.
Implicit Types (self : @BoTSORT GlobalMotionCompensation).

Lemma new_Track_Some t s p s' :
  new_Track t s = Some (p, s') ->
  p = length (heap s) /\ heap s' = heap s ++ [t] /\ calls s' = calls s.
Proof. intros [= <- <-]. auto. Qed.

Lemma _extract_features_Some self frame b s e s' :
  _extract_features self frame b s = Some (e, s') -> heap s' = heap s.
Proof.
  unfold _extract_features.
  destruct (Mat_roi frame b), (_reid_model self); try discriminate.
  intros H. run_inv. reflexivity.
Qed.

(** One turn of the loop on the detection [d] at index [i]: [d] is clamped in
    place, its tracklet is the next cell of the store, and the two tests on
    its confidence decide where the tracklet goes. *)
Lemma detection_body_Some self frame i st s st' s' d :
  dl_detections st !! i = Some d ->
  detection_body self frame i st s = Some (st', s') ->
  dl_detections st' = <[i := clamp frame d]> (dl_detections st) /\
  dl_high st' = dl_high st ++
                (if is_high (_track_high_thresh self) d then [length (heap s)] else []) /\
  dl_low st' = dl_low st ++
               (if is_low (_track_high_thresh self) d then [length (heap s)] else []) /\
  exists t, heap s' = heap s ++ [t].
Proof.
  intros Hd H. unfold detection_body in H. rewrite Hd in H.
  cbv zeta in H. run_step H.
  assert (a = length (heap s) /\ exists t, heap s0 = heap s ++ [t]) as [-> Hheap].
  { destruct (_reid_enabled self).
    - run_step Hrun. apply _extract_features_Some in Hrun0.
      apply new_Track_Some in Hrun as (-> & E & _).
      rewrite E, Hrun0. eauto.
    - apply new_Track_Some in Hrun as (-> & E & _).
      rewrite E. eauto. }
  unfold is_high, is_low. change (confidence (clamp frame d)) with (confidence d) in H.
  destruct (ge (confidence d) (_track_high_thresh self)); simpl.
  - run_inv. simpl. rewrite app_nil_r. auto.
  - destruct (gt (f64_of_f32 (confidence d)) lit_0_1
              && lt (confidence d) (_track_high_thresh self));
      run_inv; simpl; rewrite ?app_nil_r; auto.
Qed.

(** The loop, from the moment the detections [done] have been processed. *)
Lemma detection_loop_Some self frame todo : forall done st s dl s',
  dl_detections st = map (clamp frame) done ++ todo ->
  for_each (seq (length done) (length todo)) (detection_body self frame) st s
    = Some (dl, s') ->
  dl_detections dl = map (clamp frame) (done ++ todo) /\
  dl_high dl = dl_high st ++
               tracklets_where (is_high (_track_high_thresh self)) (length (heap s)) todo /\
  dl_low dl = dl_low st ++
              tracklets_where (is_low (_track_high_thresh self)) (length (heap s)) todo /\
  exists tl, heap s' = heap s ++ tl /\ length tl = length todo.
Proof.
  induction todo as [|d todo IH]; intros done st s dl s' Hst H.
  - cbn [length seq for_each] in H. run_inv.
    cbn [tracklets_where length]. rewrite Hst, !app_nil_r.
    repeat split; try reflexivity. exists []. by rewrite app_nil_r.
  - cbn [length seq for_each] in H. run_step H.
    assert (Hd : dl_detections st !! length done = Some d).
    { rewrite Hst. rewrite <- (length_map (clamp frame) done).
      apply list_lookup_middle. reflexivity. }
    apply (detection_body_Some _ _ _ _ _ _ _ _ Hd) in Hrun as (E1 & E2 & E3 & t & E4).
    specialize (IH (done ++ [d]) a s0 dl s').
    rewrite length_app in IH. simpl in IH.
    replace (length done + 1)%nat with (S (length done)) in IH by lia.
    destruct IH as (F1 & F2 & F3 & tl & F4 & F5).
    + rewrite E1, Hst, map_app. simpl. rewrite <- app_assoc. simpl.
      rewrite <- (length_map (clamp frame) done).
      rewrite <- (Nat.add_0_r (length (map (clamp frame) done))) at 1.
      rewrite insert_app_r. reflexivity.
    + exact H.
    + rewrite <- app_assoc in F1. simpl in F1.
      rewrite F1, F2, F3, F4, E2, E3, E4, length_app, <- !app_assoc.
      cbn [tracklets_where length].
      replace (length (heap s) + 1)%nat with (S (length (heap s))) by lia.
      assert (Htl : exists tl0, heap s ++ [t] ++ tl = heap s ++ tl0
                                /\ length tl0 = S (length todo)).
      { exists (t :: tl). simpl. by rewrite F5. }
      destruct (is_high (_track_high_thresh self) d),
               (is_low (_track_high_thresh self) d);
        repeat split; try reflexivity; exact Htl.
Qed.

(** The detection loop as a whole. *)
Lemma create_tracklets_Some self dets frame s dl s' :
  create_tracklets self dets frame s = Some (dl, s') ->
  dl_detections dl = map (clamp frame) dets /\
  dl_high dl = tracklets_where (is_high (_track_high_thresh self)) (length (heap s)) dets /\
  dl_low dl = tracklets_where (is_low (_track_high_thresh self)) (length (heap s)) dets /\
  exists tl, heap s' = heap s ++ tl /\ length tl = length dets.
Proof.
  unfold create_tracklets. destruct dets as [|d dets].
  - simpl. intros H. run_inv. simpl. repeat split; try reflexivity.
    exists []. by rewrite app_nil_r.
  - change (0 <? length (d :: dets))%nat with true. cbv iota.
    intros H. apply (detection_loop_Some self frame (d :: dets) []) in H;
      [exact H | reflexivity].
Qed.

(** Where the tracklet of the detection at index [i] is. *)
Lemma elem_of_tracklets_where P dets : forall base i d,
  dets !! i = Some d ->
  (base + i)%nat ∈ tracklets_where P base dets <-> P d = true.
Proof.
  assert (Hlow : forall dets base p, p ∈ tracklets_where P base dets -> (base <= p)%nat).
  { clear. induction dets as [|d dets IH]; intros base p Hp; simpl in Hp.
    - by apply elem_of_nil in Hp.
    - destruct (P d).
      + apply elem_of_cons in Hp as [->|Hp]; [lia|]. apply IH in Hp. lia.
      + apply IH in Hp. lia. }
  induction dets as [|d0 dets IH]; intros base i d Hi; [discriminate|].
  destruct i as [|i]; simpl in Hi.
  - injection Hi as ->. rewrite Nat.add_0_r. simpl. destruct (P d) eqn:E.
    + split; [reflexivity|]. intros _. apply elem_of_cons. by left.
    + split; [|discriminate]. intros Hp%Hlow. lia.
  - replace (base + S i)%nat with (S base + i)%nat by lia.
    simpl. rewrite <- (IH (S base) i d Hi). destruct (P d0); [|reflexivity].
    rewrite elem_of_cons. split; [intros [?|?]; [lia | done] | by right].
Qed.

End DetectionLoopFacts.

(** ** The caller's detections and the two lists of tracklets *)

Section Detections.

Context {GlobalMotionCompensation : Type}.
Context {C : Collaborators GlobalMotionCompensation}.
Implicit Types (self : @BoTSORT GlobalMotionCompensation).

Lemma track_create_tracklets self dets frame s fr s' :
  track self dets frame s = Some (fr, s') ->
  detections_after fr = map (clamp frame) dets /\
  detections_high_conf (locals fr)
    = tracklets_where (is_high (_track_high_thresh self)) (length (heap s)) dets /\
  detections_low_conf (locals fr)
    = tracklets_where (is_low (_track_high_thresh self)) (length (heap s)) dets.
Proof.
  unfold track. intros H. apply track_body_inv in H
    as (dl & s1 & seg & s2 & pool & s3 & s4 & s5 & s6 & fa & s7 & u1 & s8 & unm
        & s9 & sec & s10 & u2 & s11 & lost & H1 & _ & _ & _ & _ & _ & _
        & _ & _ & _ & _ & _ & _ & _ & _ & _ & -> & ->).
  apply create_tracklets_Some in H1 as (E1 & E2 & E3 & _). simpl.
  rewrite E1, E2, E3. auto.
Qed.

(** C5: a call of track that returns has rewritten every detection of the
    caller's vector in place: x and y are the std::max of 0.0f and the old
    value, width and height are the std::min of cols - 1, respectively
    rows - 1, converted to float, and the old value; confidence, class_id
    and embedding are the old ones.  The vector keeps its length. *)
Theorem track_clamps_detections_in_place self dets frame s fr s' :
  track self dets frame s = Some (fr, s') ->
  length (detections_after fr) = length dets /\
  forall i d, dets !! i = Some d ->
    exists d', detections_after fr !! i = Some d' /\
      x (bbox_tlwh d') = std_max zero_f (x (bbox_tlwh d)) /\
      y (bbox_tlwh d') = std_max zero_f (y (bbox_tlwh d)) /\
      width (bbox_tlwh d')
        = std_min (f32_of_int (cols frame - 1)) (width (bbox_tlwh d)) /\
      height (bbox_tlwh d')
        = std_min (f32_of_int (rows frame - 1)) (height (bbox_tlwh d)) /\
      confidence d' = confidence d /\
      class_id d' = class_id d /\
      embedding d' = embedding d.
Proof.
  intros H. apply track_create_tracklets in H as (E & _ & _). rewrite E.
  split; [apply length_map|].
  intros i d Hd. exists (clamp frame d). split.
  - rewrite list_lookup_fmap, Hd. reflexivity.
  - unfold clamp. simpl. repeat split; reflexivity.
Qed.

(** C6: for a call of track that returns, the tracklet of the detection at
    index i is in the high-confidence list exactly when its confidence is at
    least track_high_thresh, and in the low-confidence list exactly when its
    confidence is above the literal 0.1 and below track_high_thresh; a
    detection whose confidence is at most 0.1 and below track_high_thresh is
    in neither list. *)
Theorem detections_split_by_confidence self dets frame s fr s' i d :
  track self dets frame s = Some (fr, s') ->
  dets !! i = Some d ->
  let tracklet := (length (heap s) + i)%nat in
  let c := confidence d in
  (tracklet ∈ detections_high_conf (locals fr) <->
     ge c (_track_high_thresh self) = true) /\
  (tracklet ∈ detections_low_conf (locals fr) <->
     gt (f64_of_f32 c) lit_0_1 = true /\ lt c (_track_high_thresh self) = true) /\
  (le (f64_of_f32 c) lit_0_1 = true -> lt c (_track_high_thresh self) = true ->
     (tracklet ∉ detections_high_conf (locals fr)) /\
     (tracklet ∉ detections_low_conf (locals fr))).
Proof.
  intros H Hd tracklet c. apply track_create_tracklets in H as (_ & E2 & E3).
  rewrite E2, E3. unfold tracklet.
  rewrite (elem_of_tracklets_where _ _ _ _ _ Hd).
  rewrite (elem_of_tracklets_where _ _ _ _ _ Hd).
  rewrite is_low_spec. unfold is_high. fold c.
  split; [reflexivity|]. split; [reflexivity|].
  intros Hle Hlt. apply lt_not_ge in Hlt. apply le_not_gt in Hle.
  rewrite Hlt, Hle. split; [discriminate | intros [? _]; discriminate].
Qed.

(** C4: for a call of track that returns, a detection whose confidence is a
    NaN has its tracklet in neither list, and no update or re-activation of
    the call takes it as its detection.  The width and the height of a
    detection are not examined: two detections of the same confidence are
    in the same list, or both in none, whatever their boxes. *)
Theorem nan_confidence_is_dropped_box_is_not_examined
    self dets frame s fr s' i d :
  track self dets frame s = Some (fr, s') ->
  dets !! i = Some d ->
  let tracklet k := (length (heap s) + k)%nat in
  (is_nan (confidence d) = true ->
     (tracklet i ∉ detections_high_conf (locals fr)) /\
     (tracklet i ∉ detections_low_conf (locals fr)) /\
     exists added, calls s' = calls s ++ added /\
       forall t f b, (Call_update t (tracklet i) f ∉ added) /\
                     (Call_re_activate t (tracklet i) f b ∉ added)) /\
  (forall j d2, dets !! j = Some d2 -> confidence d2 = confidence d ->
     (tracklet j ∈ detections_high_conf (locals fr) <->
      tracklet i ∈ detections_high_conf (locals fr)) /\
     (tracklet j ∈ detections_low_conf (locals fr) <->
      tracklet i ∈ detections_low_conf (locals fr))).
Proof.
  intros H Hd tracklet.
  destruct (track_frame_id _ _ _ _ _ _ H) as [_ [(added & Eadd & Fadd) _]].
  apply track_create_tracklets in H as (_ & E2 & E3).
  rewrite E2, E3 in *. unfold tracklet. split.
  - intros Hnan.
    assert (Hh : (length (heap s) + i)%nat
                 ∉ tracklets_where (is_high (_track_high_thresh self)) (length (heap s)) dets).
    { rewrite (elem_of_tracklets_where _ _ _ _ _ Hd). unfold is_high.
      destruct (nan_unordered _ (_track_high_thresh self) Hnan) as (-> & _).
      discriminate. }
    assert (Hl : (length (heap s) + i)%nat
                 ∉ tracklets_where (is_low (_track_high_thresh self)) (length (heap s)) dets).
    { rewrite (elem_of_tracklets_where _ _ _ _ _ Hd). unfold is_low.
      destruct (nan_unordered _ (_track_high_thresh self) Hnan) as (_ & _ & -> & _).
      rewrite andb_false_r. simpl. rewrite andb_false_r. discriminate. }
    split; [exact Hh|]. split; [exact Hl|].
    exists added. split; [exact Eadd|].
    rewrite Forall_forall in Fadd.
    intros t f b. split; intros Hin; apply Fadd in Hin; simpl in Hin.
    + destruct Hin as [_ Hin]. apply elem_of_app in Hin as [?|?]; tauto.
    + destruct Hin as (_ & Hin & _). apply elem_of_app in Hin as [?|?]; tauto.
  - intros j d2 Hd2 Hc.
    rewrite !(elem_of_tracklets_where _ _ _ _ _ Hd2).
    rewrite !(elem_of_tracklets_where _ _ _ _ _ Hd).
    unfold is_low, is_high. rewrite Hc. split; reflexivity.
Qed.

End Detections.

(** The clamping of a box that leaves the frame on both sides. *)
Lemma track_clamps_detections_in_place_witness :
  exists fr s',
    Examples.run (Examples.first_frame_tracker (Reference.f32_ratio 6 10))
                 [Examples.det Examples.wide_box (Reference.f32_ratio 9 10)]
                 Examples.empty_machine = Some (fr, s') /\
    (x <$> (bbox_tlwh <$> detections_after fr !! 0%nat)) = Some zero_f /\
    (width <$> (bbox_tlwh <$> detections_after fr !! 0%nat)) = Some (f32_of_int 639).
Proof.
  destruct (Examples.run (Examples.first_frame_tracker (Reference.f32_ratio 6 10))
              [Examples.det Examples.wide_box (Reference.f32_ratio 9 10)]
              Examples.empty_machine) as [[fr s']|] eqn:E;
    [| vm_compute in E; discriminate E].
  exists fr, s'. split; [reflexivity|].
  destruct (track_clamps_detections_in_place _ _ _ _ _ _ E) as [_ H].
  destruct (H 0%nat _ eq_refl) as (d' & -> & Hx & _ & Hw & _).
  simpl. rewrite Hx, Hw. split; reflexivity.
Defined.

(** The split of a detection of confidence 0.9 under the default threshold
    0.6. *)
Lemma detections_split_by_confidence_witness :
  exists fr s',
    Examples.run (Examples.first_frame_tracker (Reference.f32_ratio 6 10))
                 [Examples.det Examples.box (Reference.f32_ratio 9 10)]
                 Examples.empty_machine = Some (fr, s') /\
    0%nat ∈ detections_high_conf (locals fr).
Proof.
  destruct (Examples.run (Examples.first_frame_tracker (Reference.f32_ratio 6 10))
              [Examples.det Examples.box (Reference.f32_ratio 9 10)]
              Examples.empty_machine) as [[fr s']|] eqn:E;
    [| vm_compute in E; discriminate E].
  exists fr, s'. split; [reflexivity|].
  apply (detections_split_by_confidence _ _ _ _ _ _ 0%nat _ E eq_refl).
  reflexivity.
Defined.

(** C6, as stated, fails when track_high_thresh is at most 0.1: under the
    threshold 0.05 a detection of confidence 0.08 is at most 0.1 and goes to
    the high-confidence list. *)
Lemma low_threshold_keeps_confidence_under_0_1 :
  match Examples.run (Examples.first_frame_tracker (Reference.f32_ratio 5 100))
          [Examples.det Examples.box (Reference.f32_ratio 8 100)]
          Examples.empty_machine with
  | Some (fr, s') =>
      le (f64_of_f32 (Reference.f32_ratio 8 100)) lit_0_1 = true /\
      detections_high_conf (locals fr) = [0%nat]
  | None => False
  end.
Proof. vm_compute. split; reflexivity. Qed.

(** The split of a detection whose confidence is a NaN. *)
Lemma nan_confidence_is_dropped_box_is_not_examined_witness :
  exists fr s',
    Examples.run (Examples.first_frame_tracker (Reference.f32_ratio 6 10))
                 [Examples.det Examples.box S754_nan]
                 Examples.empty_machine = Some (fr, s') /\
    (0%nat ∉ detections_high_conf (locals fr)) /\
    (0%nat ∉ detections_low_conf (locals fr)).
Proof.
  destruct (Examples.run (Examples.first_frame_tracker (Reference.f32_ratio 6 10))
              [Examples.det Examples.box S754_nan]
              Examples.empty_machine) as [[fr s']|] eqn:E;
    [| vm_compute in E; discriminate E].
  exists fr, s'. split; [reflexivity|].
  destruct (nan_confidence_is_dropped_box_is_not_examined _ _ _ _ _ _ 0%nat _ E eq_refl)
    as [Hnan _].
  destruct (Hnan eq_refl) as (Hh & Hl & _). split; assumption.
Defined.

(** C4, as stated, fails on a negative width: a detection of width -5 and
    confidence 0.9 is not rejected, its tracklet goes to the high-confidence
    list and to the cost matrix of the first association. *)
Lemma negative_width_is_not_rejected :
  match Examples.run (Examples.first_frame_tracker (Reference.f32_ratio 6 10))
          [Examples.det Examples.negative_box (Reference.f32_ratio 9 10)]
          Examples.empty_machine with
  | Some (fr, s') =>
      lt (width Examples.negative_box) zero_f = true /\
      (width <$> (bbox_tlwh <$> detections_after fr !! 0%nat))
        = Some (width Examples.negative_box) /\
      detections_high_conf (locals fr) = [0%nat] /\
      Call_iou_distance [] [0%nat] ∈ calls s'
  | None => False
  end.
Proof.
  vm_compute. repeat split; try reflexivity.
  do 3 apply list_elem_of_further. apply list_elem_of_here.
Qed.

(** ** The prediction pool *)

Section PredictionPool.

Context {GlobalMotionCompensation : Type}.
Context {C : Collaborators GlobalMotionCompensation}.
Implicit Types (self : @BoTSORT GlobalMotionCompensation).

(** The segregation reads the store, and splits the tracked pool on
    [is_activated], keeping the order. *)
Lemma segregate_Some self s seg s' :
  segregate self s = Some (seg, s') ->
  s' = s /\
  fst seg = filter (fun p => activated_at (heap s) p = Some false) (_tracked_tracks self) /\
  snd seg = filter (fun p => activated_at (heap s) p = Some true) (_tracked_tracks self).
Proof.
  unfold segregate. generalize (_tracked_tracks self). intros l.
  enough (Hgen : forall u0 t0 seg,
    for_each l
      (fun track '(unconfirmed_tracks, tracked_tracks) =>
         t <~ deref track ;;
         if negb (is_activated t)
         then ret (unconfirmed_tracks ++ [track], tracked_tracks)
         else ret (unconfirmed_tracks, tracked_tracks ++ [track]))
      (u0, t0) s = Some (seg, s') ->
    s' = s /\
    fst seg = u0 ++ filter (fun p => activated_at (heap s) p = Some false) l /\
    snd seg = t0 ++ filter (fun p => activated_at (heap s) p = Some true) l).
  { intros H. apply Hgen in H. exact H. }
  induction l as [|p l IH]; intros u0 t0 r H; cbn [for_each] in H.
  - run_inv. simpl. rewrite !app_nil_r. auto.
  - run_step H. run_step Hrun.
    apply deref_Some in Hrun0 as (t & Ht & [= -> ->]).
    assert (Hact : activated_at (heap s) p = Some (is_activated t))
      by (unfold activated_at; rewrite Ht; reflexivity).
    rewrite !filter_cons.
    destruct (is_activated t); simpl in Hrun; run_inv;
      apply IH in H as (-> & -> & ->); rewrite <- ?app_assoc; simpl;
      repeat match goal with
        | |- context [decide ?P] => destruct (decide P)
        end; try congruence; auto.
Qed.

(** The first loop of the merge: every track of the list is taken, and its
    identity recorded. *)
Lemma merge_first_loop a : forall exists_ merged s r s',
  for_each a
    (fun track '(exists_, merged_tracks_list) =>
       t <~ deref track ;;
       ret (<[track_id t := true]> exists_, merged_tracks_list ++ [track]))
    (exists_, merged) s = Some (r, s') ->
  s' = s /\ snd r = merged ++ a /\
  forall z, is_Some (fst r !! z) <->
            is_Some ((exists_ : gmap Z bool) !! z) \/ Some z ∈ id_at (heap s) <$> a.
Proof.
  induction a as [|p a IH]; intros E m s r s' H; cbn [for_each] in H.
  - run_inv. simpl. rewrite app_nil_r. repeat split; auto.
    intros [?|?%elem_of_nil]; tauto.
  - run_step H. run_step Hrun.
    apply deref_Some in Hrun0 as (t & Ht & [= -> ->]). run_inv.
    apply IH in H as (-> & -> & Hdom). rewrite <- app_assoc.
    split; [reflexivity|]. split; [reflexivity|].
    intros z. rewrite Hdom, lookup_insert_is_Some.
    rewrite fmap_cons, elem_of_cons. unfold id_at at 2. rewrite Ht. simpl.
    split; [intros [[->|[_ ?]]|?] | intros [?|[[= ->]|?]]]; auto.
    destruct (decide (track_id t = z)); auto.
Qed.

(** The second loop of the merge: a track is taken when its identity has not
    been recorded yet. *)
Lemma merge_second_loop b : forall exists_ merged s r s' seen,
  for_each b
    (fun track '(exists_, merged_tracks_list) =>
       t <~ deref track ;;
       match exists_ !! track_id t with
       | None =>
           ret (<[track_id t := true]> exists_, merged_tracks_list ++ [track])
       | Some _ => ret (exists_, merged_tracks_list)
       end)
    (exists_, merged) s = Some (r, s') ->
  (forall z, is_Some ((exists_ : gmap Z bool) !! z) <-> Some z ∈ seen) ->
  s' = s /\ snd r = merged ++ not_yet_seen (heap s) seen b.
Proof.
  induction b as [|p b IH]; intros E m s r s' seen H Hseen; cbn [for_each] in H.
  - run_inv. simpl. rewrite app_nil_r. auto.
  - run_step H. run_step Hrun.
    apply deref_Some in Hrun0 as (t & Ht & [= -> ->]).
    assert (Hid : id_at (heap s) p = Some (track_id t))
      by (unfold id_at; rewrite Ht; reflexivity).
    cbn [not_yet_seen].
    destruct (E !! track_id t) as [v|] eqn:Elook; run_inv.
    + destruct (decide (id_at (heap s) p ∈ seen)) as [_|Hn].
      * eapply IH; eassumption.
      * exfalso. apply Hn. rewrite Hid. apply Hseen. eauto.
    + destruct (decide (id_at (heap s) p ∈ seen)) as [Hin|_].
      * rewrite Hid in Hin. apply Hseen in Hin as [? Hin]. congruence.
      * rewrite Hid.
        apply (IH _ _ _ _ _ (Some (track_id t) :: seen)) in H as (-> & ->).
        { rewrite <- app_assoc. auto. }
        intros z. rewrite lookup_insert_is_Some, elem_of_cons, <- Hseen.
        split; [intros [->|[_ ?]] | intros [[= ->]|?]]; auto.
        destruct (decide (track_id t = z)); auto.
Qed.

(** The merge reads the store; its result is the first list followed by the
    tracks of the second list whose identity is new. *)
Lemma _merge_track_lists_Some a b s pool s' :
  _merge_track_lists a b s = Some (pool, s') ->
  s' = s /\ pool = a ++ not_yet_seen (heap s) (id_at (heap s) <$> a) b.
Proof.
  unfold _merge_track_lists. intros H. run_step H. run_step H.
  destruct a0 as [E1 m1]. apply merge_first_loop in Hrun as (-> & Hm & Hdom).
  simpl in Hm, Hdom. subst m1.
  destruct a1 as [E2 m2].
  apply (merge_second_loop _ _ _ _ _ _ (id_at (heap s) <$> a)) in Hrun0 as (-> & Hm).
  - run_inv. simpl in Hm. auto.
  - intros z. rewrite Hdom, lookup_empty. split; [intros [[? [=]]|?] | ]; auto.
Qed.

Lemma filter_iff_on {A} (P Q : A -> Prop)
    `{!forall a, Decision (P a)} `{!forall a, Decision (Q a)} (l : list A) :
  (forall a, a ∈ l -> P a <-> Q a) -> filter P l = filter Q l.
Proof.
  induction l as [|a l IH]; intros Hall; [reflexivity|].
  rewrite !filter_cons.
  assert (Ha : P a <-> Q a) by (apply Hall; apply list_elem_of_here).
  assert (Hl : filter P l = filter Q l).
  { apply IH. intros b Hb. apply Hall. by apply list_elem_of_further. }
  destruct (decide (P a)), (decide (Q a)); try tauto; by rewrite Hl.
Qed.

(** When the identities of [ps] are pairwise distinct, the tracks that are
    not yet seen are the tracks whose identity is not in [seen]. *)
Lemma not_yet_seen_NoDup h ps : forall seen,
  NoDup (id_at h <$> ps) ->
  not_yet_seen h seen ps = filter (fun p => id_at h p ∉ seen) ps.
Proof.
  induction ps as [|p ps IH]; intros seen Hnd; [reflexivity|].
  rewrite fmap_cons in Hnd. apply NoDup_cons in Hnd as [Hp Hnd].
  cbn [not_yet_seen]. rewrite filter_cons.
  destruct (decide (id_at h p ∈ seen)) as [Hin|Hin].
  - rewrite decide_False by tauto. by apply IH.
  - rewrite decide_True by assumption. f_equal. rewrite (IH _ Hnd).
    apply filter_iff_on. intros q Hq.
    rewrite elem_of_cons. split; [tauto|]. intros Hn [E|?]; [|tauto].
    apply Hp. rewrite <- E. apply list_elem_of_fmap. eauto.
Qed.

(** [Track::multi_predict] logs its call, and nothing else. *)
Lemma multi_predict_calls ps kf s s' :
  multi_predict ps kf s = Some (tt, s') ->
  calls s' = calls s ++ [Call_multi_predict ps].
Proof.
  unfold multi_predict. intros H. run_step H. run_inv.
  enough (Hgen : forall l u s0 s1,
    for_each l (fun p _ => t <~ deref p ;; store p (Track_predict kf t)) u s0
      = Some (tt, s1) -> calls s1 = calls s0).
  { apply Hgen in H. exact H. }
  clear. induction l as [|p l IH]; intros u s0 s1 H; cbn [for_each] in H.
  - run_inv. reflexivity.
  - run_step H. run_inv. apply IH in H. exact H.
Qed.

(** The prediction pool of a call of [track], whatever the identities: the
    confirmed tracks of the tracked pool, in order, followed by the lost
    tracks whose [track_id] occurs neither among the confirmed tracks nor on
    an earlier lost track; the identities and the flags are read in the
    store once the tracklets of the frame have been added to it.
    [Track::multi_predict] is called once in the frame, on this pool. *)
Lemma prediction_pool_is_confirmed_then_new_lost self dets frame s fr s' :
  track self dets frame s = Some (fr, s') ->
  exists tracklets pre post,
    length tracklets = length dets /\
    let h := heap s ++ tracklets in
    let confirmed :=
      filter (fun p => activated_at h p = Some true) (_tracked_tracks self) in
    tracked_tracks (locals fr) = confirmed /\
    tracks_pool (locals fr)
      = confirmed ++ not_yet_seen h (id_at h <$> confirmed) (_lost_tracks self) /\
    calls s' = calls s ++ pre ++ [Call_multi_predict (tracks_pool (locals fr))] ++ post /\
    forall ps, Call_multi_predict ps ∉ pre ++ post.
Proof.
  unfold track. intros H.
  destruct (track_body_phases _ _ _ _ _ _ H)
    as (sa & sb & [(pre & Epre & Fpre) _] & Hpred & [(post & Epost & Fpost) _]).
  apply multi_predict_calls in Hpred.
  apply track_body_inv in H
    as (dl & s1 & seg & s2 & pool & s3 & s4 & s5 & s6 & fa & s7 & u1 & s8 & unm
        & s9 & sec & s10 & u2 & s11 & lost & H1 & H2 & H3 & _ & _ & _ & _
        & _ & _ & _ & _ & _ & _ & _ & _ & _ & _ & Hloc).
  rewrite Hloc in *. cbn [tracked_tracks tracks_pool locals] in *.
  apply create_tracklets_Some in H1 as (_ & _ & _ & tl & Eh & Hlen).
  apply segregate_Some in H2 as (-> & _ & Eseg).
  apply _merge_track_lists_Some in H3 as (-> & Epool).
  exists tl, pre, post. split; [exact Hlen|]. cbv zeta.
  rewrite <- Eh. change (_tracked_tracks (next_frame self)) with (_tracked_tracks self) in Eseg.
  change (_lost_tracks (next_frame self)) with (_lost_tracks self) in Epool.
  rewrite <- Eseg. split; [reflexivity|]. split; [exact Epool|]. split.
  - rewrite Epost, Hpred, Epre, <- !app_assoc. reflexivity.
  - intros ps Hin. apply elem_of_app in Hin as [Hin|Hin].
    + rewrite Forall_forall in Fpre. apply Fpre in Hin as [_ Hne]. by apply (Hne ps).
    + rewrite Forall_forall in Fpost. apply Fpost in Hin as [_ Hne]. by apply (Hne ps).
Qed.

End PredictionPool.

(** ** The update loops *)

Section UpdateLoops.

Context {GlobalMotionCompensation : Type}.
Context {C : Collaborators GlobalMotionCompensation}.
Implicit Types (self : @BoTSORT GlobalMotionCompensation).

(** One turn of an update loop. *)
Lemma update_body_Some self fid tracks dets m u s u1 s1 :
  update_body self fid tracks dets m u s = Some (u1, s1) ->
  exists track detection t d,
    tracks !! Z.to_nat (fst m) = Some track /\
    dets !! Z.to_nat (snd m) = Some detection /\
    heap s !! track = Some t /\
    heap s !! detection = Some d /\
    if decide (state t = Tracked) then
      calls s1 = calls s ++ [Call_update track detection fid] /\
      heap s1 = <[track := Track_update (_kalman_filter self) t d fid]> (heap s) /\
      activated_tracks u1 = activated_tracks u ++ [track] /\
      refind_tracks u1 = refind_tracks u
    else
      calls s1 = calls s ++ [Call_re_activate track detection fid false] /\
      heap s1 = <[track := Track_re_activate (_kalman_filter self) t d fid false]> (heap s) /\
      refind_tracks u1 = refind_tracks u ++ [track] /\
      activated_tracks u1 = activated_tracks u.
Proof.
  unfold update_body. intros H.
  run_step H. apply vec_at_Some in Hrun as (track & _ & Htrack & [= -> ->]).
  run_step H. apply vec_at_Some in Hrun as (detection & _ & Hdet & [= -> ->]).
  run_step H. apply deref_Some in Hrun as (t & Ht & [= -> ->]).
  exists track, detection, t.
  destruct (decide (state t = Tracked)) as [Hst|Hst];
    run_step H; apply deref_Some in Hrun as (d & Hd & [= -> ->]);
    exists d; run_inv; simpl; auto 10.
Qed.

(** An update loop only appends to its two lists. *)
Lemma update_matched_prefix self tracks dets ms : forall u s u' s',
  update_matched self tracks dets ms u s = Some (u', s') ->
  activated_tracks u `prefix_of` activated_tracks u' /\
  refind_tracks u `prefix_of` refind_tracks u'.
Proof.
  unfold update_matched.
  induction ms as [|m ms IH]; intros u s u' s' H; cbn [for_each] in H.
  - run_inv. split; reflexivity.
  - run_step H. apply IH in H as [H1 H2].
    apply update_body_Some in Hrun as (track & detection & t & d & _ & _ & _ & _ & Hb).
    destruct (decide (state t = Tracked)); destruct Hb as (_ & _ & E1 & E2);
      rewrite E1, E2 in *; split; auto; eapply prefix_app_l; eassumption.
Qed.

End UpdateLoops.

(** A lost track matched in the first association: the lost pool holds one
    Lost track, and the frame has one detection of confidence 0.9 on its
    box.  The track is matched, re-activated under its identity 7 and
    collected in the refind list. *)
Lemma lost_track_is_reactivated :
  match Examples.run
          (Examples.tracker_with (Reference.f32_ratio 6 10) 1 [] [1%nat])
          [Examples.det Examples.box (Reference.f32_ratio 9 10)]
          Examples.one_lost with
  | Some (fr, s') =>
      tracks_pool (locals fr) = [1%nat] /\
      matches (first_associations (locals fr)) = [(0, 0)] /\
      refind_tracks (updated (locals fr)) = [1%nat] /\
      activated_tracks (updated (locals fr)) = [] /\
      (state <$> heap s' !! 1%nat) = Some Tracked /\
      (track_id <$> heap s' !! 1%nat) = Some 7 /\
      Call_re_activate 1%nat 2%nat 2 false ∈ calls s'
  | None => False
  end.
Proof.
  vm_compute. repeat split; try reflexivity.
  do 5 apply list_elem_of_further. apply list_elem_of_here.
Qed.

(** ** The retention bound *)

Section RetentionBound.

Context {GlobalMotionCompensation : Type}.
Context {C : Collaborators GlobalMotionCompensation}.
Implicit Types (t : @BoTSORT GlobalMotionCompensation).

Lemma uint8_values_spec z : 0 <= z <= 255 -> In z uint8_values.
Proof.
  intros Hz. unfold uint8_values. rewrite <- (Z2Nat.id z) by lia.
  apply in_map, in_seq. lia.
Qed.

(** Every pair of [uint8_t] values has been run through the two
    double-precision operations of the constructor. *)
Lemma frame_rates_near_quotient :
  forallb frame_rate_near_quotient uint8_values = true.
Proof. vm_compute. reflexivity. Qed.

Lemma truncation_is_near_quotient_spec fr tb :
  0 <= fr <= 255 -> 0 <= tb <= 255 ->
  truncation_is_near_quotient (fr * tb) (buffer_size_double fr tb) = true.
Proof.
  intros Hfr Htb.
  pose proof (proj1 (forallb_forall _ _) frame_rates_near_quotient
                fr (uint8_values_spec fr Hfr)) as H.
  unfold frame_rate_near_quotient, buffers_near_quotient in H.
  exact (proj1 (forallb_forall _ _) H tb (uint8_values_spec tb Htb)).
Qed.

(** C3: in a tracker the constructor has built from the uint8_t values
    frame_rate and track_buffer, max_time_lost is the buffer size, which is
    the double frame_rate / 30.0 * track_buffer truncated toward zero; it is
    the integer quotient of frame_rate * track_buffer by 30, or one less,
    and it fits in eight bits. *)
Theorem max_time_lost_is_truncated_product
    mw fp th nt tb mt pt at_ gm fr la t0 :
  0 <= fr <= 255 -> 0 <= tb <= 255 ->
  BoTSORT_new mw fp th nt tb mt pt at_ gm fr la = Some t0 ->
  _max_time_lost t0 = _buffer_size t0 /\
  trunc (buffer_size_double fr tb) = Some (_max_time_lost t0) /\
  0 <= _max_time_lost t0 <= 255 /\
  fr * tb / 30 - 1 <= _max_time_lost t0 <= fr * tb / 30.
Proof.
  intros Hfr Htb. unfold BoTSORT_new.
  fold (buffer_size_double fr tb).
  pose proof (truncation_is_near_quotient_spec fr tb Hfr Htb) as Hnear.
  unfold truncation_is_near_quotient in Hnear. unfold to_uint8.
  destruct (trunc (buffer_size_double fr tb)) as [v|]; [|discriminate].
  destruct ((0 <=? v) && (v <=? 255)) eqn:Hfit; [|discriminate].
  intros [= <-]. simpl.
  apply andb_prop in Hfit as [H1%Z.leb_le H2%Z.leb_le].
  apply andb_prop in Hnear as [H3%Z.leb_le H4%Z.ltb_lt].
  generalize dependent (fr * tb). intros n H3 H4.
  assert (n / 30 < v + 2) by (apply Z.div_lt_upper_bound; lia).
  assert (v <= n / 30) by (apply Z.div_le_lower_bound; lia).
  repeat split; lia.
Qed.

End RetentionBound.

(** 25 frames per second and a buffer of 30 frames give 25. *)
Lemma max_time_lost_is_truncated_product_witness :
  exists t0, Examples.configured 30 25 = Some t0 /\ _max_time_lost t0 = 25.
Proof.
  destruct (Examples.configured 30 25) as [t0|] eqn:E;
    [| vm_compute in E; discriminate E].
  exists t0. split; [reflexivity|].
  assert (H25 : 0 <= 25 <= 255) by lia.
  assert (H30 : 0 <= 30 <= 255) by lia.
  destruct (max_time_lost_is_truncated_product
              (C := Reference.collaborators) None false _ _ _ _ _ _ "none"%string
              _ _ _ H25 H30 E)
    as (_ & Htrunc & _).
  assert (Hc : trunc (buffer_size_double 25 30) = Some 25)
    by (vm_compute; reflexivity).
  rewrite Hc in Htrunc. injection Htrunc as <-. reflexivity.
Defined.

(** C3, as stated, fails where the exact value has a fractional part of one
    half or more, and where the double-precision product falls under an
    integer: 25 frames per second and a buffer of 1 give 0, not
    round(0.83) = 1; 11 frames per second and a buffer of 150 give 54, not
    round(55) = 55. *)
Lemma max_time_lost_is_not_rounded :
  match Examples.configured 1 25, Examples.configured 150 11 with
  | Some t1, Some t2 =>
      _max_time_lost t1 = 0 /\ round_nearest (25 * 1) 30 = 1 /\
      _max_time_lost t2 = 54 /\ round_nearest (11 * 150) 30 = 55
  | _, _ => False
  end.
Proof. vm_compute. repeat split; reflexivity. Qed.

(** ** When a call of track returns *)

Section Runs.

Lemma runs_ret n {A} (a : A) (Q : A -> Prop) : Q a -> runs n (ret a) Q.
Proof.
  intros Ha s Hs. exists a, s. split; [reflexivity | split; assumption].
Qed.

Lemma runs_bind n {A B} (m : M A) (k : A -> M B) (Q : A -> Prop) (R : B -> Prop) :
  runs n m Q -> (forall a, Q a -> runs n (k a) R) -> runs n (bind m k) R.
Proof.
  intros Hm Hk s Hs. destruct (Hm s Hs) as (a & s1 & E1 & Hs1 & Ha).
  destruct (Hk a Ha s1 Hs1) as (b & s2 & E2 & Hs2 & Hb).
  exists b, s2. split; [|auto]. apply bind_Some. eauto.
Qed.

Lemma runs_weaken n {A} (m : M A) (Q R : A -> Prop) :
  (forall a, Q a -> R a) -> runs n m Q -> runs n m R.
Proof.
  intros HQR Hm s Hs. destruct (Hm s Hs) as (a & s1 & E1 & Hs1 & Ha). eauto 10.
Qed.

Lemma runs_deref n (p : ptr) : (p < n)%nat -> runs n (deref p) (fun _ => True).
Proof.
  intros Hp s Hs. unfold deref.
  destruct (heap s !! p) as [t|] eqn:Ht.
  - exists t, s. split; [reflexivity | split; [assumption | exact I]].
  - apply lookup_ge_None in Ht. lia.
Qed.

Lemma runs_store n (p : ptr) t : (p < n)%nat -> runs n (store p t) (fun _ => True).
Proof.
  intros Hp s Hs. unfold store.
  destruct (heap s !! p) as [t0|] eqn:Ht.
  - eexists tt, _. split; [reflexivity|]. simpl. rewrite length_insert.
    split; [assumption | exact I].
  - apply lookup_ge_None in Ht. lia.
Qed.

Lemma runs_call n c : runs n (call c) (fun _ => True).
Proof.
  intros s Hs. eexists tt, _. unfold call. split; [reflexivity|].
  split; [assumption | exact I].
Qed.

Lemma runs_vec_at n {A} (v : list A) i :
  0 <= i < Z.of_nat (length v) -> runs n (vec_at v i) (fun a => a ∈ v).
Proof.
  intros Hi s Hs. unfold vec_at. destruct (Z.ltb_spec i 0); [lia|].
  destruct (v !! Z.to_nat i) as [a|] eqn:Ha.
  - exists a, s. split; [reflexivity|]. split; [assumption|].
    eapply list_elem_of_lookup_2; eassumption.
  - apply lookup_ge_None in Ha. lia.
Qed.

Lemma runs_for_each n {A S} (ok : A -> Prop) (Inv : S -> Prop)
    (l : list A) (body : A -> S -> M S) :
  (forall a st, ok a -> Inv st -> runs n (body a st) Inv) ->
  Forall ok l -> forall st, Inv st -> runs n (for_each l body st) Inv.
Proof.
  intros Hbody Hl. induction Hl as [|a l Ha Hl IH]; intros st Hst; simpl.
  - by apply runs_ret.
  - eapply runs_bind; [apply Hbody; assumption | intros st' Hst'; by apply IH].
Qed.

Lemma runs_deref_all n ps :
  Forall (fun p => (p < n)%nat) ps ->
  runs n (deref_all ps) (fun ts => length ts = length ps).
Proof.
  intros Hps s Hs.
  assert (Hr : runs n (deref_all ps) (fun _ => True)).
  { unfold deref_all.
    apply (runs_for_each n (fun p => (p < n)%nat) (fun _ => True));
      [| exact Hps | exact I].
    intros p acc Hp _. eapply runs_bind; [by apply runs_deref|].
    intros t _. by apply runs_ret. }
  destruct (Hr s Hs) as (ts & s' & E & Hs' & _).
  exists ts, s'. split; [exact E|]. split; [exact Hs'|].
  destruct (deref_all_Some _ _ _ _ E) as [_ Hall].
  symmetry. eapply Forall2_length; eassumption.
Qed.

End Runs.

Section TrackReturns.

Context {GlobalMotionCompensation : Type}.
Context {C : Collaborators GlobalMotionCompensation}.
Implicit Types (self : @BoTSORT GlobalMotionCompensation).

Lemma below_nil n : below n [].
Proof. constructor. Qed.

Lemma below_app n (l : list ptr) (p : ptr) :
  below n l -> (p < n)%nat -> below n (l ++ [p]).
Proof. intros Hl Hp. apply Forall_app. split; [assumption | by constructor]. Qed.

Lemma below_elem_of n (l : list ptr) (p : ptr) :
  below n l -> p ∈ l -> (p < n)%nat.
Proof. unfold below. rewrite Forall_forall. auto. Qed.

Lemma tracklets_where_below P dets : forall base,
  below (base + length dets) (tracklets_where P base dets).
Proof.
  induction dets as [|d dets IH]; intros base; simpl; [constructor|].
  specialize (IH (S base)).
  replace (S base + length dets)%nat with (base + S (length dets))%nat in IH by lia.
  destruct (P d); [constructor; [lia | exact IH] | exact IH].
Qed.

(** Without Re-ID the detection loop always gets through. *)
Lemma create_tracklets_defined self dets frame s :
  _reid_enabled self = false ->
  exists dl s1, create_tracklets self dets frame s = Some (dl, s1).
Proof.
  intros Hreid. unfold create_tracklets.
  destruct (0 <? length dets)%nat; [|eauto].
  destruct (runs_for_each 0 (fun i => (i < length dets)%nat)
              (fun st => length (dl_detections st) = length dets)
              (seq 0 (length dets)) (detection_body self frame))
    with (st := {| dl_detections := dets; dl_high := []; dl_low := [] |}) (s := s)
    as (dl & s1 & E & _); [| | reflexivity | lia | eauto].
  - intros i st Hi Hst s0 Hs0. unfold detection_body.
    destruct (dl_detections st !! i) as [d|] eqn:Hd;
      [| apply lookup_ge_None in Hd; lia].
    rewrite Hreid. cbv zeta. unfold bind, new_Track.
    change (confidence (clamp frame d)) with (confidence d).
    destruct (ge (confidence d) (_track_high_thresh self));
      [| destruct (gt (f64_of_f32 (confidence d)) lit_0_1
                   && lt (confidence d) (_track_high_thresh self))];
      eexists _, _; (split; [reflexivity|]); (split; [lia|]);
      simpl; by rewrite length_insert.
  - apply Forall_forall. intros i Hi%elem_of_seq. lia.
Qed.

Lemma runs_segregate n self :
  below n (_tracked_tracks self) ->
  runs n (segregate self) (fun seg => below n (fst seg) /\ below n (snd seg)).
Proof.
  intros Hl. unfold segregate.
  apply (runs_for_each n (fun p => (p < n)%nat)
           (fun seg => below n (fst seg) /\ below n (snd seg)));
    [| exact Hl | split; apply below_nil].
  intros p [u t] Hp [Hu Ht]. simpl in Hu, Ht.
  eapply runs_bind; [by apply runs_deref|]. intros tr _.
  destruct (negb (is_activated tr)); apply runs_ret; simpl;
    split; auto using below_app.
Qed.

Lemma runs_merge n a b :
  below n a -> below n b -> runs n (_merge_track_lists a b) (below n).
Proof.
  intros Ha Hb. unfold _merge_track_lists.
  eapply runs_bind.
  - apply (runs_for_each n (fun p => (p < n)%nat)
             (fun r : gmap Z bool * list ptr => below n (snd r)));
      [| exact Ha | apply below_nil].
    intros p [E m] Hp Hm. simpl in Hm.
    eapply runs_bind; [by apply runs_deref|]. intros tr _.
    apply runs_ret. simpl. by apply below_app.
  - intros r Hr. eapply runs_bind.
    + apply (runs_for_each n (fun p => (p < n)%nat)
               (fun r : gmap Z bool * list ptr => below n (snd r)));
        [| exact Hb | exact Hr].
      intros p [E m] Hp Hm. simpl in Hm.
      eapply runs_bind; [by apply runs_deref|]. intros tr _.
      destruct (E !! track_id tr); apply runs_ret; simpl; auto using below_app.
    + intros r' Hr'. by apply runs_ret.
Qed.

Lemma runs_multi_predict n ps kf :
  below n ps -> runs n (multi_predict ps kf) (fun _ => True).
Proof.
  intros Hps. unfold multi_predict.
  eapply runs_bind; [apply runs_call|]. intros _ _.
  apply (runs_for_each n (fun p => (p < n)%nat) (fun _ => True));
    [| exact Hps | exact I].
  intros p u Hp _. eapply runs_bind; [by apply runs_deref|].
  intros t _. by apply runs_store.
Qed.

Lemma runs_multi_gmc n ps H :
  below n ps -> runs n (multi_gmc ps H) (fun _ => True).
Proof.
  intros Hps. unfold multi_gmc.
  eapply runs_bind; [apply runs_call|]. intros _ _.
  apply (runs_for_each n (fun p => (p < n)%nat) (fun _ => True));
    [| exact Hps | exact I].
  intros p u Hp _. eapply runs_bind; [by apply runs_deref|].
  intros t _. by apply runs_store.
Qed.

Lemma runs_update_matched n self (tracks dets : list ptr) ms u :
  below n tracks -> below n dets ->
  Forall (fun m => 0 <= fst m < Z.of_nat (length tracks)
                   /\ 0 <= snd m < Z.of_nat (length dets)) ms ->
  runs n (update_matched self tracks dets ms u) (fun _ => True).
Proof.
  intros Ht Hd Hms. unfold update_matched.
  apply (runs_for_each n
           (fun m => 0 <= fst m < Z.of_nat (length tracks)
                     /\ 0 <= snd m < Z.of_nat (length dets))
           (fun _ => True)); [| exact Hms | exact I].
  intros m u' [Hm1 Hm2] _. unfold update_body.
  eapply runs_bind; [by apply runs_vec_at|]. intros track Htrack.
  eapply runs_bind; [by apply runs_vec_at|]. intros detection Hdet.
  apply (below_elem_of _ _ _ Ht) in Htrack.
  apply (below_elem_of _ _ _ Hd) in Hdet.
  eapply runs_bind; [by apply runs_deref|]. intros t _.
  destruct (decide (state t = Tracked));
    (eapply runs_bind; [by apply runs_deref|]); intros d _;
    (eapply runs_bind; [apply runs_call|]); intros _ _;
    (eapply runs_bind; [by apply runs_store|]); intros _ _;
    by apply runs_ret.
Qed.

Lemma runs_still_tracked n (pool : list ptr) idxs :
  below n pool ->
  Forall (fun r => 0 <= r < Z.of_nat (length pool)) idxs ->
  runs n (for_each idxs (still_tracked_body pool) []) (below n).
Proof.
  intros Hpool Hidxs.
  apply (runs_for_each n (fun r => 0 <= r < Z.of_nat (length pool)) (below n));
    [| exact Hidxs | apply below_nil].
  intros r acc Hr Hacc. unfold still_tracked_body.
  eapply runs_bind; [by apply runs_vec_at|]. intros track Htrack.
  apply (below_elem_of _ _ _ Hpool) in Htrack.
  eapply runs_bind; [by apply runs_deref|]. intros t _.
  destruct (decide (state t = Tracked)); apply runs_ret; auto using below_app.
Qed.

Context {L : Lawful C}.

Lemma runs_first_association n self (pool high : list ptr) :
  below n pool -> below n high ->
  runs n (first_association self pool high)
       (fun fa =>
          Forall (fun m => 0 <= fst m < Z.of_nat (length pool)
                           /\ 0 <= snd m < Z.of_nat (length high)) (matches fa) /\
          Forall (fun r => 0 <= r < Z.of_nat (length pool))
                 (unmatched_track_indices fa)).
Proof.
  intros Hpool Hhigh. unfold first_association.
  eapply runs_bind; [by apply runs_deref_all|]. intros pool_objs Hlp.
  eapply runs_bind; [by apply runs_deref_all|]. intros high_objs Hlh.
  eapply runs_bind; [apply runs_call|]. intros _ _. cbv zeta.
  eapply runs_bind; [apply runs_call|]. intros _ _.
  apply runs_ret.
  match goal with
  | |- context [linear_assignment ?cost ?thresh] =>
      pose proof (linear_assignment_in_range cost thresh) as [Hm Hu];
      destruct (fuse_iou_with_emb_shape
                  (fuse_score (iou_distance pool_objs high_objs) high_objs)
                  (if _reid_enabled self
                   then fuse_motion (_kalman_filter self)
                          (embedding_distance pool_objs high_objs)
                          pool_objs high_objs false (_lambda self)
                   else CostMatrix_default)
                  (_proximity_thresh self) (_appearance_thresh self)) as [R1 C1]
  end.
  destruct (fuse_score_shape (iou_distance pool_objs high_objs) high_objs) as [R2 C2].
  destruct (iou_distance_shape pool_objs high_objs) as [R3 C3].
  rewrite R1, R2, R3, Hlp in Hm, Hu. rewrite C1, C2, C3, Hlh in Hm.
  split; assumption.
Qed.

Lemma runs_second_association n (unm low : list ptr) :
  below n unm -> below n low ->
  runs n (second_association unm low)
       (fun sec => matches (snd sec) = [] /\ unmatched_track_indices (snd sec) = []).
Proof.
  intros Hunm Hlow. unfold second_association. cbv zeta.
  eapply runs_bind; [by apply runs_deref_all|]. intros unm_objs _.
  eapply runs_bind; [by apply runs_deref_all|]. intros low_objs _.
  eapply runs_bind; [apply runs_call|]. intros _ _.
  eapply runs_bind; [apply runs_call|]. intros _ _.
  apply runs_ret. simpl.
  destruct (linear_assignment_in_range CostMatrix_default lit_0_5) as [Hm Hu].
  simpl in Hm, Hu. split.
  - destruct (matches _) as [|m ms]; [reflexivity|].
    apply Forall_cons in Hm as [[? _] _]. lia.
  - destruct (unmatched_track_indices _) as [|r rs]; [reflexivity|].
    apply Forall_cons in Hu as [? _]. lia.
Qed.

Lemma runs_defined n {A} (m : M A) (Q : A -> Prop) s :
  runs n m Q -> (n <= length (heap s))%nat -> exists a s', m s = Some (a, s').
Proof. intros Hm Hs. destruct (Hm s Hs) as (a & s' & E & _). eauto. Qed.

Lemma below_mono n n' (l : list ptr) : (n <= n')%nat -> below n l -> below n' l.
Proof.
  intros Hn Hl. unfold below in *. eapply Forall_impl; [exact Hl|].
  intros p Hp. simpl in *. lia.
Qed.

(** A call of track returns when Re-ID is disabled, the pools hold pointers
    into the store, and the collaborators keep the shapes of the matrices
    and report rows and columns of the matrix they solve. *)
Lemma track_returns self dets frame s :
  _reid_enabled self = false ->
  below (length (heap s)) (_tracked_tracks self) ->
  below (length (heap s)) (_lost_tracks self) ->
  exists fr s', track self dets frame s = Some (fr, s').
Proof.
  intros Hreid Htr Hlo. unfold track, track_body.
  destruct (create_tracklets_defined (next_frame self) dets frame s Hreid)
    as (dl & s1 & E1).
  destruct (create_tracklets_Some _ _ _ _ _ _ E1) as (_ & Eh & El & tl & Eheap & Hlen).
  assert (Hn : length (heap s1) = (length (heap s) + length dets)%nat)
    by (rewrite Eheap, length_app; lia).
  assert (Hhigh : below (length (heap s1)) (dl_high dl))
    by (rewrite Eh, Hn; apply tracklets_where_below).
  assert (Hlow : below (length (heap s1)) (dl_low dl))
    by (rewrite El, Hn; apply tracklets_where_below).
  apply (below_mono _ (length (heap s1))) in Htr; [|lia].
  apply (below_mono _ (length (heap s1))) in Hlo; [|lia].
  unfold bind at 1. rewrite E1.
  apply (runs_defined (length (heap s1)) _ (fun _ => True)); [|reflexivity].
  eapply runs_bind; [apply runs_segregate; exact Htr|]. intros seg [Hu Ht].
  eapply runs_bind; [apply runs_merge; [exact Ht | exact Hlo]|]. intros pool Hpool.
  eapply runs_bind; [by apply runs_multi_predict|]. intros _ _. cbv zeta.
  eapply runs_bind; [by apply runs_multi_gmc|]. intros _ _.
  eapply runs_bind; [by apply runs_multi_gmc|]. intros _ _.
  eapply runs_bind; [by apply runs_first_association|]. intros fa [Hm Hun].
  eapply runs_bind; [by apply runs_update_matched|]. intros u1 _.
  eapply runs_bind; [by apply runs_still_tracked|]. intros unm Hunm.
  eapply runs_bind; [by apply runs_second_association|]. intros sec [Em Eu].
  rewrite Em, Eu. unfold update_matched. cbn [for_each].
  eapply (runs_bind _ _ _ (fun _ => True)); [apply runs_ret; exact I|].
  intros u2 _.
  eapply (runs_bind _ _ _ (fun _ => True)); [apply runs_ret; exact I|].
  intros lost _.
  by apply runs_ret.
Qed.

End TrackReturns.

(** The reference collaborators keep the shapes and report rows and columns
    of the matrix. *)
Section ReferenceLawful.

Import Reference.

Lemma best_column_used r thresh : forall j used best k c,
  best_column r j used thresh best = Some (k, c) ->
  best = Some (k, c) \/ (j <= k < j + length r)%nat.
Proof.
  induction r as [|c0 r IH]; intros j used best k c H; simpl in H; [auto|].
  apply IH in H as [H|H]; [|simpl; lia].
  destruct (le c0 thresh && negb (bool_decide (j ∈ used)) && _) in H;
    [injection H as <- _; simpl; right; lia | auto].
Qed.

Lemma assign_rows_in_range cost thresh : forall is_ used acc ms ut used',
  assign_rows cost is_ used thresh acc = (ms, ut, used') ->
  Forall (fun i => (i < m_rows cost)%nat) is_ ->
  Forall (fun m => 0 <= fst m < Z.of_nat (m_rows cost)
                   /\ 0 <= snd m < Z.of_nat (m_cols cost)) (fst acc) ->
  Forall (fun r => 0 <= r < Z.of_nat (m_rows cost)) (snd acc) ->
  Forall (fun m => 0 <= fst m < Z.of_nat (m_rows cost)
                   /\ 0 <= snd m < Z.of_nat (m_cols cost)) ms /\
  Forall (fun r => 0 <= r < Z.of_nat (m_rows cost)) ut.
Proof.
  induction is_ as [|i is_ IH]; intros used acc ms ut used' H Hi Hm Hu; simpl in H.
  - destruct acc. injection H as <- <- _. auto.
  - apply Forall_cons in Hi as [Hi His].
    destruct (best_column (row cost i) 0 used thresh None) as [[j c]|] eqn:Eb.
    + apply IH in H; auto; simpl.
      apply Forall_app. split; [assumption|]. constructor; [|constructor]. simpl.
      apply best_column_used in Eb as [Eb|Eb]; [discriminate|].
      assert (length (row cost i) <= m_cols cost)%nat
        by (unfold row; rewrite length_take; lia).
      lia.
    + apply IH in H; auto; simpl.
      apply Forall_app. split; [assumption|]. constructor; [lia | constructor].
Qed.

#[export] Instance collaborators_lawful : Lawful collaborators.
Proof.
  split.
  - intros a b. split; reflexivity.
  - intros cost dets. split; reflexivity.
  - intros iou_cost emb_cost p a. simpl. unfold fuse_emb.
    destruct (coeffs emb_cost); split; reflexivity.
  - intros cost thresh. unfold in_range. simpl. unfold assignment.
    destruct (assign_rows cost (seq 0 (m_rows cost)) [] thresh ([], []))
      as [[ms ut] used] eqn:E. simpl.
    eapply assign_rows_in_range; [exact E | | constructor | constructor].
    apply Forall_forall. intros i Hi%elem_of_seq. lia.
Qed.

End ReferenceLawful.

(** * Further properties of the controller *)

(** ** The constructor: when it builds a tracker *)

Section ConstructorRange.

Context {GlobalMotionCompensation : Type}.
Context {C : Collaborators GlobalMotionCompensation}.
Implicit Types (t : @BoTSORT GlobalMotionCompensation).

Lemma conversions_at_the_edges :
  forallb (fun fr => forallb (conversion_at_the_edges fr) uint8_values) uint8_values = true.
Proof. vm_compute. reflexivity. Qed.

Lemma conversion_at_the_edges_spec fr tb :
  0 <= fr <= 255 -> 0 <= tb <= 255 -> conversion_at_the_edges fr tb = true.
Proof.
  intros Hfr Htb.
  pose proof (proj1 (forallb_forall _ _) conversions_at_the_edges
                fr (uint8_values_spec fr Hfr)) as H.
  exact (proj1 (forallb_forall _ _) H tb (uint8_values_spec tb Htb)).
Qed.

(** The conversion of the buffer size is defined exactly when the product of
    the frame rate and the track buffer is under 7680 = 256 * 30. *)
Lemma to_uint8_buffer_size fr tb :
  0 <= fr <= 255 -> 0 <= tb <= 255 ->
  is_Some (to_uint8 (buffer_size_double fr tb)) <-> fr * tb < 7680.
Proof.
  intros Hfr Htb.
  pose proof (truncation_is_near_quotient_spec fr tb Hfr Htb) as Hnear.
  pose proof (conversion_at_the_edges_spec fr tb Hfr Htb) as Hedge.
  unfold truncation_is_near_quotient in Hnear.
  unfold conversion_at_the_edges in Hedge. cbv zeta in Hedge.
  assert (Hn : 0 <= fr * tb) by nia.
  generalize dependent (fr * tb). intros n Hnear Hedge Hn.
  destruct ((n <? 30) || ((7680 <=? n) && (n <? 7710))) eqn:Hband.
  - destruct (to_uint8 (buffer_size_double fr tb)) as [v|].
    + apply Z.ltb_lt in Hedge. split; [intros _; exact Hedge | eauto].
    + apply Z.leb_le in Hedge. split; [intros [? [=]] | lia].
  - apply orb_false_elim in Hband as [H30%Z.ltb_ge Hb].
    unfold to_uint8.
    destruct (trunc (buffer_size_double fr tb)) as [v|]; [|discriminate].
    apply andb_prop in Hnear as [H3%Z.leb_le H4%Z.ltb_lt].
    destruct ((0 <=? v) && (v <=? 255)) eqn:Hfit.
    + apply andb_prop in Hfit as [H1%Z.leb_le H2%Z.leb_le].
      split; [intros _ | eauto].
      destruct (Z.leb_spec 7680 n) as [Hge|]; [|lia].
      destruct (Z.ltb_spec n 7710) as [Hlt|]; [discriminate Hb | lia].
    + split; [intros [? [=]] | intros Hlt].
      apply andb_false_iff in Hfit as [H1%Z.leb_gt | H2%Z.leb_gt]; lia.
Qed.

(** What the constructor computes from the frame rate and the track
    buffer. *)
Lemma BoTSORT_new_Some mw fp th nt tb mt pt at_ gm fr la t0 :
  BoTSORT_new mw fp th nt tb mt pt at_ gm fr la = Some t0 ->
  to_uint8 (buffer_size_double fr tb) = Some (_max_time_lost t0) /\
  _buffer_size t0 = _max_time_lost t0 /\
  dt (_kalman_filter t0) = f64_div lit_1_0 (f64_of_int fr).
Proof.
  unfold BoTSORT_new. fold (buffer_size_double fr tb).
  destruct (to_uint8 (buffer_size_double fr tb)); [|discriminate].
  intros [= <-]. auto.
Qed.

Lemma BoTSORT_new_is_Some mw fp th nt tb mt pt at_ gm fr la :
  is_Some (BoTSORT_new mw fp th nt tb mt pt at_ gm fr la) <->
  is_Some (to_uint8 (buffer_size_double fr tb)).
Proof.
  unfold BoTSORT_new. fold (buffer_size_double fr tb).
  destruct (to_uint8 (buffer_size_double fr tb)); split; eauto; intros [? [=]].
Qed.

(** X1: the constructor builds a tracker exactly when the product of the
    uint8_t values frame_rate and track_buffer is under 7680 = 256 * 30;
    from 7680 on, the conversion of the buffer size to uint8_t has no
    defined result. *)
Theorem BoTSORT_new_defined_iff_product_under_7680
    mw fp th nt tb mt pt at_ gm fr la :
  0 <= fr <= 255 -> 0 <= tb <= 255 ->
  is_Some (BoTSORT_new mw fp th nt tb mt pt at_ gm fr la) <-> fr * tb < 7680.
Proof.
  intros Hfr Htb. rewrite BoTSORT_new_is_Some.
  by apply to_uint8_buffer_size.
Qed.

Lemma exact_at_multiples :
  forallb (fun fr => forallb (exact_at_multiple (fr / 30)) uint8_values)
          multiples_of_30 = true.
Proof. vm_compute. reflexivity. Qed.

Lemma exact_at_multiple_spec k tb :
  0 <= k <= 8 -> 0 <= tb <= 255 ->
  trunc (buffer_size_double (30 * k) tb) = Some (k * tb).
Proof.
  intros Hk Htb.
  assert (Hin : In (30 * k) multiples_of_30).
  { unfold multiples_of_30. rewrite <- (Z2Nat.id k) by lia.
    apply (in_map (fun k => 30 * Z.of_nat k)), in_seq. lia. }
  pose proof (proj1 (forallb_forall _ _) exact_at_multiples _ Hin) as H.
  pose proof (proj1 (forallb_forall _ _) H tb (uint8_values_spec tb Htb)) as Hex.
  replace (30 * k / 30) with k in Hex by (rewrite Z.mul_comm, Z.div_mul; lia).
  unfold exact_at_multiple in Hex.
  destruct (trunc (buffer_size_double (30 * k) tb)) as [v|]; [|discriminate].
  apply Z.eqb_eq in Hex. by subst v.
Qed.

(** X2: when the frame rate is a multiple of 30, the two double-precision
    operations are exact: max_time_lost is (frame_rate / 30) * track_buffer. *)
Theorem max_time_lost_is_exact_at_multiples_of_30
    mw fp th nt tb mt pt at_ gm k la t0 :
  0 <= k <= 8 -> 0 <= tb <= 255 ->
  BoTSORT_new mw fp th nt tb mt pt at_ gm (30 * k) la = Some t0 ->
  _max_time_lost t0 = k * tb /\ _buffer_size t0 = k * tb.
Proof.
  intros Hk Htb Hnew. apply BoTSORT_new_Some in Hnew as (Hu & Hb & _).
  rewrite Hb. unfold to_uint8 in Hu.
  rewrite (exact_at_multiple_spec k tb Hk Htb) in Hu.
  destruct ((0 <=? k * tb) && (k * tb <=? 255)); [|discriminate].
  injection Hu as <-. auto.
Qed.

End ConstructorRange.

(** ** What a computation writes to *)

Section WritesOnly.

Context (ps : list ptr).

Lemma same_but_refl h : same_but ps h h.
Proof. split; auto. Qed.

Lemma same_but_trans h1 h2 h3 :
  same_but ps h1 h2 -> same_but ps h2 h3 -> same_but ps h1 h3.
Proof.
  intros [L1 H1] [L2 H2]. split; [congruence|].
  intros q Hq. rewrite H2, H1; auto.
Qed.

Lemma same_but_weaken qs h h' :
  ps ⊆ qs -> same_but ps h h' -> same_but qs h h'.
Proof.
  intros Hsub [L H]. split; [exact L|]. intros q Hq. apply H.
  intros Hin. apply Hq, Hsub, Hin.
Qed.

Lemma same_but_insert h (p : ptr) t : p ∈ ps -> same_but ps h (<[p := t]> h).
Proof.
  intros Hp. split; [apply length_insert|].
  intros q Hq. apply list_lookup_insert_ne. intros ->. contradiction.
Qed.

Lemma writes_only_ret {A} (a : A) : writes_only ps (ret a).
Proof. intros s a' s' [= _ <-]. apply same_but_refl. Qed.

Lemma writes_only_undefined {A} : writes_only ps (@undefined A).
Proof. intros s a s' [=]. Qed.

Lemma writes_only_bind {A B} (m : M A) (k : A -> M B) :
  writes_only ps m -> (forall a, writes_only ps (k a)) -> writes_only ps (bind m k).
Proof.
  intros Hm Hk s b s' (a & s1 & H1 & H2)%bind_Some.
  eapply same_but_trans; [eapply Hm | eapply Hk]; eassumption.
Qed.

Lemma writes_only_deref p : writes_only ps (deref p).
Proof. intros s a s' (t & _ & [= _ <-])%deref_Some. apply same_but_refl. Qed.

Lemma writes_only_store (p : ptr) t : p ∈ ps -> writes_only ps (store p t).
Proof.
  intros Hp s a s' (_ & [= _ ->])%store_Some. simpl. by apply same_but_insert.
Qed.

Lemma writes_only_call c : writes_only ps (call c).
Proof. intros s a s' [= _ <-]. apply same_but_refl. Qed.

Lemma writes_only_vec_at {A} (v : list A) i : writes_only ps (vec_at v i).
Proof. intros s a s' (x & _ & _ & [= _ <-])%vec_at_Some. apply same_but_refl. Qed.

Lemma writes_only_bind_vec_at {A B} (v : list A) i (k : A -> M B) :
  (forall a, a ∈ v -> writes_only ps (k a)) -> writes_only ps (bind (vec_at v i) k).
Proof.
  intros Hk s b s' (a & s1 & H1 & H2)%bind_Some.
  apply vec_at_Some in H1 as (a' & _ & Ha & [= -> ->]).
  eapply Hk; [|eassumption]. eapply list_elem_of_lookup_2; eassumption.
Qed.

Lemma writes_only_for_each {A S} (l : list A) (body : A -> S -> M S) st :
  (forall a st, a ∈ l -> writes_only ps (body a st)) ->
  writes_only ps (for_each l body st).
Proof.
  revert st. induction l as [|a l IH]; intros st Hbody; simpl.
  - apply writes_only_ret.
  - apply writes_only_bind.
    + apply Hbody, list_elem_of_here.
    + intros st'. apply IH. intros b st0 Hb. apply Hbody.
      by apply list_elem_of_further.
Qed.

End WritesOnly.

Lemma writes_only_weaken (ps qs : list ptr) {A} (m : M A) :
  ps ⊆ qs -> writes_only ps m -> writes_only qs m.
Proof. intros Hsub Hm s a s' H. eapply same_but_weaken; eauto. Qed.

(** Decompose a computation into steps that write to the given cells; the
    membership of the cells it stores to is left as goals. *)
Ltac writes_only :=
  repeat first
    [ apply writes_only_ret | apply writes_only_undefined
    | apply writes_only_deref | apply writes_only_vec_at
    | apply writes_only_call
    | apply writes_only_store
    | apply writes_only_bind; [| intros ?]
    | match goal with
      | |- writes_only _ (match ?x with _ => _ end) => destruct x
      | |- writes_only _ (let (_, _) := ?x in _) => destruct x
      end ].

Section Phases.

Context {GlobalMotionCompensation : Type}.
Context {C : Collaborators GlobalMotionCompensation}.
Implicit Types (self : @BoTSORT GlobalMotionCompensation).

Lemma writes_only_deref_all ps qs : writes_only ps (deref_all qs).
Proof.
  unfold deref_all. apply writes_only_for_each. intros. writes_only.
Qed.

Lemma writes_only_multi_predict ps kf : writes_only ps (multi_predict ps kf).
Proof.
  unfold multi_predict. apply writes_only_bind; [apply writes_only_call|].
  intros _. apply writes_only_for_each. intros p u Hp. writes_only. exact Hp.
Qed.

Lemma writes_only_multi_gmc ps H : writes_only ps (multi_gmc ps H).
Proof.
  unfold multi_gmc. apply writes_only_bind; [apply writes_only_call|].
  intros _. apply writes_only_for_each. intros p u Hp. writes_only. exact Hp.
Qed.

Lemma writes_only_first_association ps self pool high :
  writes_only ps (first_association self pool high).
Proof.
  unfold first_association.
  repeat (apply writes_only_bind; [apply writes_only_deref_all | intros ?]).
  writes_only.
Qed.

Lemma writes_only_second_association ps unm low :
  writes_only ps (second_association unm low).
Proof.
  unfold second_association. cbv zeta.
  repeat (apply writes_only_bind; [apply writes_only_deref_all | intros ?]).
  writes_only.
Qed.

Lemma writes_only_update_matched self tracks dets ms u :
  writes_only tracks (update_matched self tracks dets ms u).
Proof.
  unfold update_matched. apply writes_only_for_each. intros m u' _.
  unfold update_body. apply writes_only_bind_vec_at. intros track Htrack.
  writes_only; exact Htrack.
Qed.

Lemma writes_only_still_tracked ps pool idxs acc :
  writes_only ps (for_each idxs (still_tracked_body pool) acc).
Proof.
  apply writes_only_for_each. intros. unfold still_tracked_body. writes_only.
Qed.

Lemma writes_only_mark_lost tracks idxs acc :
  writes_only tracks (for_each idxs (mark_lost_body tracks) acc).
Proof.
  apply writes_only_for_each. intros idx l _.
  unfold mark_lost_body. apply writes_only_bind_vec_at. intros track Htrack.
  writes_only; exact Htrack.
Qed.

(** The tracks collected for the second association are tracks of the
    pool. *)
Lemma still_tracked_subseteq pool idxs : forall acc unm s s',
  for_each idxs (still_tracked_body pool) acc s = Some (unm, s') ->
  acc ⊆ pool -> unm ⊆ pool.
Proof.
  induction idxs as [|i idxs IH]; intros acc unm s s' H Hacc; cbn [for_each] in H.
  - run_inv. exact Hacc.
  - run_step H. unfold still_tracked_body in Hrun. run_step Hrun.
    apply vec_at_Some in Hrun0 as (track & _ & Htrack & [= -> ->]).
    run_step Hrun. apply deref_Some in Hrun0 as (t & _ & [= -> ->]).
    apply list_elem_of_lookup_2 in Htrack.
    destruct (decide (state t = Tracked)); run_inv; eapply IH; try eassumption.
    intros p [Hp|Hp%list_elem_of_singleton]%elem_of_app; [auto | by subst].
Qed.

End Phases.

(** ** The store and the log of one call *)

Section DetectionStore.

Context {GlobalMotionCompensation : Type}.
Context {C : Collaborators GlobalMotionCompensation}.
Implicit Types (self : @BoTSORT GlobalMotionCompensation).

(** One turn of the detection loop allocates one tracklet, built from the
    clamped detection; with Re-ID it has cut the patch out of the frame and
    has logged one extraction, from the default-constructed matrix. *)
Lemma detection_body_store self frame i st s st' s' d :
  dl_detections st !! i = Some d ->
  detection_body self frame i st s = Some (st', s') ->
  heap s' = heap s ++ [tracklet_of self (clamp frame d)] /\
  calls s' = calls s ++ feature_calls self 1 /\
  (_reid_enabled self = true ->
   is_Some (Mat_roi frame (bbox_tlwh (clamp frame d)))).
Proof.
  intros Hd H. unfold detection_body in H. rewrite Hd in H.
  cbv zeta in H. run_step H.
  assert (Hs : s' = s0).
  { destruct (ge _ _); [| destruct (_ && _)]; by run_inv. }
  subst s0. clear H. unfold tracklet_of, feature_calls.
  destruct (_reid_enabled self).
  - run_step Hrun. unfold _extract_features in Hrun0.
    destruct (Mat_roi frame (bbox_tlwh (clamp frame d))) as [patch|] eqn:Eroi;
      [|discriminate].
    destruct (_reid_model self) as [model|]; [|discriminate].
    run_inv. apply new_Track_Some in Hrun as (_ & E & Ec). simpl in *.
    rewrite E, Ec. eauto.
  - apply new_Track_Some in Hrun as (_ & E & Ec).
    rewrite E, Ec, app_nil_r. split; [reflexivity|]. split; [reflexivity|].
    discriminate.
Qed.

Lemma detection_loop_store self frame todo : forall done st s dl s',
  dl_detections st = map (clamp frame) done ++ todo ->
  for_each (seq (length done) (length todo)) (detection_body self frame) st s
    = Some (dl, s') ->
  heap s' = heap s ++ (tracklet_of self <$> (clamp frame <$> todo)) /\
  calls s' = calls s ++ feature_calls self (length todo) /\
  (_reid_enabled self = true ->
   Forall (fun d => is_Some (Mat_roi frame (bbox_tlwh (clamp frame d)))) todo).
Proof.
  induction todo as [|d todo IH]; intros done st s dl s' Hst H.
  - cbn [length seq for_each] in H. run_inv. unfold feature_calls.
    destruct (_reid_enabled self); simpl; rewrite !app_nil_r; auto.
  - cbn [length seq for_each] in H. run_step H.
    assert (Hd : dl_detections st !! length done = Some d).
    { rewrite Hst. rewrite <- (length_map (clamp frame) done).
      apply list_lookup_middle. reflexivity. }
    pose proof (detection_body_Some _ _ _ _ _ _ _ _ Hd Hrun) as (E1 & _).
    apply (detection_body_store _ _ _ _ _ _ _ _ Hd) in Hrun as (Eh & Ec & Hroi).
    specialize (IH (done ++ [d]) a s0 dl s').
    rewrite length_app in IH. simpl in IH.
    replace (length done + 1)%nat with (S (length done)) in IH by lia.
    destruct IH as (Fh & Fc & Froi).
    + rewrite E1, Hst, map_app. simpl. rewrite <- app_assoc. simpl.
      rewrite <- (length_map (clamp frame) done).
      rewrite <- (Nat.add_0_r (length (map (clamp frame) done))) at 1.
      rewrite insert_app_r. reflexivity.
    + exact H.
    + rewrite Fh, Fc, Eh, Ec, <- !app_assoc. split; [reflexivity|]. split.
      * f_equal. unfold feature_calls.
        destruct (_reid_enabled self); reflexivity.
      * intros Hreid. constructor; auto.
Qed.

(** The detection loop as a whole, on the store and the log. *)
Lemma create_tracklets_store self dets frame s dl s' :
  create_tracklets self dets frame s = Some (dl, s') ->
  heap s' = heap s ++ (tracklet_of self <$> (clamp frame <$> dets)) /\
  calls s' = calls s ++ feature_calls self (length dets) /\
  (_reid_enabled self = true ->
   Forall (fun d => is_Some (Mat_roi frame (bbox_tlwh (clamp frame d)))) dets).
Proof.
  unfold create_tracklets. destruct dets as [|d dets].
  - simpl. intros H. run_inv. unfold feature_calls.
    destruct (_reid_enabled self); simpl; rewrite !app_nil_r; auto.
  - change (0 <? length (d :: dets))%nat with true. cbv iota.
    intros H. apply (detection_loop_store self frame (d :: dets) []) in H;
      [exact H | reflexivity].
Qed.

Lemma not_yet_seen_subseteq h ps : forall seen, not_yet_seen h seen ps ⊆ ps.
Proof.
  induction ps as [|p ps IH]; intros seen; cbn [not_yet_seen]; [done|].
  destruct (decide (id_at h p ∈ seen)).
  - intros q Hq%IH. by apply list_elem_of_further.
  - intros q [->|Hq%IH]%elem_of_cons;
      [apply list_elem_of_here | by apply list_elem_of_further].
Qed.

(** The pools of a call: the prediction pool and the unconfirmed tracks are
    tracks of the tracker's two pools, the tracks of the second association
    are tracks of the prediction pool. *)
Lemma track_body_pools self dets frame s fr s' :
  track_body self dets frame s = Some (fr, s') ->
  tracks_pool (locals fr) ⊆ _tracked_tracks self ++ _lost_tracks self /\
  unconfirmed_tracks (locals fr) ⊆ _tracked_tracks self /\
  unmatched_tracks_after_1st_association (locals fr) ⊆ tracks_pool (locals fr).
Proof.
  intros H. apply track_body_inv in H
    as (dl & s1 & seg & s2 & pool & s3 & s4 & s5 & s6 & fa & s7 & u1 & s8 & unm
        & s9 & sec & s10 & u2 & s11 & lost & _ & H2 & H3 & _ & _ & _ & _
        & _ & H9 & _ & _ & _ & _ & _ & _ & _ & _ & ->).
  cbn [locals tracks_pool unconfirmed_tracks unmatched_tracks_after_1st_association].
  apply segregate_Some in H2 as (-> & Eu & Et).
  apply _merge_track_lists_Some in H3 as (-> & ->).
  split; [|split].
  - intros p [Hp|Hp]%elem_of_app; apply elem_of_app.
    + left. rewrite Et in Hp. by apply list_elem_of_filter in Hp as [_ Hp].
    + right. by apply not_yet_seen_subseteq in Hp.
  - rewrite Eu. intros p Hp. by apply list_elem_of_filter in Hp as [_ Hp].
  - eapply still_tracked_subseteq; [exact H9|]. intros p Hp.
    by apply elem_of_nil in Hp.
Qed.

(** One call of [track_body] on the store: one tracklet is allocated for
    each detection, behind the cells the store had, and the only cells
    written to afterwards are tracks of the two pools. *)
Lemma track_body_store self dets frame s fr s' :
  track_body self dets frame s = Some (fr, s') ->
  same_but (_tracked_tracks self ++ _lost_tracks self)
           (heap s ++ (tracklet_of self <$> (clamp frame <$> dets))) (heap s').
Proof.
  intros H. pose proof (track_body_pools _ _ _ _ _ _ H) as (Hpool & Hunc & Hunm).
  apply track_body_inv in H
    as (dl & s1 & seg & s2 & pool & s3 & s4 & s5 & s6 & fa & s7 & u1 & s8 & unm
        & s9 & sec & s10 & u2 & s11 & lost & H1 & H2 & H3 & H4 & H5 & H6 & H7
        & H8 & H9 & H10 & H11 & H12 & _ & _ & _ & _ & _ & Hloc).
  rewrite Hloc in Hpool, Hunc, Hunm.
  cbn [locals tracks_pool unconfirmed_tracks
       unmatched_tracks_after_1st_association] in Hpool, Hunc, Hunm.
  set (ps := _tracked_tracks self ++ _lost_tracks self) in *.
  assert (Hunc' : fst seg ⊆ ps).
  { intros p Hp. apply elem_of_app. left. by apply Hunc. }
  assert (Hunm' : unm ⊆ ps) by (intros p Hp; by apply Hpool, Hunm).
  apply create_tracklets_store in H1 as (<- & _ & _).
  apply segregate_Some in H2 as (-> & _).
  apply _merge_track_lists_Some in H3 as (-> & _).
  apply (writes_only_weaken _ ps _ Hpool (writes_only_multi_predict _ _)) in H4.
  apply (writes_only_weaken _ ps _ Hpool (writes_only_multi_gmc _ _)) in H5.
  apply (writes_only_weaken _ ps _ Hunc' (writes_only_multi_gmc _ _)) in H6.
  apply (writes_only_first_association ps) in H7.
  apply (writes_only_weaken _ ps _ Hpool (writes_only_update_matched _ _ _ _ _)) in H8.
  apply (writes_only_still_tracked ps) in H9.
  apply (writes_only_second_association ps) in H10.
  apply (writes_only_weaken _ ps _ Hunm' (writes_only_update_matched _ _ _ _ _)) in H11.
  apply (writes_only_weaken _ ps _ Hunm' (writes_only_mark_lost _ _ _)) in H12.
  repeat (eapply same_but_trans; [eassumption|]). apply same_but_refl.
Qed.

End DetectionStore.

(** ** The log of one call *)

Section CallLog.

Context {GlobalMotionCompensation : Type}.
Context {C : Collaborators GlobalMotionCompensation}.
Implicit Types (self : @BoTSORT GlobalMotionCompensation).

Lemma multi_gmc_calls ps H s s' :
  multi_gmc ps H s = Some (tt, s') ->
  calls s' = calls s ++ [Call_multi_gmc ps H].
Proof.
  unfold multi_gmc. intros E. run_step E. run_inv.
  enough (Hgen : forall l u s0 s1,
    for_each l (fun p _ => t <~ deref p ;; store p (Track_gmc H t)) u s0
      = Some (tt, s1) -> calls s1 = calls s0).
  { apply Hgen in E. exact E. }
  clear. induction l as [|p l IH]; intros u s0 s1 E; cbn [for_each] in E.
  - run_inv. reflexivity.
  - run_step E. run_inv. apply IH in E. exact E.
Qed.

(** The first association logs the two calls of its cost matrix and of the
    solver, and returns what the solver reports. *)
Lemma first_association_calls self pool high s fa s' :
  first_association self pool high s = Some (fa, s') ->
  exists cost,
    fa = linear_assignment cost (_match_thresh self) /\
    calls s' = calls s ++ [Call_iou_distance pool high;
                           Call_linear_assignment cost (_match_thresh self)].
Proof.
  unfold first_association. intros H.
  run_step H. apply deref_all_Some in Hrun as [-> _].
  run_step H. apply deref_all_Some in Hrun as [-> _].
  cbv zeta in H. run_inv. simpl. eexists. split; [reflexivity|].
  rewrite <- app_assoc. reflexivity.
Qed.

(** An update loop logs one update or re-activation for each match, and the
    indices of every match are inside the two vectors. *)
Lemma update_matched_calls self tracks dets ms : forall u s u' s',
  update_matched self tracks dets ms u s = Some (u', s') ->
  (exists ups, calls s' = calls s ++ ups /\ length ups = length ms /\
               Forall is_update ups /\
               Forall (stamped (_frame_id self) dets) ups) /\
  Forall (fun m => 0 <= fst m < Z.of_nat (length tracks) /\
                   0 <= snd m < Z.of_nat (length dets)) ms /\
  (length (activated_tracks u') + length (refind_tracks u')
   = length (activated_tracks u) + length (refind_tracks u) + length ms)%nat.
Proof.
  unfold update_matched.
  induction ms as [|m ms IH]; intros u s u' s' H; cbn [for_each] in H.
  - run_inv. split; [exists []; rewrite app_nil_r; auto|]. split; [constructor|].
    simpl. lia.
  - run_step H. apply IH in H as ((ups & E & Hlen & Hups & Hst) & Hr & Hl).
    assert (Hm : 0 <= fst m /\ 0 <= snd m).
    { unfold update_body in Hrun. run_step Hrun.
      apply vec_at_Some in Hrun0 as (? & ? & _ & [= -> ->]).
      run_step Hrun. apply vec_at_Some in Hrun0 as (? & ? & _). auto. }
    apply update_body_Some in Hrun as (track & detection & t & d & Ht & Hd & _ & _ & Hb).
    pose proof (list_elem_of_lookup_2 _ _ _ Hd) as Hin.
    apply lookup_lt_Some in Ht, Hd.
    assert (Hc : exists c, calls s0 = calls s ++ [c] /\ is_update c /\
                 stamped (_frame_id self) dets c /\
                 (length (activated_tracks a) + length (refind_tracks a)
                  = S (length (activated_tracks u) + length (refind_tracks u)))%nat).
    { destruct (decide (state t = Tracked)); destruct Hb as (Ec & _ & E1 & E2);
        eexists; (split; [exact Ec|]); (split; [exact I|]);
        (split; [simpl; auto|]);
        rewrite E1, E2, length_app; simpl; lia. }
    destruct Hc as (c & Ec & Hc & Hs & Hl1).
    split; [|split].
    + exists (c :: ups). rewrite E, Ec, <- app_assoc. simpl.
      split; [reflexivity|]. split; [by rewrite Hlen|].
      split; by constructor.
    + constructor; [lia | exact Hr].
    + simpl. lia.
Qed.

(** The loop that marks tracks as lost logs transitions to Lost only, and
    its indices are inside the vector. *)
Lemma mark_lost_calls tracks idxs : forall acc s lost s',
  for_each idxs (mark_lost_body tracks) acc s = Some (lost, s') ->
  (exists l, calls s' = calls s ++ l /\ Forall is_mark_lost l /\
             (length l <= length idxs)%nat) /\
  Forall (fun r => 0 <= r < Z.of_nat (length tracks)) idxs.
Proof.
  induction idxs as [|i idxs IH]; intros acc s lost s' H; cbn [for_each] in H.
  - run_inv. split; [exists []; rewrite app_nil_r; auto | constructor].
  - run_step H. apply IH in H as ((l & E & Hl & Hlen) & Hr).
    assert (Hi : 0 <= i).
    { unfold mark_lost_body in Hrun. run_step Hrun.
      apply vec_at_Some in Hrun0 as (? & ? & _). auto. }
    apply mark_lost_body_Some in Hrun as (track & t & Ht & _ & Hb).
    apply lookup_lt_Some in Ht.
    split; [| constructor; [lia | exact Hr]].
    destruct (decide (state t ≠ Lost)).
    + destruct Hb as (Ec & _). exists (Call_mark_lost track :: l).
      rewrite E, Ec, <- app_assoc. split; [reflexivity|].
      split; [by constructor | simpl; lia].
    + destruct Hb as [-> _]. exists l. split; [exact E|].
      split; [exact Hl | simpl; lia].
Qed.

(** The loop that collects the tracks of the second association reads the
    store, and its indices are inside the pool. *)
Lemma still_tracked_Some pool idxs : forall acc s unm s',
  for_each idxs (still_tracked_body pool) acc s = Some (unm, s') ->
  s' = s /\ Forall (fun r => 0 <= r < Z.of_nat (length pool)) idxs /\
  exists l, unm = acc ++ l /\
    Forall (fun p => state <$> heap s !! p = Some Tracked) l.
Proof.
  induction idxs as [|i idxs IH]; intros acc s unm s' H; cbn [for_each] in H.
  - run_inv. split; [reflexivity|]. split; [constructor|].
    exists []. split; [by rewrite app_nil_r | constructor].
  - run_step H. unfold still_tracked_body in Hrun. run_step Hrun.
    apply vec_at_Some in Hrun0 as (track & Hi & Htrack & [= -> ->]).
    run_step Hrun. apply deref_Some in Hrun0 as (t & Ht & [= -> ->]).
    apply lookup_lt_Some in Htrack as Hlt.
    destruct (decide (state t = Tracked)) as [Hst|Hst]; run_inv;
      apply IH in H as (-> & Hr & l & -> & Hl);
      (split; [reflexivity|]); (split; [constructor; [lia | exact Hr]|]).
    + exists (track :: l). rewrite <- app_assoc. split; [reflexivity|].
      constructor; [| exact Hl]. rewrite Ht. simpl. by rewrite Hst.
    + exists l. auto.
Qed.

(** The tracker a call of [track_body] leaves: the one it was called on,
    with the state the motion compensation has after the frame. *)
Lemma track_body_tracker self dets frame s fr s' :
  track_body self dets frame s = Some (fr, s') ->
  tracker fr = with_gmc_algo self
                 (snd (gmc_apply (_gmc_algo self) frame (map (clamp frame) dets))).
Proof.
  unfold track_body. intros H.
  run_step H. apply create_tracklets_Some in Hrun as (<- & _).
  run_step H. run_step H. run_step H. cbv zeta in H.
  run_step H. run_step H. run_step H. run_step H. run_step H.
  run_step H. run_step H. run_step H. run_step H.
  injection H as Hfr _. subst fr. reflexivity.
Qed.

(** The log of one call of [track_body], from its first call to its last. *)
Lemma track_body_calls self dets frame s fr s' :
  track_body self dets frame s = Some (fr, s') ->
  let Hg := gmc_apply (_gmc_algo self) frame (map (clamp frame) dets) in
  let l := locals fr in
  exists cost ups1 ups2 marks,
    calls s' = calls s
      ++ feature_calls self (length dets)
      ++ [Call_multi_predict (tracks_pool l);
          Call_multi_gmc (tracks_pool l) (fst Hg);
          Call_multi_gmc (unconfirmed_tracks l) (fst Hg);
          Call_iou_distance (tracks_pool l) (detections_high_conf l);
          Call_linear_assignment cost (_match_thresh self)]
      ++ ups1
      ++ [Call_iou_distance (unmatched_tracks_after_1st_association l)
                            (detections_low_conf l);
          Call_linear_assignment CostMatrix_default lit_0_5]
      ++ ups2 ++ marks /\
    first_associations l = linear_assignment cost (_match_thresh self) /\
    length ups1 = length (matches (first_associations l)) /\
    Forall is_update ups1 /\
    length ups2 = length (matches (second_associations l)) /\
    Forall is_update ups2 /\
    Forall is_mark_lost marks /\
    Forall (stamped (_frame_id self) (detections_high_conf l)) ups1 /\
    Forall (stamped (_frame_id self) (detections_low_conf l)) ups2 /\
    (length marks <= length (unmatched_track_indices (second_associations l)))%nat.
Proof.
  intros H. apply track_body_inv in H
    as (dl & s1 & seg & s2 & pool & s3 & s4 & s5 & s6 & fa & s7 & u1 & s8 & unm
        & s9 & sec & s10 & u2 & s11 & lost & H1 & H2 & H3 & H4 & H5 & H6 & H7
        & H8 & H9 & H10 & H11 & H12 & _ & _ & _ & _ & _ & ->).
  cbv zeta. cbn [locals tracks_pool unconfirmed_tracks detections_high_conf
                 detections_low_conf unmatched_tracks_after_1st_association
                 first_associations second_associations].
  pose proof (create_tracklets_Some _ _ _ _ _ _ H1) as (Edl & _).
  apply create_tracklets_store in H1 as (_ & E1 & _).
  apply segregate_Some in H2 as (-> & _).
  apply _merge_track_lists_Some in H3 as (-> & _).
  apply multi_predict_calls in H4.
  apply multi_gmc_calls in H5. apply multi_gmc_calls in H6.
  apply first_association_calls in H7 as (cost & -> & E7).
  apply update_matched_calls in H8 as ((ups1 & E8 & L8 & F8 & S8) & _).
  apply still_tracked_Some in H9 as (-> & _).
  apply second_association_Some in H10 as (-> & _ & E10).
  apply update_matched_calls in H11 as ((ups2 & E11 & L11 & F11 & S11) & _).
  apply mark_lost_calls in H12 as ((marks & E12 & F12 & L12) & _).
  exists cost, ups1, ups2, marks.
  rewrite E12, E11, E10, E8, E7, H6, H5, H4, E1, Edl, <- !app_assoc.
  simpl. auto 12.
Qed.

(** Every update, re-activation and transition to Lost of a call of
    [track_body] is on a track of the prediction pool. *)
Lemma track_body_on_tracks self dets frame s fr s' :
  track_body self dets frame s = Some (fr, s') ->
  after (on_tracks (tracks_pool (locals fr))) s s'.
Proof.
  intros H. pose proof (track_body_pools _ _ _ _ _ _ H) as (_ & _ & Hunm).
  apply track_body_inv in H
    as (dl & s1 & seg & s2 & pool & s3 & s4 & s5 & s6 & fa & s7 & u1 & s8 & unm
        & s9 & sec & s10 & u2 & s11 & lost & H1 & H2 & H3 & H4 & H5 & H6 & H7
        & H8 & H9 & H10 & H11 & H12 & _ & _ & _ & _ & _ & Hloc).
  rewrite Hloc in *.
  cbn [locals tracks_pool unmatched_tracks_after_1st_association] in *.
  set (P := on_tracks pool).
  assert (G1 : grows P (create_tracklets self dets frame)).
  { unfold create_tracklets, detection_body, _extract_features. grows; exact I. }
  assert (G4 : forall ps kf, grows P (multi_predict ps kf)).
  { intros. unfold multi_predict. grows. exact I. }
  assert (G5 : forall ps Hm, grows P (multi_gmc ps Hm)).
  { intros. unfold multi_gmc. grows. exact I. }
  assert (G7 : grows P (first_association self pool (dl_high dl))).
  { unfold first_association. grows; try exact I; apply grows_deref_all. }
  assert (G10 : grows P (second_association unm (dl_low dl))).
  { unfold second_association. grows; try exact I; apply grows_deref_all. }
  assert (G8 : forall tracks dets ms u, tracks ⊆ pool ->
            grows P (update_matched self tracks dets ms u)).
  { intros tracks ds ms u Hsub. unfold update_matched.
    apply grows_for_each. intros m u'. unfold update_body.
    apply grows_bind_vec_at. intros track Ht%Hsub. grows; exact Ht. }
  assert (G12 : forall idxs acc, grows P (for_each idxs (mark_lost_body unm) acc)).
  { intros. apply grows_for_each. intros idx l. unfold mark_lost_body.
    apply grows_bind_vec_at. intros track Ht%Hunm. grows. exact Ht. }
  apply G1 in H1. apply (grows_segregate P) in H2. apply (grows_merge P) in H3.
  apply G4 in H4. apply G5 in H5. apply G5 in H6. apply G7 in H7.
  apply G8 in H8; [|done]. apply (grows_still_tracked P) in H9.
  apply G10 in H10. apply G8 in H11; [|exact Hunm]. apply G12 in H12.
  repeat (eapply after_trans; [eassumption|]). apply after_refl.
Qed.

End CallLog.

(** ** The store and the log after a call *)

Section StoreOfACall.

Context {GlobalMotionCompensation : Type}.
Context {C : Collaborators GlobalMotionCompensation}.
Implicit Types (self : @BoTSORT GlobalMotionCompensation).

Lemma track_store self dets frame s fr s' :
  track self dets frame s = Some (fr, s') ->
  same_but (_tracked_tracks self ++ _lost_tracks self)
           (heap s ++ (tracklet_of self <$> (clamp frame <$> dets))) (heap s').
Proof. unfold track. intros H. by apply track_body_store in H. Qed.

(** The cell of the tracklet of the detection at index [i], when the pools
    hold cells the store had before the call. *)
Lemma track_tracklet self dets frame s fr s' i d :
  track self dets frame s = Some (fr, s') ->
  below (length (heap s)) (_tracked_tracks self ++ _lost_tracks self) ->
  dets !! i = Some d ->
  heap s' !! (length (heap s) + i)%nat = Some (tracklet_of self (clamp frame d)).
Proof.
  intros H Hbelow Hd. apply track_store in H as [_ H].
  rewrite H.
  - rewrite lookup_app_r by lia.
    replace (length (heap s) + i - length (heap s))%nat with i by lia.
    by rewrite !list_lookup_fmap, Hd.
  - intros Hin. apply (below_elem_of _ _ _ Hbelow) in Hin. lia.
Qed.

(** X5: a call of track that returns has allocated exactly one Track for each
    detection of the frame, whatever its confidence, and has freed none: the
    store has grown by the number of detections.  Without Re-ID, and when
    the pools hold tracks that existed before the call, the tracklet of the
    detection at index i is the Track built from the clamped box, the
    confidence and the class of the detection, without features. *)
Theorem track_allocates_one_tracklet_per_detection self dets frame s fr s' :
  track self dets frame s = Some (fr, s') ->
  length (heap s') = (length (heap s) + length dets)%nat /\
  (_reid_enabled self = false ->
   below (length (heap s)) (_tracked_tracks self ++ _lost_tracks self) ->
   forall i d, dets !! i = Some d ->
     let b := bbox_tlwh (clamp frame d) in
     heap s' !! (length (heap s) + i)%nat
     = Some (Track_new [x b; y b; width b; height b]
                       (confidence d) (class_id d) None)).
Proof.
  intros H. split.
  - apply track_store in H as [-> _]. by rewrite length_app, !length_fmap.
  - intros Hreid Hbelow i d Hd. cbv zeta.
    rewrite (track_tracklet _ _ _ _ _ _ _ _ H Hbelow Hd).
    unfold tracklet_of. rewrite Hreid. reflexivity.
Qed.

(** X17: a call of track that returns has written to no object of the store
    other than the tracks of the tracker's two pools: every other object the
    store held before the call is unchanged. *)
Theorem track_writes_to_pool_tracks_only self dets frame s fr s' q t :
  track self dets frame s = Some (fr, s') ->
  q ∉ _tracked_tracks self ++ _lost_tracks self ->
  heap s !! q = Some t ->
  heap s' !! q = Some t.
Proof.
  intros H Hq Ht. apply track_store in H as [_ H].
  rewrite (H q Hq). by apply lookup_app_l_Some.
Qed.

(** X6: with Re-ID enabled, a call of track that returns has extracted the
    features of every detection from a default-constructed matrix, not from
    the patch of the frame: the log starts with one such extraction for each
    detection and has no other, and the tracklet of every detection carries
    the features of the empty matrix. *)
Theorem reid_features_are_extracted_from_an_empty_matrix
    self dets frame s fr s' model :
  track self dets frame s = Some (fr, s') ->
  _reid_enabled self = true ->
  _reid_model self = Some model ->
  (exists rest,
     calls s' = calls s
       ++ replicate (length dets) (Call_extract_features Mat_default) ++ rest /\
     forall patch, Call_extract_features patch ∉ rest) /\
  (below (length (heap s)) (_tracked_tracks self ++ _lost_tracks self) ->
   forall i d, dets !! i = Some d ->
     let b := bbox_tlwh (clamp frame d) in
     heap s' !! (length (heap s) + i)%nat
     = Some (Track_new [x b; y b; width b; height b] (confidence d) (class_id d)
                       (Some (reid_extract_features model Mat_default)))).
Proof.
  intros H Hreid Hmodel. split.
  - unfold track in H. apply track_body_calls in H
      as (cost & ups1 & ups2 & marks & E & _ & _ & F1 & _ & F2 & F3 & _).
    cbv zeta in E. unfold feature_calls in E.
    change (_reid_enabled (next_frame self)) with (_reid_enabled self) in E.
    rewrite Hreid in E. eexists. split; [exact E|].
    intros patch Hin.
    rewrite Forall_forall in F1, F2, F3.
    repeat (apply elem_of_app in Hin as [Hin|Hin]);
      repeat (apply elem_of_cons in Hin as [Hin|Hin]; [discriminate Hin|]);
      try (by apply elem_of_nil in Hin).
    + by apply F1 in Hin.
    + by apply F2 in Hin.
    + by apply F3 in Hin.
  - intros Hbelow i d Hd. cbv zeta.
    rewrite (track_tracklet _ _ _ _ _ _ _ _ H Hbelow Hd).
    unfold tracklet_of. rewrite Hreid, Hmodel. reflexivity.
Qed.

(** X7: with Re-ID enabled, a call of track has no result as soon as the
    patch of one detection cannot be cut out of the frame at its clamped
    box: the exception of OpenCV is not caught. *)
Theorem track_is_undefined_when_a_patch_cannot_be_cut self dets frame s d :
  _reid_enabled self = true ->
  d ∈ dets ->
  Mat_roi frame (bbox_tlwh (clamp frame d)) = None ->
  track self dets frame s = None.
Proof.
  intros Hreid Hd Hroi.
  destruct (track self dets frame s) as [[fr s']|] eqn:H; [|reflexivity].
  exfalso. unfold track in H. apply track_body_inv in H
    as (dl & s1 & seg & s2 & pool & s3 & s4 & s5 & s6 & fa & s7 & u1 & s8
        & unm & s9 & sec & s10 & u2 & s11 & lost & H1 & _).
  apply create_tracklets_store in H1 as (_ & _ & Hall).
  specialize (Hall Hreid). rewrite Forall_forall in Hall.
  apply Hall in Hd as [patch Hpatch]. congruence.
Qed.

End StoreOfACall.

Section LogOfACall.

Context {GlobalMotionCompensation : Type}.
Context {C : Collaborators GlobalMotionCompensation}.
Implicit Types (self : @BoTSORT GlobalMotionCompensation).

(** X11: the collaborator calls of a call of track that returns, in order:
    the feature extractions of the detection loop; one prediction, on the
    prediction pool; the motion compensation of the pool and then of the
    unconfirmed tracks, both with the homography estimated once from the
    frame and the clamped detections (all of them, whatever their
    confidence); the cost matrix and the solver of the first association,
    and one update or re-activation for each of its matches, on a detection
    of the high-confidence list; the cost matrix and the solver of the
    second association, one update or re-activation for each of its matches,
    on a detection of the low-confidence list, and at most one transition to
    Lost for each of its unmatched tracks.  Every update and re-activation
    is stamped with the frame of the call, and the tracker keeps the state
    the motion compensation has after the frame. *)
Theorem track_calls_its_collaborators_in_order self dets frame s fr s' :
  track self dets frame s = Some (fr, s') ->
  let Hg := gmc_apply (_gmc_algo self) frame (map (clamp frame) dets) in
  let l := locals fr in
  _gmc_algo (tracker fr) = snd Hg /\
  exists cost ups1 ups2 marks,
    calls s' = calls s
      ++ feature_calls self (length dets)
      ++ [Call_multi_predict (tracks_pool l);
          Call_multi_gmc (tracks_pool l) (fst Hg);
          Call_multi_gmc (unconfirmed_tracks l) (fst Hg);
          Call_iou_distance (tracks_pool l) (detections_high_conf l);
          Call_linear_assignment cost (_match_thresh self)]
      ++ ups1
      ++ [Call_iou_distance (unmatched_tracks_after_1st_association l)
                            (detections_low_conf l);
          Call_linear_assignment CostMatrix_default lit_0_5]
      ++ ups2 ++ marks /\
    first_associations l = linear_assignment cost (_match_thresh self) /\
    length ups1 = length (matches (first_associations l)) /\
    Forall is_update ups1 /\
    length ups2 = length (matches (second_associations l)) /\
    Forall is_update ups2 /\
    Forall is_mark_lost marks /\
    Forall (stamped (_frame_id self + 1) (detections_high_conf l)) ups1 /\
    Forall (stamped (_frame_id self + 1) (detections_low_conf l)) ups2 /\
    (length marks <= length (unmatched_track_indices (second_associations l)))%nat.
Proof.
  unfold track. intros H. cbv zeta. split.
  - apply track_body_tracker in H. rewrite H. reflexivity.
  - apply track_body_calls in H. exact H.
Qed.

Lemma track_on_tracks self dets frame s fr s' :
  track self dets frame s = Some (fr, s') ->
  after (on_tracks (tracks_pool (locals fr))) s s'.
Proof. unfold track. apply track_body_on_tracks. Qed.

(** X13: for a call of track that returns, every update, re-activation and
    transition to Lost is on a track of the prediction pool, and the one
    prediction of the call is on that pool.  An unconfirmed track (a track
    of the tracked pool that is not activated) which is not in the lost pool
    is not in the prediction pool: it is compensated for the camera motion,
    with the homography of the frame, and it is not predicted, updated,
    re-activated or marked Lost. *)
Theorem unconfirmed_tracks_are_only_compensated self dets frame s fr s' :
  track self dets frame s = Some (fr, s') ->
  let Hm := fst (gmc_apply (_gmc_algo self) frame (map (clamp frame) dets)) in
  let l := locals fr in
  exists added,
    calls s' = calls s ++ added /\
    Forall (on_tracks (tracks_pool l)) added /\
    (forall ps, Call_multi_predict ps ∈ added -> ps = tracks_pool l) /\
    Call_multi_gmc (unconfirmed_tracks l) Hm ∈ added /\
    forall p, p ∈ unconfirmed_tracks l -> p ∉ _lost_tracks self ->
      (p ∉ tracks_pool l) /\
      forall d f b,
        (Call_update p d f ∉ added) /\
        (Call_re_activate p d f b ∉ added) /\
        (Call_mark_lost p ∉ added).
Proof.
  intros H. cbv zeta.
  pose proof (track_on_tracks _ _ _ _ _ _ H) as [(added & Eadd & Fadd) _].
  assert (Hpool : forall p, p ∈ unconfirmed_tracks (locals fr) ->
            p ∉ _lost_tracks self -> p ∉ tracks_pool (locals fr)).
  { unfold track in H. apply track_body_inv in H
      as (dl & s1 & seg & s2 & pool & s3 & s4 & s5 & s6 & fa & s7 & u1 & s8
          & unm & s9 & sec & s10 & u2 & s11 & lost & _ & H2 & H3 & _ & _ & _ & _
          & _ & _ & _ & _ & _ & _ & _ & _ & _ & _ & ->).
    cbn [locals tracks_pool unconfirmed_tracks].
    apply segregate_Some in H2 as (-> & Eu & Et).
    apply _merge_track_lists_Some in H3 as (-> & ->).
    intros p Hp Hlost [Hin|Hin]%elem_of_app.
    - rewrite Eu in Hp. rewrite Et in Hin.
      apply list_elem_of_filter in Hp as [Hp _].
      apply list_elem_of_filter in Hin as [Hin _]. congruence.
    - by apply not_yet_seen_subseteq in Hin. }
  pose proof H as Hlog. unfold track in Hlog. apply track_body_calls in Hlog
    as (cost & ups1 & ups2 & marks & E & _ & _ & F1 & _ & F2 & F3 & _).
  cbv zeta in E.
  rewrite Eadd in E. apply app_inv_head in E.
  exists added. split; [exact Eadd|]. split; [exact Fadd|]. split; [|split].
  - intros ps Hin. rewrite E in Hin.
    rewrite Forall_forall in F1, F2, F3.
    apply elem_of_app in Hin as [Hin|Hin].
    { unfold feature_calls in Hin. destruct (_reid_enabled _).
      - apply elem_of_replicate in Hin as [Hin _]. discriminate Hin.
      - by apply elem_of_nil in Hin. }
    repeat (apply elem_of_app in Hin as [Hin|Hin]);
      repeat (apply elem_of_cons in Hin as [Hin|Hin];
              [first [by injection Hin | discriminate Hin]|]);
      try (by apply elem_of_nil in Hin).
    + by apply F1 in Hin.
    + by apply F2 in Hin.
    + by apply F3 in Hin.
  - rewrite E.
    apply elem_of_app. right. do 2 apply list_elem_of_further.
    apply list_elem_of_here.
  - intros p Hp Hlost. specialize (Hpool p Hp Hlost). split; [exact Hpool|].
    rewrite Forall_forall in Fadd.
    intros d f b. repeat split; intros Hin%Fadd; by apply Hpool.
Qed.

(** X15: a call of track returns only when every index the two solvers report
    is inside the vector it subscripts: the matches of the first association
    in the prediction pool and the high-confidence list, its unmatched
    tracks in the pool, the matches of the second association in the list
    of its tracks and the low-confidence list, its unmatched tracks in that
    list.  The vectors are subscripted without a check. *)
Theorem track_returns_only_on_indices_in_range self dets frame s fr s' :
  track self dets frame s = Some (fr, s') ->
  let l := locals fr in
  let inside {A} (v : list A) (i : Z) := 0 <= i < Z.of_nat (length v) in
  Forall (fun m => inside (tracks_pool l) (fst m) /\
                   inside (detections_high_conf l) (snd m))
         (matches (first_associations l)) /\
  Forall (inside (tracks_pool l)) (unmatched_track_indices (first_associations l)) /\
  Forall (fun m => inside (unmatched_tracks_after_1st_association l) (fst m) /\
                   inside (detections_low_conf l) (snd m))
         (matches (second_associations l)) /\
  Forall (inside (unmatched_tracks_after_1st_association l))
         (unmatched_track_indices (second_associations l)).
Proof.
  unfold track. intros H. apply track_body_inv in H
    as (dl & s1 & seg & s2 & pool & s3 & s4 & s5 & s6 & fa & s7 & u1 & s8 & unm
        & s9 & sec & s10 & u2 & s11 & lost & _ & _ & _ & _ & _ & _ & _
        & H8 & H9 & _ & H11 & H12 & _ & _ & _ & _ & _ & ->).
  cbv zeta. cbn [locals tracks_pool detections_high_conf detections_low_conf
                 unmatched_tracks_after_1st_association first_associations
                 second_associations].
  apply update_matched_calls in H8 as (_ & H8 & _).
  apply still_tracked_Some in H9 as (_ & H9 & _).
  apply update_matched_calls in H11 as (_ & H11 & _).
  apply mark_lost_calls in H12 as (_ & H12).
  auto.
Qed.

(** X16: for a call of track that returns, the two update loops have collected
    one track for each match of the two associations; a frame without a
    high-confidence detection has no match in the first association, a frame
    without a low-confidence detection has none in the second, and a frame
    without detections allocates nothing, updates and re-activates no
    track. *)
Theorem frame_without_detections_updates_no_track self dets frame s fr s' :
  track self dets frame s = Some (fr, s') ->
  let l := locals fr in
  (length (activated_tracks (updated l)) + length (refind_tracks (updated l))
   = length (matches (first_associations l))
     + length (matches (second_associations l)))%nat /\
  (detections_high_conf l = [] -> matches (first_associations l) = []) /\
  (detections_low_conf l = [] -> matches (second_associations l) = []) /\
  (dets = [] ->
   updated l = {| activated_tracks := []; refind_tracks := [] |} /\
   length (heap s') = length (heap s) /\
   exists added, calls s' = calls s ++ added /\
                 Forall (fun c => ~ is_update c) added).
Proof.
  intros H. cbv zeta.
  pose proof (track_create_tracklets _ _ _ _ _ _ H) as (_ & Ehigh & Elow).
  pose proof (track_store _ _ _ _ _ _ H) as [Hlen _].
  pose proof H as Hlog. unfold track in Hlog. apply track_body_calls in Hlog
    as (cost & ups1 & ups2 & marks & E & _ & L1 & _ & L2 & _ & F3 & _).
  cbv zeta in E.
  unfold track in H. apply track_body_inv in H
    as (dl & s1 & seg & s2 & pool & s3 & s4 & s5 & s6 & fa & s7 & u1 & s8 & unm
        & s9 & sec & s10 & u2 & s11 & lost & _ & _ & _ & _ & _ & _ & _
        & H8 & _ & _ & H11 & _ & _ & _ & _ & _ & _ & Hloc).
  rewrite Hloc in *.
  cbn [locals tracks_pool detections_high_conf detections_low_conf
       unmatched_tracks_after_1st_association first_associations
       second_associations updated unconfirmed_tracks] in *.
  apply update_matched_calls in H8 as (_ & R8 & N8).
  apply update_matched_calls in H11 as (_ & R11 & N11).
  simpl in N8.
  assert (M1 : dl_high dl = [] -> matches fa = []).
  { intros Eh. rewrite Eh in R8. destruct (matches fa) as [|m ms]; [reflexivity|].
    apply Forall_cons in R8 as [[_ ?] _]. simpl in *. lia. }
  assert (M2 : dl_low dl = [] -> matches (snd sec) = []).
  { intros El. rewrite El in R11. destruct (matches (snd sec)) as [|m ms]; [reflexivity|].
    apply Forall_cons in R11 as [[_ ?] _]. simpl in *. lia. }
  split; [lia|]. split; [exact M1|]. split; [exact M2|].
  intros ->. simpl in Ehigh, Elow.
  specialize (M1 Ehigh). specialize (M2 Elow).
  rewrite M1 in N8, L1. rewrite M2 in N11, L2. simpl in *.
  split; [|split].
  - destruct u2 as [[|] [|]]; simpl in *; try lia. reflexivity.
  - rewrite Hlen, length_app. simpl. lia.
  - destruct ups1; [|discriminate L1]. destruct ups2; [|discriminate L2].
    eexists. split; [exact E|].
    assert (Hf : Forall (fun c => ~ is_update c) (feature_calls (next_frame self) 0)).
    { unfold feature_calls. destruct (_reid_enabled _); constructor. }
    apply Forall_app. split; [exact Hf|]. simpl.
    repeat (constructor; [simpl; tauto|]).
    eapply Forall_impl; [exact F3|]. intros [] Hc; simpl in *; tauto.
Qed.

End LogOfACall.

(** ** Sequences of calls *)

Section Frames.

Context {GlobalMotionCompensation : Type}.
Context {C : Collaborators GlobalMotionCompensation}.
Implicit Types (self t tn : @BoTSORT GlobalMotionCompensation).

Lemma track_tracker self dets frame s fr s' :
  track self dets frame s = Some (fr, s') ->
  tracker fr = with_gmc_algo (next_frame self)
                 (snd (gmc_apply (_gmc_algo self) frame (map (clamp frame) dets))).
Proof. unfold track. intros H. by apply track_body_tracker in H. Qed.

(** X18: a sequence of calls of track leaves the configuration of the tracker
    and its two pools as they were: no call changes a threshold, the buffer
    size, the Kalman filter or the Re-ID model, and no call adds a track to
    the tracked pool or the lost pool, or removes one. *)
Theorem track_keeps_the_configuration_and_the_pools inputs :
  forall self s tn s',
  track_frames self inputs s = Some (tn, s') ->
  same_configuration tn self /\
  _tracked_tracks tn = _tracked_tracks self /\
  _lost_tracks tn = _lost_tracks self.
Proof.
  induction inputs as [|[dets frame] rest IH]; intros self s tn s' H.
  - apply ret_Some in H. injection H as <- _.
    unfold same_configuration. repeat split; reflexivity.
  - cbn [track_frames] in H. run_step H.
    apply track_tracker in Hrun. apply IH in H as (Hc & Ht & Hl).
    rewrite Hrun in Hc, Ht, Hl. split; [|split; assumption].
    unfold same_configuration in *. exact Hc.
Qed.

Lemma same_but_nil h h' : same_but [] h h' -> h' = h.
Proof.
  intros [_ H]. apply list_eq. intros i. apply H. apply not_elem_of_nil.
Qed.

(** One frame of a tracker whose pools are empty. *)
Lemma track_on_empty_pools self dets frame s fr s' :
  _tracked_tracks self = [] -> _lost_tracks self = [] ->
  track self dets frame s = Some (fr, s') ->
  heap s' = heap s ++ (tracklet_of self <$> (clamp frame <$> dets)) /\
  exists added, calls s' = calls s ++ added /\
    Forall (fun c => ~ is_update c /\ ~ is_mark_lost c) added.
Proof.
  intros Ht Hl H. split.
  - apply track_store in H. rewrite Ht, Hl in H. by apply same_but_nil in H.
  - pose proof (track_on_tracks _ _ _ _ _ _ H) as [(added & E & F) _].
    unfold track in H. apply track_body_pools in H as (Hpool & _).
    change (_tracked_tracks (next_frame self)) with (_tracked_tracks self) in Hpool.
    change (_lost_tracks (next_frame self)) with (_lost_tracks self) in Hpool.
    rewrite Ht, Hl in Hpool.
    exists added. split; [exact E|].
    eapply Forall_impl; [exact F|].
    intros c Hc. destruct c; simpl in *; try tauto;
      apply Hpool in Hc; by apply elem_of_nil in Hc.
Qed.

Lemma track_frames_on_empty_pools inputs : forall self s tn s',
  _tracked_tracks self = [] -> _lost_tracks self = [] ->
  track_frames self inputs s = Some (tn, s') ->
  (_tracked_tracks tn = [] /\ _lost_tracks tn = []) /\
  (exists tl, heap s' = heap s ++ tl /\
              length tl = length (concat (fst <$> inputs))) /\
  exists added, calls s' = calls s ++ added /\
    Forall (fun c => ~ is_update c /\ ~ is_mark_lost c) added.
Proof.
  induction inputs as [|[dets frame] rest IH]; intros self s tn s' Ht Hl H.
  - apply ret_Some in H. injection H as <- <-.
    split; [auto|]. split; [exists [] | exists []]; rewrite app_nil_r; auto.
  - cbn [track_frames] in H. run_step H.
    pose proof (track_tracker _ _ _ _ _ _ Hrun) as Etr.
    apply (track_on_empty_pools _ _ _ _ _ _ Ht Hl) in Hrun as (Eh & added & Ec & F).
    apply IH in H as (Hpools & (tl & Eh' & Ltl) & added' & Ec' & F');
      [| by rewrite Etr | by rewrite Etr].
    split; [exact Hpools|]. split.
    + eexists. rewrite Eh', Eh, <- app_assoc. split; [reflexivity|].
      rewrite fmap_cons, concat_cons, !length_app, !length_fmap, Ltl.
      reflexivity.
    + exists (added ++ added'). rewrite Ec', Ec, <- app_assoc.
      split; [reflexivity | by apply Forall_app].
Qed.

(** X19: a tracker the constructor has built never tracks: whatever the frames
    and the collaborators, after any sequence of calls of track that return
    its two pools are empty, no track has been updated, re-activated or
    marked Lost, and the store holds what it held before, followed by one
    tracklet for each detection of each frame. *)
Theorem constructed_tracker_never_tracks
    mw fp th nt tb mt pt at_ gm fr la (t0 : @BoTSORT GlobalMotionCompensation)
    inputs s tn s' :
  BoTSORT_new mw fp th nt tb mt pt at_ gm fr la = Some t0 ->
  track_frames t0 inputs s = Some (tn, s') ->
  _tracked_tracks tn = [] /\ _lost_tracks tn = [] /\
  (exists tracklets, heap s' = heap s ++ tracklets /\
     length tracklets = length (concat (fst <$> inputs))) /\
  exists added, calls s' = calls s ++ added /\
    Forall (fun c => ~ is_update c /\ ~ is_mark_lost c) added.
Proof.
  intros Hnew H.
  assert (Hpools : _tracked_tracks t0 = [] /\ _lost_tracks t0 = []).
  { unfold BoTSORT_new in Hnew. destruct (to_uint8 _); [|discriminate].
    injection Hnew as <-. auto. }
  destruct Hpools as [Ht Hl].
  destruct (track_frames_on_empty_pools _ _ _ _ _ Ht Hl H) as ([Et El] & Hrest).
  auto.
Qed.

End Frames.

(** ** The candidates of the second association *)

Section SecondStageCandidates.

Context {GlobalMotionCompensation : Type}.
Context {C : Collaborators GlobalMotionCompensation}.
Implicit Types (self : @BoTSORT GlobalMotionCompensation).

(** The loop that collects the tracks of the second association keeps, in
    the order of the indices, the tracks whose state is Tracked. *)
Lemma still_tracked_filter pool idxs : forall acc s unm s',
  for_each idxs (still_tracked_body pool) acc s = Some (unm, s') ->
  unm = acc ++ filter (fun p => state_at (heap s) p = Some Tracked)
                      (tracks_at pool idxs).
Proof.
  induction idxs as [|i idxs IH]; intros acc s unm s' H; cbn [for_each] in H.
  - run_inv. by rewrite app_nil_r.
  - run_step H. unfold still_tracked_body in Hrun. run_step Hrun.
    apply vec_at_Some in Hrun0 as (track & Hi & Htrack & [= -> ->]).
    run_step Hrun. apply deref_Some in Hrun0 as (t & Ht & [= -> ->]).
    assert (Et : tracks_at pool (i :: idxs) = track :: tracks_at pool idxs).
    { unfold tracks_at. simpl.
      destruct (Z.ltb_spec i 0) as [|_]; [lia|]. by rewrite Htrack. }
    assert (Est : state_at (heap s) track = Some (state t))
      by (unfold state_at; rewrite Ht; reflexivity).
    rewrite Et, filter_cons.
    destruct (decide (state t = Tracked)) as [Hst|Hst]; run_inv;
      apply IH in H; rewrite H.
    + rewrite decide_True by (by rewrite Est, Hst). by rewrite <- app_assoc.
    + rewrite decide_False by (rewrite Est; congruence). reflexivity.
Qed.

(** X14: when the solver reports no index on the matrix without rows and
    columns, the tracks of the second association are the tracks of the
    prediction pool at the indices the first association has left
    unmatched, in the order of these indices, whose state is Tracked: a
    Lost track of the pool that is not matched in the first association is
    no candidate of the second one. *)
Theorem second_association_takes_the_unmatched_tracked_tracks
    self dets frame s fr s' :
  in_range CostMatrix_default (linear_assignment CostMatrix_default lit_0_5) ->
  track self dets frame s = Some (fr, s') ->
  let l := locals fr in
  unmatched_tracks_after_1st_association l
  = filter (fun p => state_at (heap s') p = Some Tracked)
           (tracks_at (tracks_pool l)
                      (unmatched_track_indices (first_associations l))).
Proof.
  intros [Hm Hu] H. unfold track in H. apply track_body_inv in H
    as (dl & s1 & seg & s2 & pool & s3 & s4 & s5 & s6 & fa & s7 & u1 & s8 & unm
        & s9 & sec & s10 & u2 & s11 & lost & _ & _ & _ & _ & _ & _ & _
        & _ & H9 & H10 & H11 & H12 & _ & _ & _ & _ & _ & ->).
  cbv zeta. cbn [locals tracks_pool unmatched_tracks_after_1st_association
                 first_associations].
  pose proof (still_tracked_filter _ _ _ _ _ _ H9) as Eunm.
  apply still_tracked_Some in H9 as (-> & _).
  apply second_association_Some in H10 as (-> & Eh & _). simpl in H11, H12.
  assert (Em : matches (linear_assignment CostMatrix_default lit_0_5) = []).
  { destruct (matches _) as [|m ms]; [reflexivity|].
    apply Forall_cons in Hm as [[Hm _] _]. simpl in Hm. lia. }
  assert (Eu : unmatched_track_indices
                 (linear_assignment CostMatrix_default lit_0_5) = []).
  { destruct (unmatched_track_indices _) as [|r rs]; [reflexivity|].
    apply Forall_cons in Hu as [Hu _]. simpl in Hu. lia. }
  rewrite Em in H11. rewrite Eu in H12. unfold update_matched in H11.
  cbn [for_each] in H11, H12. run_inv. rewrite Eh. reflexivity.
Qed.

End SecondStageCandidates.

(** ** The merge of two lists of tracks *)

Section Merge.

Lemma not_yet_seen_sublist h ps : forall seen, not_yet_seen h seen ps `sublist_of` ps.
Proof.
  induction ps as [|p ps IH]; intros seen; cbn [not_yet_seen]; [constructor|].
  destruct (decide (id_at h p ∈ seen)).
  - apply sublist_cons, IH.
  - apply sublist_skip, IH.
Qed.

(** The identities of the tracks that are not yet seen are new, and
    pairwise distinct. *)
Lemma not_yet_seen_fresh h ps : forall seen,
  (forall p, p ∈ not_yet_seen h seen ps -> id_at h p ∉ seen) /\
  NoDup (id_at h <$> not_yet_seen h seen ps).
Proof.
  induction ps as [|p ps IH]; intros seen; cbn [not_yet_seen].
  - split; [intros p Hp; by apply elem_of_nil in Hp | constructor].
  - destruct (decide (id_at h p ∈ seen)) as [Hin|Hin]; [apply IH|].
    destruct (IH (id_at h p :: seen)) as [Hfresh Hnd]. split.
    + intros q [->|Hq]%elem_of_cons; [exact Hin|].
      apply Hfresh in Hq. intros Hs. apply Hq. by apply list_elem_of_further.
    + rewrite fmap_cons. apply NoDup_cons. split; [|exact Hnd].
      intros (q & Eq & Hq)%list_elem_of_fmap. apply Hfresh in Hq.
      apply Hq. rewrite <- Eq. apply list_elem_of_here.
Qed.

(** Every identity of the list is seen, or is the identity of a track that
    is kept. *)
Lemma not_yet_seen_covers h ps : forall seen p,
  p ∈ ps ->
  id_at h p ∈ seen \/ id_at h p ∈ id_at h <$> not_yet_seen h seen ps.
Proof.
  induction ps as [|p0 ps IH]; intros seen p Hp; [by apply elem_of_nil in Hp|].
  cbn [not_yet_seen].
  apply elem_of_cons in Hp as [->|Hp].
  - destruct (decide (id_at h p0 ∈ seen)); [by left|].
    right. rewrite fmap_cons. apply list_elem_of_here.
  - destruct (decide (id_at h p0 ∈ seen)); [by apply IH|].
    destruct (IH (id_at h p0 :: seen) p Hp) as [[->|Hs]%elem_of_cons|Hk].
    + right. rewrite fmap_cons. apply list_elem_of_here.
    + by left.
    + right. rewrite fmap_cons. by apply list_elem_of_further.
Qed.

(** No track is kept when every identity is seen. *)
Lemma not_yet_seen_all_seen h ps : forall seen,
  (forall p, p ∈ ps -> id_at h p ∈ seen) -> not_yet_seen h seen ps = [].
Proof.
  induction ps as [|p ps IH]; intros seen Hall; cbn [not_yet_seen]; [reflexivity|].
  rewrite decide_True by (apply Hall, list_elem_of_here).
  apply IH. intros q Hq. by apply Hall, list_elem_of_further.
Qed.

(** The merge has a result exactly when every pointer of the two lists is a
    cell of the store. *)
Lemma _merge_track_lists_is_Some a b s :
  is_Some (_merge_track_lists a b s) <-> below (length (heap s)) (a ++ b).
Proof.
  split.
  - intros [[pool s'] H]. unfold _merge_track_lists in H.
    run_step H. run_step H.
    assert (Hloop : forall (l : list ptr) body st r s0 s1,
      (forall p st0 r0 sa sb, body p st0 sa = Some (r0, sb) ->
         sb = sa /\ is_Some (heap sa !! p)) ->
      for_each l body (st : gmap Z bool * list ptr) s0 = Some (r, s1) ->
      s1 = s0 /\ below (length (heap s0)) l).
    { clear. induction l as [|p l IH]; intros body st r s0 s1 Hbody E;
        cbn [for_each] in E.
      - run_inv. split; [reflexivity | constructor].
      - run_step E. apply Hbody in Hrun as [-> Hp].
        apply (IH _ _ _ _ _ Hbody) in E as [-> Hl]. split; [reflexivity|].
        constructor; [|exact Hl]. by apply lookup_lt_is_Some. }
    apply Hloop in Hrun as [-> Ha].
    2:{ intros p [E m] r0 sa sb Hb. run_inv. eauto. }
    apply Hloop in Hrun0 as [-> Hb].
    2:{ intros p [E m] r0 sa sb Hb. run_step Hb.
        apply deref_Some in Hrun as (t & Ht & [= -> ->]).
        destruct (E !! track_id t); run_inv; eauto. }
    apply Forall_app. auto.
  - intros [Ha Hb]%Forall_app.
    destruct (runs_merge (length (heap s)) a b Ha Hb s) as (pool & s' & E & _);
      [reflexivity|]. rewrite E. eauto.
Qed.


(** X8: the merge reads the store and changes nothing; it dereferences every
    pointer of both lists, also of the tracks it leaves out: it has a result
    exactly when every pointer of the two lists is a cell of the store. *)
Theorem merge_dereferences_every_track a b s :
  (is_Some (_merge_track_lists a b s) <-> below (length (heap s)) (a ++ b)) /\
  forall pool s', _merge_track_lists a b s = Some (pool, s') -> s' = s.
Proof.
  split; [apply _merge_track_lists_is_Some|].
  intros pool s' H. by apply _merge_track_lists_Some in H as [-> _].
Qed.

(** X9: the merged list starts with the first list, whole and in order, also
    when two of its tracks share a track_id; what follows is taken from the
    second list, in order.  Every track_id of the two lists is the track_id
    of a track of the merged list, and when the track_ids of the first list
    are pairwise distinct, so are those of the merged list. *)
Theorem merge_keeps_one_track_per_identity a b s pool s' :
  _merge_track_lists a b s = Some (pool, s') ->
  let ids := fmap (M := list) (id_at (heap s)) in
  a `prefix_of` pool /\
  pool `sublist_of` a ++ b /\
  (forall p, p ∈ a ++ b -> id_at (heap s) p ∈ ids pool) /\
  (NoDup (ids a) -> NoDup (ids pool)).
Proof.
  intros H. apply _merge_track_lists_Some in H as (-> & ->). cbv zeta.
  set (h := heap s). set (seen := id_at h <$> a).
  destruct (not_yet_seen_fresh h b seen) as [Hfresh Hnd].
  split; [by eexists|]. split; [|split].
  - apply sublist_app; [reflexivity | apply not_yet_seen_sublist].
  - intros p [Hp|Hp]%elem_of_app; rewrite fmap_app; apply elem_of_app.
    + left. apply list_elem_of_fmap. eauto.
    + destruct (not_yet_seen_covers h b seen p Hp); auto.
  - intros Ha. rewrite fmap_app. apply NoDup_app. split; [exact Ha|].
    split; [|exact Hnd].
    intros i Hi (q & -> & Hq)%list_elem_of_fmap. by apply Hfresh in Hq.
Qed.

(** X10: merging is idempotent: the merged list merged again with the second
    list, or with the empty list, is the merged list, and a list merged with
    itself is that list. *)
Theorem merge_is_idempotent a b s pool s' :
  _merge_track_lists a b s = Some (pool, s') ->
  _merge_track_lists pool b s = Some (pool, s) /\
  _merge_track_lists pool [] s = Some (pool, s) /\
  _merge_track_lists a a s = Some (a, s).
Proof.
  intros H.
  assert (Hab : below (length (heap s)) (a ++ b)).
  { apply _merge_track_lists_is_Some. eauto. }
  apply _merge_track_lists_Some in H as (-> & ->).
  set (h := heap s) in *. set (seen := id_at h <$> a) in *.
  apply Forall_app in Hab as [Ha Hb].
  assert (Hn : below (length h) (not_yet_seen h seen b)).
  { unfold below in *. rewrite Forall_forall in Hb |- *.
    intros p Hp. by apply Hb, (not_yet_seen_subseteq h b seen). }
  assert (Hgen : forall l r, below (length h) l -> below (length h) r ->
            (forall p, p ∈ r -> id_at h p ∈ id_at h <$> l) ->
            _merge_track_lists l r s = Some (l, s)).
  { intros l r Hl Hr Hall.
    destruct (proj2 (_merge_track_lists_is_Some l r s)) as [[pool s'] E].
    { apply Forall_app. auto. }
    rewrite E. apply _merge_track_lists_Some in E as (-> & ->).
    fold h. rewrite (not_yet_seen_all_seen h r _ Hall), app_nil_r. reflexivity. }
  split; [|split].
  - apply Hgen; [apply Forall_app; auto | exact Hb |].
    intros p Hp. rewrite fmap_app. apply elem_of_app.
    destruct (not_yet_seen_covers h b seen p Hp); auto.
  - apply Hgen; [apply Forall_app; auto | constructor |].
    intros p Hp. by apply elem_of_nil in Hp.
  - apply Hgen; [exact Ha | exact Ha |].
    intros p Hp. apply list_elem_of_fmap. eauto.
Qed.

End Merge.

(** ** The clamping of the boxes *)

Section Rounding.

Lemma shr_1_nonneg mrs : 0 <= shr_m mrs -> 0 <= shr_m (shr_1 mrs).
Proof.
  destruct mrs as [m r s]. simpl. intros Hm.
  destruct m as [|p|p]; [simpl; lia | destruct p; simpl; lia | lia].
Qed.

Lemma iter_shr_1_nonneg p : forall mrs,
  0 <= shr_m mrs -> 0 <= shr_m (SpecFloat.iter_pos shr_1 p mrs).
Proof.
  induction p as [p IH|p IH|]; intros mrs Hm; simpl.
  - apply IH, IH, shr_1_nonneg, Hm.
  - apply IH, IH, Hm.
  - apply shr_1_nonneg, Hm.
Qed.

Lemma shr_fexp_nonneg prec emax m e l :
  0 <= m -> 0 <= shr_m (fst (shr_fexp prec emax m e l)).
Proof.
  intros Hm. unfold shr_fexp, shr.
  assert (H0 : 0 <= shr_m (shr_record_of_loc m l))
    by (destruct l as [|[]]; exact Hm).
  destruct (fexp prec emax (Zdigits2 m + e) - e); simpl; auto.
  by apply iter_shr_1_nonneg.
Qed.

Lemma round_nearest_even_nonneg mx lx : 0 <= mx -> 0 <= round_nearest_even mx lx.
Proof.
  intros Hm. unfold round_nearest_even.
  destruct lx as [|[]]; try destruct (Z.even mx); lia.
Qed.

(** Rounding a non-negative mantissa never gives a NaN. *)
Lemma binary_round_aux_not_nan prec emax sx mx ex lx :
  0 <= mx -> is_nan (binary_round_aux prec emax sx mx ex lx) = false.
Proof.
  intros Hm. unfold binary_round_aux.
  pose proof (shr_fexp_nonneg prec emax mx ex lx Hm) as H1.
  destruct (shr_fexp prec emax mx ex lx) as [mrs' e']. simpl in H1.
  pose proof (shr_fexp_nonneg prec emax _ e' loc_Exact
                (round_nearest_even_nonneg _ (loc_of_shr_record mrs') H1)) as H2.
  destruct (shr_fexp prec emax _ e' loc_Exact) as [mrs'' e'']. simpl in H2.
  destruct (shr_m mrs'') as [|m|m]; [reflexivity | | lia].
  destruct (e'' <=? emax - prec); reflexivity.
Qed.

(** The conversion of an [int] to [float] is never a NaN. *)
Lemma f32_of_int_not_nan i : is_nan (f32_of_int i) = false.
Proof.
  unfold f32_of_int, binary_normalize.
  destruct i as [|p|p]; [reflexivity | |]; unfold binary_round;
    destruct (shl_align _ _ _) as [mz ez];
    apply binary_round_aux_not_nan; lia.
Qed.

End Rounding.

Section Clamping.

Lemma float_lt_asym a b : lt a b = true -> lt b a = false.
Proof.
  unfold lt, SFltb. rewrite (SFcompare_antisym a b).
  destruct (SFcompare a b) as [[]|]; simpl; congruence.
Qed.

Lemma float_lt_irrefl a : lt a a = false.
Proof.
  destruct (lt a a) eqn:E; [|reflexivity].
  pose proof (float_lt_asym _ _ E). congruence.
Qed.

Lemma float_lt_le a b : lt a b = true -> le a b = true.
Proof.
  unfold lt, le, SFltb, SFleb. destruct (SFcompare a b) as [[]|]; congruence.
Qed.

Lemma float_lt_not_nan a b : lt a b = true -> is_nan a = false /\ is_nan b = false.
Proof.
  unfold lt, SFltb. destruct a, b; simpl; try discriminate; auto.
Qed.

Lemma float_le_refl a : is_nan a = false -> le a a = true.
Proof.
  unfold le, SFleb. destruct a as [s|s| |s m e]; try discriminate; intros _; simpl.
  - reflexivity.
  - destruct s; reflexivity.
  - destruct s; rewrite Z.compare_refl, Pos.compare_cont_refl; reflexivity.
Qed.

(** [std::max(0.0f, v)] is never a NaN, is at least 0, and is left alone by
    a second [std::max]. *)
Lemma std_max_zero v :
  is_nan (std_max zero_f v) = false /\
  ge (std_max zero_f v) zero_f = true /\
  std_max zero_f (std_max zero_f v) = std_max zero_f v.
Proof.
  unfold std_max. destruct (lt zero_f v) eqn:E.
  - rewrite E. split; [apply (float_lt_not_nan _ _ E)|]. split; [|reflexivity].
    by apply float_lt_le in E.
  - rewrite float_lt_irrefl. auto.
Qed.

(** [std::min(c, v)] is [c] when [v] is a NaN, is at most [c] when [c] is
    not a NaN, and is left alone by a second [std::min]. *)
Lemma std_min_bound c v :
  is_nan c = false ->
  is_nan (std_min c v) = false /\
  le (std_min c v) c = true /\
  std_min c (std_min c v) = std_min c v /\
  (is_nan v = true -> std_min c v = c).
Proof.
  intros Hc. unfold std_min. destruct (lt v c) eqn:E.
  - rewrite E. split; [apply (float_lt_not_nan _ _ E)|]. split; [by apply float_lt_le|].
    split; [reflexivity|]. intros Hv. apply float_lt_not_nan in E as [E _]. congruence.
  - rewrite float_lt_irrefl. split; [exact Hc|]. split; [by apply float_le_refl|]. auto.
Qed.

(** The clamping is idempotent. *)
Lemma clamp_idempotent frame d : clamp frame (clamp frame d) = clamp frame d.
Proof.
  unfold clamp. simpl.
  destruct (std_max_zero (x (bbox_tlwh d))) as (_ & _ & ->).
  destruct (std_max_zero (y (bbox_tlwh d))) as (_ & _ & ->).
  destruct (std_min_bound (f32_of_int (cols frame - 1)) (width (bbox_tlwh d))
              (f32_of_int_not_nan _)) as (_ & _ & -> & _).
  destruct (std_min_bound (f32_of_int (rows frame - 1)) (height (bbox_tlwh d))
              (f32_of_int_not_nan _)) as (_ & _ & -> & _).
  reflexivity.
Qed.

Lemma clamp_clamped frame d :
  clamped (f32_of_int (cols frame - 1)) (f32_of_int (rows frame - 1))
          (bbox_tlwh (clamp frame d)).
Proof.
  unfold clamped, clamp. simpl.
  destruct (std_max_zero (x (bbox_tlwh d))) as (? & ? & _).
  destruct (std_max_zero (y (bbox_tlwh d))) as (? & ? & _).
  destruct (std_min_bound (f32_of_int (cols frame - 1)) (width (bbox_tlwh d))
              (f32_of_int_not_nan _)) as (? & ? & _).
  destruct (std_min_bound (f32_of_int (rows frame - 1)) (height (bbox_tlwh d))
              (f32_of_int_not_nan _)) as (? & ? & _).
  auto 10.
Qed.

End Clamping.

Section ClampedDetections.

Context {GlobalMotionCompensation : Type}.
Context {C : Collaborators GlobalMotionCompensation}.
Implicit Types (self : @BoTSORT GlobalMotionCompensation).

(** X3: after a call of track that returns, no component of the box of a
    detection of the caller's vector is a NaN, x and y are at least 0, the
    width is at most cols - 1 and the height at most rows - 1; a NaN width
    or height has become cols - 1 or rows - 1, a NaN x or y has become 0.
    Nothing bounds the width and the height from below, nor x + width and
    y + height from above. *)
Theorem track_leaves_clamped_boxes self dets frame s fr s' :
  track self dets frame s = Some (fr, s') ->
  Forall (fun d' => clamped (f32_of_int (cols frame - 1))
                            (f32_of_int (rows frame - 1)) (bbox_tlwh d'))
         (detections_after fr) /\
  forall i d d', dets !! i = Some d -> detections_after fr !! i = Some d' ->
    (is_nan (x (bbox_tlwh d)) = true -> x (bbox_tlwh d') = zero_f) /\
    (is_nan (y (bbox_tlwh d)) = true -> y (bbox_tlwh d') = zero_f) /\
    (is_nan (width (bbox_tlwh d)) = true ->
     width (bbox_tlwh d') = f32_of_int (cols frame - 1)) /\
    (is_nan (height (bbox_tlwh d)) = true ->
     height (bbox_tlwh d') = f32_of_int (rows frame - 1)).
Proof.
  intros H. apply track_create_tracklets in H as (-> & _). split.
  - apply Forall_forall. intros d' (d & -> & _)%list_elem_of_fmap.
    apply clamp_clamped.
  - intros i d d' Hd Hd'. rewrite list_lookup_fmap, Hd in Hd'.
    injection Hd' as <-. unfold clamp. simpl.
    repeat split; intros Hnan.
    + destruct (x (bbox_tlwh d)); try discriminate Hnan. reflexivity.
    + destruct (y (bbox_tlwh d)); try discriminate Hnan. reflexivity.
    + by apply std_min_bound; [apply f32_of_int_not_nan|].
    + by apply std_min_bound; [apply f32_of_int_not_nan|].
Qed.

(** X4: the clamping is idempotent: when the vector a call of track has
    clamped is given to a second call with a frame of the same size, the
    second call leaves every detection of the vector as it is. *)
Theorem second_call_leaves_clamped_detections
    self dets frame s fr s' self2 frame2 s2 fr2 s2' :
  track self dets frame s = Some (fr, s') ->
  cols frame2 = cols frame -> rows frame2 = rows frame ->
  track self2 (detections_after fr) frame2 s2 = Some (fr2, s2') ->
  detections_after fr2 = detections_after fr.
Proof.
  intros H Hc Hr H2.
  apply track_create_tracklets in H as (E & _).
  apply track_create_tracklets in H2 as (E2 & _).
  rewrite E2, E. rewrite <- list_fmap_compose.
  apply list_fmap_ext. intros i d _. simpl.
  assert (Hf : clamp frame2 = clamp frame).
  { unfold clamp. by rewrite Hc, Hr. }
  rewrite Hf. apply clamp_idempotent.
Qed.

End ClampedDetections.

(** ** When a call has a result *)

Section Defined.

Context {GlobalMotionCompensation : Type}.
Context {C : Collaborators GlobalMotionCompensation}.
Implicit Types (self : @BoTSORT GlobalMotionCompensation).

(** The detection loop gets through when, with Re-ID, there is a model and
    the patch of every clamped box can be cut out of the frame. *)
Lemma create_tracklets_runs self dets frame s :
  (_reid_enabled self = true ->
   is_Some (_reid_model self) /\
   Forall (fun d => is_Some (Mat_roi frame (bbox_tlwh (clamp frame d)))) dets) ->
  exists dl s1, create_tracklets self dets frame s = Some (dl, s1).
Proof.
  intros Hreid. unfold create_tracklets.
  destruct (0 <? length dets)%nat; [|eauto].
  destruct (runs_for_each 0 (fun i => (i < length dets)%nat)
              (fun st => length (dl_detections st) = length dets /\
                         (_reid_enabled self = true ->
                          Forall (fun d => is_Some (Mat_roi frame
                                                      (bbox_tlwh (clamp frame d))))
                                 (dl_detections st)))
              (seq 0 (length dets)) (detection_body self frame))
    with (st := {| dl_detections := dets; dl_high := []; dl_low := [] |}) (s := s)
    as (dl & s1 & E & _); [| | | lia | eauto].
  - intros i st Hi [Hlen Hroi] s0 Hs0. unfold detection_body.
    destruct (dl_detections st !! i) as [d|] eqn:Hd;
      [| apply lookup_ge_None in Hd; lia].
    cbv zeta.
    assert (Hinv : length (<[i := clamp frame d]> (dl_detections st)) = length dets /\
                   (_reid_enabled self = true ->
                    Forall (fun d => is_Some (Mat_roi frame
                                                (bbox_tlwh (clamp frame d))))
                           (<[i := clamp frame d]> (dl_detections st)))).
    { split; [by rewrite length_insert|]. intros Hon.
      apply Forall_insert; [by apply Hroi|].
      rewrite clamp_idempotent. specialize (Hroi Hon).
      rewrite Forall_forall in Hroi. apply Hroi.
      eapply list_elem_of_lookup_2; eassumption. }
    assert (Htr : exists p s1,
      (if _reid_enabled self then
         embedding <~ _extract_features self frame (bbox_tlwh (clamp frame d)) ;;
         new_Track (Track_new [x (bbox_tlwh (clamp frame d));
                               y (bbox_tlwh (clamp frame d));
                               width (bbox_tlwh (clamp frame d));
                               height (bbox_tlwh (clamp frame d))]
                              (confidence (clamp frame d))
                              (class_id (clamp frame d)) (Some embedding))
       else
         new_Track (Track_new [x (bbox_tlwh (clamp frame d));
                               y (bbox_tlwh (clamp frame d));
                               width (bbox_tlwh (clamp frame d));
                               height (bbox_tlwh (clamp frame d))]
                              (confidence (clamp frame d))
                              (class_id (clamp frame d)) None)) s0 = Some (p, s1)).
    { destruct (_reid_enabled self) eqn:Hon; [|unfold new_Track; eauto].
      destruct (Hreid eq_refl) as [[model Hmodel] _].
      pose proof (Hroi eq_refl) as Hall.
      rewrite Forall_forall in Hall.
      destruct (Hall d) as [patch Hpatch];
        [eapply list_elem_of_lookup_2; eassumption|].
      unfold bind, _extract_features. rewrite Hpatch, Hmodel.
      unfold bind, call, ret, new_Track. eauto. }
    destruct Htr as (p & s1 & Etr). unfold bind at 1. rewrite Etr.
    destruct (ge _ _); [| destruct (_ && _)];
      eexists _, _; (split; [reflexivity|]); (split; [lia|]); exact Hinv.
  - apply Forall_forall. intros i Hi%elem_of_seq. lia.
  - split; [reflexivity|]. intros Hon. by apply Hreid.
Qed.

Context {L : Lawful C}.

(** Once the tracklets are in the store, the rest of the call gets through
    when the pools hold cells of the store. *)
Lemma track_body_runs_after_tracklets self dets frame s dl s1 :
  create_tracklets self dets frame s = Some (dl, s1) ->
  below (length (heap s)) (_tracked_tracks self) ->
  below (length (heap s)) (_lost_tracks self) ->
  exists fr s', track_body self dets frame s = Some (fr, s').
Proof.
  intros E1 Htr Hlo. unfold track_body.
  destruct (create_tracklets_Some _ _ _ _ _ _ E1) as (_ & Eh & El & tl & Eheap & Hlen).
  assert (Hn : length (heap s1) = (length (heap s) + length dets)%nat)
    by (rewrite Eheap, length_app; lia).
  assert (Hhigh : below (length (heap s1)) (dl_high dl))
    by (rewrite Eh, Hn; apply tracklets_where_below).
  assert (Hlow : below (length (heap s1)) (dl_low dl))
    by (rewrite El, Hn; apply tracklets_where_below).
  apply (below_mono _ (length (heap s1))) in Htr; [|lia].
  apply (below_mono _ (length (heap s1))) in Hlo; [|lia].
  unfold bind at 1. rewrite E1.
  apply (runs_defined (length (heap s1)) _ (fun _ => True)); [|reflexivity].
  eapply runs_bind; [apply runs_segregate; exact Htr|]. intros seg [Hu Ht].
  eapply runs_bind; [apply runs_merge; [exact Ht | exact Hlo]|]. intros pool Hpool.
  eapply runs_bind; [by apply runs_multi_predict|]. intros _ _. cbv zeta.
  eapply runs_bind; [by apply runs_multi_gmc|]. intros _ _.
  eapply runs_bind; [by apply runs_multi_gmc|]. intros _ _.
  eapply runs_bind; [by apply runs_first_association|]. intros fa [Hm Hun].
  eapply runs_bind; [by apply runs_update_matched|]. intros u1 _.
  eapply runs_bind; [by apply runs_still_tracked|]. intros unm Hunm.
  eapply runs_bind; [by apply runs_second_association|]. intros sec [Em Eu].
  rewrite Em, Eu. unfold update_matched. cbn [for_each].
  eapply (runs_bind _ _ _ (fun _ => True)); [apply runs_ret; exact I|].
  intros u2 _.
  eapply (runs_bind _ _ _ (fun _ => True)); [apply runs_ret; exact I|].
  intros lost _.
  by apply runs_ret.
Qed.

(** X20: a call of track has a defined result when the collaborators keep the
    shapes of the cost matrices and the solver reports rows and columns of
    the matrix it is given, the two pools hold pointers to objects of the
    store, and, with Re-ID enabled, there is a model and the patch of every
    clamped box can be cut out of the frame. *)
Theorem track_returns_for_lawful_collaborators self dets frame s :
  below (length (heap s)) (_tracked_tracks self ++ _lost_tracks self) ->
  (_reid_enabled self = true ->
   is_Some (_reid_model self) /\
   Forall (fun d => is_Some (Mat_roi frame (bbox_tlwh (clamp frame d)))) dets) ->
  exists fr s', track self dets frame s = Some (fr, s').
Proof.
  intros [Htr Hlo]%Forall_app Hreid. unfold track.
  destruct (create_tracklets_runs (next_frame self) dets frame s Hreid)
    as (dl & s1 & E1).
  eapply track_body_runs_after_tracklets; eassumption.
Qed.

End Defined.

(** ** What the first association solves *)

Section FirstAssociationInput.

Context {GlobalMotionCompensation : Type}.
Context {C : Collaborators GlobalMotionCompensation}.
Implicit Types (self : @BoTSORT GlobalMotionCompensation).

(** A batched operation on pairwise distinct tracks rewrites each of them
    once, and nothing else. *)
Lemma for_each_store (f : Track -> Track) ps : forall s s',
  for_each ps (fun p _ => t <~ deref p ;; store p (f t)) tt s = Some (tt, s') ->
  NoDup ps ->
  forall q, heap s' !! q = if decide (q ∈ ps) then f <$> heap s !! q
                           else heap s !! q.
Proof.
  induction ps as [|p ps IH]; intros s s' H Hnd q; cbn [for_each] in H.
  - apply ret_Some in H. injection H as <-.
    rewrite decide_False by apply not_elem_of_nil. reflexivity.
  - apply NoDup_cons in Hnd as [Hp Hnd].
    run_step H. run_step Hrun.
    apply deref_Some in Hrun0 as (t & Ht & [= -> ->]).
    apply store_Some in Hrun as (_ & [= _ ->]).
    destruct a. rewrite (IH _ _ H Hnd q). cbn [heap].
    destruct (decide (q = p)) as [->|Hq].
    + rewrite decide_False by exact Hp.
      rewrite decide_True by apply list_elem_of_here.
      rewrite list_lookup_insert_eq by (eapply lookup_lt_Some; eassumption).
      unfold ptr in *. by rewrite Ht.
    + rewrite list_lookup_insert_ne by congruence.
      destruct (decide (q ∈ ps)) as [Hin|Hin].
      * rewrite decide_True by (by apply list_elem_of_further). reflexivity.
      * rewrite decide_False; [reflexivity|].
        intros [?|?]%elem_of_cons; contradiction.
Qed.

Lemma multi_predict_store ps kf s s' :
  multi_predict ps kf s = Some (tt, s') -> NoDup ps ->
  forall q, heap s' !! q = if decide (q ∈ ps) then Track_predict kf <$> heap s !! q
                           else heap s !! q.
Proof.
  unfold multi_predict. intros H Hnd. run_step H. run_inv.
  intros q. by rewrite (for_each_store _ _ _ _ H Hnd q).
Qed.

Lemma multi_gmc_store ps Hm s s' :
  multi_gmc ps Hm s = Some (tt, s') -> NoDup ps ->
  forall q, heap s' !! q = if decide (q ∈ ps) then Track_gmc Hm <$> heap s !! q
                           else heap s !! q.
Proof.
  unfold multi_gmc. intros H Hnd. run_step H. run_inv.
  intros q. by rewrite (for_each_store _ _ _ _ H Hnd q).
Qed.

(** The objects behind the tracklets of the detections that satisfy [P], in
    a store that holds one tracklet for each detection behind [pre]. *)
Lemma tracklets_where_objects (P : Detection -> bool) (f : Detection -> Track)
    dets : forall (pre h objs : list Track),
  (forall i, (length pre <= i)%nat -> h !! i = (pre ++ (f <$> dets)) !! i) ->
  Forall2 (fun p t => h !! p = Some t)
          (tracklets_where P (length pre) dets) objs ->
  objs = f <$> filter (fun d => P d = true) dets.
Proof.
  induction dets as [|d dets IH]; intros pre h objs Hh H; cbn [tracklets_where] in H.
  - by apply Forall2_nil_inv_l in H.
  - assert (Hh' : forall i, (length (pre ++ [f d]) <= i)%nat ->
                    h !! i = ((pre ++ [f d]) ++ (f <$> dets)) !! i).
    { intros i Hi. rewrite length_app in Hi. simpl in Hi.
      rewrite Hh by lia. by rewrite fmap_cons, <- app_assoc. }
    assert (Hlen : S (length pre) = length (pre ++ [f d]))
      by (rewrite length_app; simpl; lia).
    rewrite Hlen in H. rewrite filter_cons.
    destruct (P d) eqn:EP.
    + apply Forall2_cons_inv_l in H as (t & objs' & Ht & H & ->).
      rewrite decide_True by reflexivity. rewrite fmap_cons.
      rewrite Hh in Ht by lia.
      rewrite lookup_app_r, Nat.sub_diag in Ht by lia.
      injection Ht as <-. f_equal. by apply (IH _ _ _ Hh').
    + rewrite decide_False by congruence. by apply (IH _ _ _ Hh').
Qed.

(** The first association on the objects of its two lists. *)
Lemma first_association_Some self pool high s fa s' :
  first_association self pool high s = Some (fa, s') ->
  exists pool_objs high_objs,
    Forall2 (fun p t => heap s !! p = Some t) pool pool_objs /\
    Forall2 (fun p t => heap s !! p = Some t) high high_objs /\
    fa = linear_assignment
           (fuse_iou_with_emb
              (fuse_score (iou_distance pool_objs high_objs) high_objs)
              (if _reid_enabled self
               then fuse_motion (_kalman_filter self)
                      (embedding_distance pool_objs high_objs)
                      pool_objs high_objs false (_lambda self)
               else CostMatrix_default)
              (_proximity_thresh self) (_appearance_thresh self))
           (_match_thresh self).
Proof.
  unfold first_association. intros H.
  run_step H. apply deref_all_Some in Hrun as [-> Hp].
  run_step H. apply deref_all_Some in Hrun as [-> Hh].
  cbv zeta in H. run_inv. eauto.
Qed.

(** X12: when every track is in one pool, once, and the pools hold tracks that
    existed before the call, the first association of a call of track that
    returns solves, with the threshold match_thresh, the matrix
    fuse_iou_with_emb(fuse_score(iou_distance(T, D), D), E, proximity_thresh,
    appearance_thresh), where T holds, for each track of the prediction
    pool, in order, the object it was before the call, predicted once and
    then compensated once with the homography of the frame; D holds the
    tracklets of the detections whose confidence is at least
    track_high_thresh, in the order of the detections; and E is the
    default-constructed matrix without Re-ID, and
    fuse_motion(kalman_filter, embedding_distance(T, D), T, D, false, lambda)
    with Re-ID. *)
Theorem first_association_compares_predicted_tracks_with_high_detections
    self dets frame s fr s' :
  track self dets frame s = Some (fr, s') ->
  NoDup (_tracked_tracks self ++ _lost_tracks self) ->
  below (length (heap s)) (_tracked_tracks self ++ _lost_tracks self) ->
  let Hm := fst (gmc_apply (_gmc_algo self) frame (map (clamp frame) dets)) in
  let D := (fun d => tracklet_of self (clamp frame d)) <$>
             filter (fun d => is_high (_track_high_thresh self) d = true) dets in
  exists T,
    Forall2 (fun p t => exists t0, heap s !! p = Some t0 /\
               t = Track_gmc Hm (Track_predict (_kalman_filter self) t0))
            (tracks_pool (locals fr)) T /\
    first_associations (locals fr)
    = linear_assignment
        (fuse_iou_with_emb
           (fuse_score (iou_distance T D) D)
           (if _reid_enabled self
            then fuse_motion (_kalman_filter self) (embedding_distance T D)
                             T D false (_lambda self)
            else CostMatrix_default)
           (_proximity_thresh self) (_appearance_thresh self))
        (_match_thresh self).
Proof.
  intros H Hnd Hbelow. cbv zeta. unfold track in H.
  pose proof (track_body_pools _ _ _ _ _ _ H) as (Hpool & Hunc & _).
  apply track_body_inv in H
    as (dl & s1 & seg & s2 & pool & s3 & s4 & s5 & s6 & fa & s7 & u1 & s8 & unm
        & s9 & sec & s10 & u2 & s11 & lost & H1 & H2 & H3 & H4 & H5 & H6 & H7
        & _ & _ & _ & _ & _ & _ & _ & _ & _ & _ & Hloc).
  rewrite Hloc in *.
  cbn [locals tracks_pool unconfirmed_tracks first_associations] in *.
  change (_tracked_tracks (next_frame self)) with (_tracked_tracks self) in *.
  change (_lost_tracks (next_frame self)) with (_lost_tracks self) in *.
  change (_gmc_algo (next_frame self)) with (_gmc_algo self) in *.
  change (_kalman_filter (next_frame self)) with (_kalman_filter self) in *.
  pose proof (create_tracklets_Some _ _ _ _ _ _ H1) as (Edl & Ehigh & _).
  apply create_tracklets_store in H1 as (Eh1 & _ & _).
  change (tracklet_of (next_frame self)) with (tracklet_of self) in Eh1.
  change (_track_high_thresh (next_frame self)) with (_track_high_thresh self) in Ehigh.
  rewrite Edl in *.
  pose proof (segregate_Some _ _ _ _ H2) as (-> & Eu & Et).
  pose proof (_merge_track_lists_Some _ _ _ _ _ H3) as (-> & Epool).
  change (_tracked_tracks (next_frame self)) with (_tracked_tracks self) in *.
  change (_lost_tracks (next_frame self)) with (_lost_tracks self) in *.
  (* the pool and the unconfirmed tracks have no track twice, and share none *)
  assert (Hnd_pool : NoDup pool).
  { apply (sublist_NoDup pool (_tracked_tracks self ++ _lost_tracks self));
      [exact Hnd|].
    rewrite Epool, Et. apply sublist_app;
      [apply sublist_filter | apply not_yet_seen_sublist]. }
  assert (Hnd_unc : NoDup (fst seg)).
  { rewrite Eu. apply NoDup_filter. by apply NoDup_app in Hnd as (? & _). }
  assert (Hdisj : forall p, p ∈ pool -> p ∉ fst seg).
  { intros p Hp Hu. rewrite Eu in Hu. apply list_elem_of_filter in Hu as [Hact Htr].
    rewrite Epool in Hp. apply elem_of_app in Hp as [Hp|Hp].
    - rewrite Et in Hp. apply list_elem_of_filter in Hp as [Hact' _]. congruence.
    - apply not_yet_seen_subseteq in Hp.
      apply NoDup_app in Hnd as (_ & Hd & _). by apply (Hd p). }
  pose proof (multi_predict_store _ _ _ _ H4 Hnd_pool) as E4.
  pose proof (multi_gmc_store _ _ _ _ H5 Hnd_pool) as E5.
  pose proof (multi_gmc_store _ _ _ _ H6 Hnd_unc) as E6.
  apply first_association_Some in H7 as (T & D & HT & HD & ->).
  change (_reid_enabled (next_frame self)) with (_reid_enabled self).
  change (_lambda (next_frame self)) with (_lambda self).
  change (_proximity_thresh (next_frame self)) with (_proximity_thresh self).
  change (_appearance_thresh (next_frame self)) with (_appearance_thresh self).
  change (_match_thresh (next_frame self)) with (_match_thresh self).
  assert (Hold : forall p, p ∈ pool \/ p ∈ fst seg -> (p < length (heap s))%nat).
  { intros p Hp. apply (below_elem_of _ _ _ Hbelow).
    destruct Hp as [Hp|Hp]; [by apply Hpool|].
    apply elem_of_app. left. by apply Hunc. }
  assert (ED : D = (fun d => tracklet_of self (clamp frame d)) <$>
                     filter (fun d => is_high (_track_high_thresh self) d = true) dets).
  { rewrite Ehigh in HD.
    apply (tracklets_where_objects _ _ _ (heap s) (heap s6)); [|exact HD].
    assert (Eh1' : heap s1 = heap s ++ ((fun d => tracklet_of self (clamp frame d))
                                          <$> dets))
      by (rewrite Eh1, <- list_fmap_compose; reflexivity).
    intros i Hi. rewrite E6, E5, E4, <- Eh1'.
    rewrite !decide_False; [reflexivity | ..];
      intros Hin; (assert (i < length (heap s))%nat by (apply Hold; auto)); lia. }
  subst D. exists T. split; [|reflexivity].
  apply Forall2_same_length_lookup. split; [by eapply Forall2_length|].
  intros i p t Hp Ht.
  pose proof (Forall2_lookup_lr _ _ _ _ _ _ HT Hp Ht) as Hpt.
  apply list_elem_of_lookup_2 in Hp. unfold ptr in *.
  rewrite E6, decide_False in Hpt by (by apply Hdisj).
  rewrite E5, decide_True in Hpt by exact Hp.
  rewrite E4, decide_True in Hpt by exact Hp.
  rewrite Eh1, lookup_app_l in Hpt by (apply Hold; auto).
  destruct (heap s !! p) as [t0|]; [|discriminate Hpt].
  injection Hpt as <-. eauto.
Qed.

End FirstAssociationInput.

(** ** The two lists of tracklets and the second association *)

Section TwoLists.

Context {GlobalMotionCompensation : Type}.
Context {C : Collaborators GlobalMotionCompensation}.
Implicit Types (self : @BoTSORT GlobalMotionCompensation).

Lemma tracklets_where_sublist P dets : forall base,
  tracklets_where P base dets `sublist_of` seq base (length dets).
Proof.
  induction dets as [|d dets IH]; intros base; simpl; [constructor|].
  destruct (P d); [apply sublist_skip | apply sublist_cons]; apply IH.
Qed.

(** A tracklet of the list is the tracklet of a detection that satisfies
    [P]. *)
Lemma tracklets_where_elem_of P dets : forall base p,
  p ∈ tracklets_where P base dets ->
  exists i d, p = (base + i)%nat /\ dets !! i = Some d /\ P d = true.
Proof.
  induction dets as [|d dets IH]; intros base p Hp; simpl in Hp;
    [by apply elem_of_nil in Hp|].
  assert (Hrest : p ∈ tracklets_where P (S base) dets ->
            exists i d0, p = (base + i)%nat /\ (d :: dets) !! i = Some d0 /\ P d0 = true).
  { intros (i & d0 & -> & Hd & HP)%IH. exists (S i), d0.
    split; [lia | auto]. }
  destruct (P d) eqn:EP; [|auto].
  apply elem_of_cons in Hp as [->|Hp]; [|auto].
  exists 0%nat, d. split; [lia | auto].
Qed.

(** X21: for a call of track that returns, the high-confidence list and the
    low-confidence list follow the order of the detections: each is a
    sub-sequence of the tracklets of the frame, taken in the order of the
    caller's vector.  No tracklet is in both lists, and none is in a list
    twice. *)
Theorem the_two_lists_follow_the_order_of_the_detections
    self dets frame s fr s' :
  track self dets frame s = Some (fr, s') ->
  let tracklets := seq (length (heap s)) (length dets) in
  detections_high_conf (locals fr) `sublist_of` tracklets /\
  detections_low_conf (locals fr) `sublist_of` tracklets /\
  (forall p, p ∈ detections_high_conf (locals fr) ->
             p ∉ detections_low_conf (locals fr)) /\
  NoDup (detections_high_conf (locals fr) ++ detections_low_conf (locals fr)).
Proof.
  intros H. apply track_create_tracklets in H as (_ & -> & ->). cbv zeta.
  set (base := length (heap s)). set (thresh := _track_high_thresh self).
  assert (Hh := tracklets_where_sublist (is_high thresh) dets base).
  assert (Hl := tracklets_where_sublist (is_low thresh) dets base).
  assert (Hdisj : forall p, p ∈ tracklets_where (is_high thresh) base dets ->
            p ∉ tracklets_where (is_low thresh) base dets).
  { intros p (i & d & -> & Hd & Hhigh)%tracklets_where_elem_of
             (j & d' & Eij & Hd' & Hlow)%tracklets_where_elem_of.
    assert (j = i) as -> by lia. rewrite Hd in Hd'. injection Hd' as <-.
    unfold is_high in Hhigh. unfold is_low in Hlow.
    rewrite Hhigh in Hlow. discriminate Hlow. }
  split; [exact Hh|]. split; [exact Hl|]. split; [exact Hdisj|].
  apply NoDup_app. split; [|split; [exact Hdisj|]].
  - eapply sublist_NoDup; [apply NoDup_seq | exact Hh].
  - eapply sublist_NoDup; [apply NoDup_seq | exact Hl].
Qed.

(** X22: when the solver reports no index on the matrix without rows and
    columns, the second association of every call of track that returns has
    no match and no unmatched track: no track is marked Lost, and every
    update and every re-activation of the call is stamped with the frame of
    the call and takes its detection from the high-confidence list; a
    low-confidence detection updates no track. *)
Theorem low_confidence_detections_update_no_track self dets frame s fr s' :
  in_range CostMatrix_default (linear_assignment CostMatrix_default lit_0_5) ->
  track self dets frame s = Some (fr, s') ->
  let l := locals fr in
  matches (second_associations l) = [] /\
  unmatched_track_indices (second_associations l) = [] /\
  lost_tracks l = [] /\
  exists added,
    calls s' = calls s ++ added /\
    Forall (fun c => ~ is_mark_lost c /\
                     stamped (_frame_id self + 1) (detections_high_conf l) c)
           added.
Proof.
  intros [Hm Hu] H. cbv zeta.
  assert (Em : matches (linear_assignment CostMatrix_default lit_0_5) = []).
  { destruct (matches _) as [|m ms]; [reflexivity|].
    apply Forall_cons in Hm as [[Hm _] _]. simpl in Hm. lia. }
  assert (Eu : unmatched_track_indices
                 (linear_assignment CostMatrix_default lit_0_5) = []).
  { destruct (unmatched_track_indices _) as [|r rs]; [reflexivity|].
    apply Forall_cons in Hu as [Hu _]. simpl in Hu. lia. }
  pose proof (track_second_association _ _ _ _ _ _ H) as [_ Esec].
  pose proof (track_marks_nothing_lost _ _ _ _ _ _ Eu H) as Elost.
  rewrite Esec. split; [exact Em|]. split; [exact Eu|]. split; [exact Elost|].
  pose proof H as Hlog. unfold track in Hlog. apply track_body_calls in Hlog
    as (cost & ups1 & ups2 & marks & E & _ & _ & F1 & L2 & _ & _ & S1 & _ & L3).
  cbv zeta in E, L2, L3, S1. unfold track in Esec.
  change (_frame_id (next_frame self)) with (_frame_id self + 1) in S1.
  rewrite Esec, Em in L2. rewrite Esec, Eu in L3.
  destruct ups2; [|discriminate L2].
  destruct marks; [|simpl in L3; lia].
  eexists. split; [exact E|].
  apply Forall_app. split.
  { unfold feature_calls. destruct (_reid_enabled _); [|constructor].
    apply Forall_forall. intros c [-> _]%elem_of_replicate.
    split; [simpl; tauto | exact I]. }
  apply Forall_app. split; [repeat constructor; simpl; tauto|].
  apply Forall_app. split.
  { rewrite Forall_forall in F1, S1 |- *. intros c Hc. split; [|by apply S1].
    apply F1 in Hc. destruct c; simpl in *; tauto. }
  repeat constructor; simpl; tauto.
Qed.

End TwoLists.

(** ** The log of a call determines its store *)

Section ReplayFacts.

Context {GlobalMotionCompensation : Type}.
Context {C : Collaborators GlobalMotionCompensation}.
Implicit Types (self : @BoTSORT GlobalMotionCompensation).

Context (kf : KalmanFilter).

Lemma replay_app cs1 cs2 h :
  replay kf (cs1 ++ cs2) h = replay kf cs2 (replay kf cs1 h).
Proof. unfold replay. apply foldl_app. Qed.

Lemma replay_snoc cs c h :
  replay kf (cs ++ [c]) h = apply_call kf c (replay kf cs h).
Proof. by rewrite replay_app. Qed.

Lemma replays_ret {A} (a : A) : replays kf (ret a).
Proof. intros s a' s' [= _ <-]. exists []. by rewrite app_nil_r. Qed.

Lemma replays_undefined {A} : replays kf (@undefined A).
Proof. intros s a s' [=]. Qed.

Lemma replays_bind {A B} (m : M A) (k : A -> M B) :
  replays kf m -> (forall a, replays kf (k a)) -> replays kf (bind m k).
Proof.
  intros Hm Hk s b s' (a & s1 & H1 & H2)%bind_Some.
  apply Hm in H1 as (l1 & E1 & F1). apply Hk in H2 as (l2 & E2 & F2).
  exists (l1 ++ l2). rewrite E2, E1, F2, F1, replay_app, <- app_assoc. auto.
Qed.

Lemma replays_deref p : replays kf (deref p).
Proof.
  intros s a s' (t & _ & [= _ <-])%deref_Some. exists []. by rewrite app_nil_r.
Qed.

Lemma replays_vec_at {A} (v : list A) i : replays kf (vec_at v i).
Proof.
  intros s a s' (x & _ & _ & [= _ <-])%vec_at_Some. exists [].
  by rewrite app_nil_r.
Qed.

Lemma replays_for_each {A S} (l : list A) (body : A -> S -> M S) st :
  (forall a st, replays kf (body a st)) -> replays kf (for_each l body st).
Proof.
  intros Hbody. revert st. induction l as [|a l IH]; intros st; simpl.
  - apply replays_ret.
  - apply replays_bind; [apply Hbody | intros st'; apply IH].
Qed.

(** A call that writes nothing. *)
Lemma replays_call c :
  (forall h, apply_call kf c h = h) -> replays kf (call c).
Proof. intros Hc s a s' [= _ <-]. exists [c]. simpl. by rewrite Hc. Qed.

Lemma replays_deref_all ps : replays kf (deref_all ps).
Proof.
  unfold deref_all. apply replays_for_each. intros p acc.
  apply replays_bind; [apply replays_deref | intros t; apply replays_ret].
Qed.

Lemma insert_alter (f : Track -> Track) (h : list Track) (p : nat) t :
  h !! p = Some t -> <[p := f t]> h = alter f p h.
Proof.
  intros Ht. apply list_eq. intros q. destruct (decide (q = p)) as [->|Hq].
  - rewrite list_lookup_alter_eq, Ht.
    by rewrite list_lookup_insert_eq by (eapply lookup_lt_Some; eassumption).
  - rewrite list_lookup_alter_ne by congruence.
    by rewrite list_lookup_insert_ne by congruence.
Qed.

(** A batched operation rewrites the tracks of its list one after the
    other. *)
Lemma for_each_alter (f : Track -> Track) ps : forall s s',
  for_each ps (fun p _ => t <~ deref p ;; store p (f t)) tt s = Some (tt, s') ->
  calls s' = calls s /\
  heap s' = foldl (fun h p => alter f p h) (heap s) ps.
Proof.
  induction ps as [|p ps IH]; intros s s' H; cbn [for_each] in H.
  - apply ret_Some in H. injection H as <-. auto.
  - run_step H. run_step Hrun.
    apply deref_Some in Hrun0 as (t & Ht & [= -> ->]).
    apply store_Some in Hrun as (_ & [= _ ->]). destruct a.
    apply IH in H as [Ec Eh]. cbn [heap calls] in Ec, Eh.
    split; [exact Ec|]. rewrite Eh. simpl. unfold ptr in *.
    by rewrite (insert_alter f _ _ _ Ht).
Qed.

Lemma replays_multi_predict ps : replays kf (multi_predict ps kf).
Proof.
  unfold multi_predict. intros s a s' H. run_step H.
  apply call_Some in Hrun. injection Hrun as _ ->. destruct a.
  apply for_each_alter in H as [Ec Eh]. cbn [heap calls] in Ec, Eh.
  exists [Call_multi_predict ps]. auto.
Qed.

Lemma replays_multi_gmc ps Hm : replays kf (multi_gmc ps Hm).
Proof.
  unfold multi_gmc. intros s a s' H. run_step H.
  apply call_Some in Hrun. injection Hrun as _ ->. destruct a.
  apply for_each_alter in H as [Ec Eh]. cbn [heap calls] in Ec, Eh.
  exists [Call_multi_gmc ps Hm]. auto.
Qed.

Lemma replays_segregate self : replays kf (segregate self).
Proof.
  unfold segregate. apply replays_for_each. intros p [u t].
  apply replays_bind; [apply replays_deref | intros x].
  destruct (negb _); apply replays_ret.
Qed.

Lemma replays_merge a b : replays kf (_merge_track_lists a b).
Proof.
  unfold _merge_track_lists.
  apply replays_bind; [|intros r; apply replays_bind; [|intros r'; apply replays_ret]].
  - apply replays_for_each. intros p [e m].
    apply replays_bind; [apply replays_deref | intros x; apply replays_ret].
  - apply replays_for_each. intros p [e m].
    apply replays_bind; [apply replays_deref | intros x].
    destruct (_ !! _); apply replays_ret.
Qed.

Lemma replays_first_association self pool high :
  replays kf (first_association self pool high).
Proof.
  unfold first_association.
  apply replays_bind; [apply replays_deref_all | intros po].
  apply replays_bind; [apply replays_deref_all | intros ho].
  apply replays_bind; [by apply replays_call | intros _]. cbv zeta.
  apply replays_bind; [by apply replays_call | intros _].
  apply replays_ret.
Qed.

Lemma replays_second_association unm low :
  replays kf (second_association unm low).
Proof.
  unfold second_association. cbv zeta.
  apply replays_bind; [apply replays_deref_all | intros po].
  apply replays_bind; [apply replays_deref_all | intros ho].
  apply replays_bind; [by apply replays_call | intros _].
  apply replays_bind; [by apply replays_call | intros _].
  apply replays_ret.
Qed.

Lemma replays_still_tracked pool idxs acc :
  replays kf (for_each idxs (still_tracked_body pool) acc).
Proof.
  apply replays_for_each. intros i l. unfold still_tracked_body.
  apply replays_bind; [apply replays_vec_at | intros p].
  apply replays_bind; [apply replays_deref | intros t].
  destruct (decide _); apply replays_ret.
Qed.

Lemma replays_mark_lost tracks idxs acc :
  replays kf (for_each idxs (mark_lost_body tracks) acc).
Proof.
  apply replays_for_each. intros i l s l' s' H.
  apply mark_lost_body_Some in H as (track & t & _ & Ht & Hb).
  destruct (decide (state t ≠ Lost)).
  - destruct Hb as (Ec & Eh & _). exists [Call_mark_lost track].
    split; [exact Ec|]. rewrite Eh. simpl. by apply insert_alter.
  - destruct Hb as [-> _]. exists []. by rewrite app_nil_r.
Qed.

End ReplayFacts.

Section UpdateLoopReplay.

Context {GlobalMotionCompensation : Type}.
Context {C : Collaborators GlobalMotionCompensation}.
Implicit Types (self : @BoTSORT GlobalMotionCompensation).


(** One turn of an update loop, as a call and its write. *)
Lemma update_body_replay self fid tracks dets m u s u1 s1 :
  update_body self fid tracks dets m u s = Some (u1, s1) ->
  exists track detection t d,
    (0 <= fst m /\ 0 <= snd m) /\
    tracks !! Z.to_nat (fst m) = Some track /\
    dets !! Z.to_nat (snd m) = Some detection /\
    heap s !! track = Some t /\
    heap s !! detection = Some d /\
    let c := update_call track detection fid t in
    calls s1 = calls s ++ [c] /\
    heap s1 = apply_call (_kalman_filter self) c (heap s) /\
    activated_tracks u1 = activated_tracks u ++ updated_in [c] /\
    refind_tracks u1 = refind_tracks u ++ re_activated_in [c].
Proof.
  intros H.
  assert (Hm : 0 <= fst m /\ 0 <= snd m).
  { unfold update_body in H. run_step H.
    apply vec_at_Some in Hrun as (? & ? & _ & [= -> ->]).
    run_step H. apply vec_at_Some in Hrun as (? & ? & _). auto. }
  apply update_body_Some in H as (track & detection & t & d & Ht & Hd & Et & Ed & Hb).
  exists track, detection, t, d. do 5 (split; [assumption|]).
  unfold update_call. cbv zeta. unfold ptr in *.
  destruct (decide (state t = Tracked)); destruct Hb as (Ec & Eh & E1 & E2);
    cbn [apply_call updated_in re_activated_in omap list_omap];
    unfold ptr in *; rewrite Et, Ed, E1, E2, ?app_nil_r; auto.
Qed.

(** An update loop on the log and the store: the turn of the match at index
    [k] finds the store on which the calls of the earlier turns have been
    carried out, and logs the call that fits the state of its track. *)
Lemma update_matched_replay self tracks dets ms : forall u s u' s',
  update_matched self tracks dets ms u s = Some (u', s') ->
  exists ups,
    calls s' = calls s ++ ups /\
    heap s' = replay (_kalman_filter self) ups (heap s) /\
    length ups = length ms /\
    activated_tracks u' = activated_tracks u ++ updated_in ups /\
    refind_tracks u' = refind_tracks u ++ re_activated_in ups /\
    forall k m, ms !! k = Some m ->
      exists track detection t d,
        (0 <= fst m /\ 0 <= snd m) /\
        tracks !! Z.to_nat (fst m) = Some track /\
        dets !! Z.to_nat (snd m) = Some detection /\
        replay (_kalman_filter self) (take k ups) (heap s) !! track = Some t /\
        replay (_kalman_filter self) (take k ups) (heap s) !! detection = Some d /\
        ups !! k = Some (update_call track detection (_frame_id self) t).
Proof.
  unfold update_matched.
  induction ms as [|m ms IH]; intros u s u' s' H; cbn [for_each] in H.
  - apply ret_Some in H. injection H as <- <-. exists [].
    rewrite !app_nil_r. repeat (split; [reflexivity|]). intros k m [=].
  - run_step H.
    apply update_body_replay in Hrun
      as (track & detection & t & d & Hm & Ht & Hd & Et & Ed & Ec & Eh & E1 & E2).
    apply IH in H as (ups & Fc & Fh & Fl & F1 & F2 & Hall).
    set (c := update_call track detection (_frame_id self) t) in *.
    exists (c :: ups).
    split; [by rewrite Fc, Ec, <- app_assoc|].
    split; [by rewrite Fh, Eh|].
    split; [simpl; by rewrite Fl|].
    split; [rewrite F1, E1, <- app_assoc; f_equal; unfold updated_in; simpl;
            by destruct c|].
    split; [rewrite F2, E2, <- app_assoc; f_equal; unfold re_activated_in; simpl;
            by destruct c|].
    intros [|k] m' Hk; simpl in Hk.
    + injection Hk as <-. exists track, detection, t, d. simpl. auto 10.
    + destruct (Hall k m' Hk) as (track' & det' & t' & d' & H0 & H1 & H2 & H3 & H4 & H5).
      exists track', det', t', d'. simpl. rewrite <- Eh. auto 10.
Qed.

End UpdateLoopReplay.

(** ** The update loop of the first association *)

Section CallReplay.

Context {GlobalMotionCompensation : Type}.
Context {C : Collaborators GlobalMotionCompensation}.
Implicit Types (self : @BoTSORT GlobalMotionCompensation).

Lemma replays_update_matched self tracks dets ms u :
  replays (_kalman_filter self) (update_matched self tracks dets ms u).
Proof.
  intros s u' s' H.
  apply update_matched_replay in H as (ups & Ec & Eh & _). eauto.
Qed.

(** The extractions of features write nothing. *)
Lemma replay_feature_calls kf self n h :
  replay kf (feature_calls self n) h = h.
Proof.
  unfold feature_calls. destruct (_reid_enabled self); [|reflexivity].
  induction n as [|n IH]; [reflexivity | exact IH].
Qed.

Lemma multi_predict_replay ps kf s s' :
  multi_predict ps kf s = Some (tt, s') ->
  heap s' = apply_call kf (Call_multi_predict ps) (heap s).
Proof.
  intros H. pose proof (multi_predict_calls _ _ _ _ H) as Ec.
  apply replays_multi_predict in H as (added & Ea & Eh).
  rewrite Ea in Ec. apply app_inv_head in Ec. subst added. exact Eh.
Qed.

Lemma multi_gmc_replay ps Hm kf s s' :
  multi_gmc ps Hm s = Some (tt, s') ->
  heap s' = apply_call kf (Call_multi_gmc ps Hm) (heap s).
Proof.
  intros H. pose proof (multi_gmc_calls _ _ _ _ H) as Ec.
  apply (replays_multi_gmc kf) in H as (added & Ea & Eh).
  rewrite Ea in Ec. apply app_inv_head in Ec. subst added. exact Eh.
Qed.

Lemma first_association_heap self pool high s fa s' :
  first_association self pool high s = Some (fa, s') -> heap s' = heap s.
Proof.
  intros H. apply (writes_only_first_association []) in H.
  by apply same_but_nil in H.
Qed.

(** One call of [track_body], around the update loop of its first
    association: the log and the store when the loop starts, the loop, and
    what follows it. *)
Lemma track_body_replay self dets frame s fr s' :
  track_body self dets frame s = Some (fr, s') ->
  let kf := _kalman_filter self in
  let Hg := gmc_apply (_gmc_algo self) frame (map (clamp frame) dets) in
  let l := locals fr in
  let h0 := heap s ++ (tracklet_of self <$> (clamp frame <$> dets)) in
  exists cost s7 u1 s8 rest,
    let before :=
      feature_calls self (length dets)
      ++ [Call_multi_predict (tracks_pool l);
          Call_multi_gmc (tracks_pool l) (fst Hg);
          Call_multi_gmc (unconfirmed_tracks l) (fst Hg);
          Call_iou_distance (tracks_pool l) (detections_high_conf l);
          Call_linear_assignment cost (_match_thresh self)] in
    first_associations l = linear_assignment cost (_match_thresh self) /\
    calls s7 = calls s ++ before /\
    heap s7 = replay kf before h0 /\
    update_matched self (tracks_pool l) (detections_high_conf l)
      (matches (first_associations l))
      {| activated_tracks := []; refind_tracks := [] |} s7 = Some (u1, s8) /\
    calls s' = calls s8 ++ rest /\
    heap s' = replay kf rest (heap s8) /\
    activated_tracks u1 `prefix_of` activated_tracks (updated l) /\
    refind_tracks u1 `prefix_of` refind_tracks (updated l).
Proof.
  intros H. apply track_body_inv in H
    as (dl & s1 & seg & s2 & pool & s3 & s4 & s5 & s6 & fa & s7 & u1 & s8 & unm
        & s9 & sec & s10 & u2 & s11 & lost & H1 & H2 & H3 & H4 & H5 & H6 & H7
        & H8 & H9 & H10 & H11 & H12 & _ & _ & _ & _ & _ & ->).
  cbv zeta. cbn [locals tracks_pool unconfirmed_tracks detections_high_conf
                 first_associations updated].
  pose proof (create_tracklets_Some _ _ _ _ _ _ H1) as (Edl & _).
  apply create_tracklets_store in H1 as (Eh1 & Ec1 & _).
  apply segregate_Some in H2 as (-> & _).
  apply _merge_track_lists_Some in H3 as (-> & _).
  pose proof (multi_predict_calls _ _ _ _ H4) as Ec4.
  apply multi_predict_replay in H4 as Eh4.
  pose proof (multi_gmc_calls _ _ _ _ H5) as Ec5.
  apply (multi_gmc_replay _ _ (_kalman_filter self)) in H5 as Eh5.
  pose proof (multi_gmc_calls _ _ _ _ H6) as Ec6.
  apply (multi_gmc_replay _ _ (_kalman_filter self)) in H6 as Eh6.
  pose proof (first_association_heap _ _ _ _ _ _ H7) as Eh7.
  apply first_association_calls in H7 as (cost & Efa & Ec7).
  exists cost, s7, u1, s8.
  assert (Hrest : replays (_kalman_filter self)
            (bind (for_each (unmatched_track_indices fa) (still_tracked_body pool) [])
               (fun unm => bind (second_association unm (dl_low dl))
                  (fun sec => bind (update_matched self unm (dl_low dl)
                                      (matches (snd sec)) u1)
                     (fun u2 => for_each (unmatched_track_indices (snd sec))
                                         (mark_lost_body unm) []))))).
  { apply replays_bind; [apply replays_still_tracked | intros ?].
    apply replays_bind; [apply replays_second_association | intros ?].
    apply replays_bind; [apply replays_update_matched | intros ?].
    apply replays_mark_lost. }
  destruct (Hrest s8 lost s') as (rest & Ec & Eh).
  { apply bind_Some. exists unm, s9. split; [exact H9|].
    apply bind_Some. exists sec, s10. split; [exact H10|].
    apply bind_Some. exists u2, s11. split; [exact H11 | exact H12]. }
  exists rest.
  apply update_matched_prefix in H11 as [Pa Pr].
  split; [exact Efa|]. split; [|split; [|auto]].
  - rewrite Ec7, Ec6, Ec5, Ec4, Ec1, Edl, <- !app_assoc. reflexivity.
  - rewrite replay_app, replay_feature_calls. simpl.
    rewrite Eh7, Eh6, Eh5, Eh4, Eh1, Edl. reflexivity.
Qed.

(** C8: for a call of track that returns, right after the call of the solver
    of the first association the log holds one call for each match (track,
    detection) of the solver, in the order of the matches, and the store the
    call leaves is the store it found, with the tracklets of the frame, on
    which the calls of the log have been carried out in order.  When the
    turn of a match comes, the store is the one on which the calls logged so
    far have been carried out; if the state of the track is Tracked there,
    the call is update(kalman_filter, detection, frame_id), the store then
    holds the updated track, and the track is appended to the activated
    list; otherwise the call is re_activate(kalman_filter, detection,
    frame_id, false), the store then holds the re-activated track, whose
    track_id is the one it had (re_activate keeps it when new_id is false),
    and the track is appended to the refind list.  Both lists keep these
    tracks, in this order, until the end of the call. *)
Theorem first_association_updates_or_reactivates self dets frame s fr s' :
  (forall kf t d fid, track_id (Track_re_activate kf t d fid false) = track_id t) ->
  track self dets frame s = Some (fr, s') ->
  let fid := _frame_id self + 1 in
  let kf := _kalman_filter self in
  let Hg := gmc_apply (_gmc_algo self) frame (map (clamp frame) dets) in
  let l := locals fr in
  let ms := matches (first_associations l) in
  let h0 := heap s ++ (tracklet_of self <$> (clamp frame <$> dets)) in
  exists cost ups rest,
    let before :=
      feature_calls self (length dets)
      ++ [Call_multi_predict (tracks_pool l);
          Call_multi_gmc (tracks_pool l) (fst Hg);
          Call_multi_gmc (unconfirmed_tracks l) (fst Hg);
          Call_iou_distance (tracks_pool l) (detections_high_conf l);
          Call_linear_assignment cost (_match_thresh self)] in
    first_associations l = linear_assignment cost (_match_thresh self) /\
    calls s' = calls s ++ before ++ ups ++ rest /\
    heap s' = replay kf (before ++ ups ++ rest) h0 /\
    length ups = length ms /\
    (exists later, activated_tracks (updated l) = updated_in ups ++ later) /\
    (exists later, refind_tracks (updated l) = re_activated_in ups ++ later) /\
    forall k m, ms !! k = Some m ->
      let found := replay kf (before ++ take k ups) h0 in
      let left := replay kf (before ++ take (S k) ups) h0 in
      exists track detection t d,
        tracks_pool l !! Z.to_nat (fst m) = Some track /\
        detections_high_conf l !! Z.to_nat (snd m) = Some detection /\
        found !! track = Some t /\
        found !! detection = Some d /\
        if decide (state t = Tracked) then
          ups !! k = Some (Call_update track detection fid) /\
          left !! track = Some (Track_update kf t d fid)
        else
          ups !! k = Some (Call_re_activate track detection fid false) /\
          left !! track = Some (Track_re_activate kf t d fid false) /\
          (track_id <$> left !! track) = Some (track_id t).
Proof.
  intros Hkeep H. unfold track in H.
  apply track_body_replay in H
    as (cost & s7 & u1 & s8 & rest & Efa & Ec7 & Eh7 & H8 & Ec & Eh & Pa & Pr).
  cbv zeta in *.
  change (_kalman_filter (next_frame self)) with (_kalman_filter self) in *.
  change (_gmc_algo (next_frame self)) with (_gmc_algo self) in *.
  change (_match_thresh (next_frame self)) with (_match_thresh self) in *.
  change (tracklet_of (next_frame self)) with (tracklet_of self) in *.
  change (feature_calls (next_frame self)) with (feature_calls self) in *.
  apply update_matched_replay in H8 as (ups & Ec8 & Eh8 & Hlen & Ea & Er & Hall).
  change (_kalman_filter (next_frame self)) with (_kalman_filter self) in *.
  change (_frame_id (next_frame self)) with (_frame_id self + 1) in *.
  simpl in Ea, Er.
  exists cost, ups, rest.
  set (before := feature_calls _ _ ++ _) in *. clearbody before.
  split; [exact Efa|].
  split; [by rewrite Ec, Ec8, Ec7, <- !app_assoc|].
  split; [by rewrite Eh, Eh8, Eh7, !replay_app|].
  split; [exact Hlen|].
  split; [destruct Pa as [later Ela]; exists later; by rewrite Ela, Ea|].
  split; [destruct Pr as [later Elr]; exists later; by rewrite Elr, Er|].
  intros k m Hk.
  destruct (Hall k m Hk) as (track & detection & t & d & _ & Ht & Hd & Et & Ed & Eu).
  exists track, detection, t, d.
  rewrite !replay_app, <- Eh7.
  split; [exact Ht|]. split; [exact Hd|]. split; [exact Et|]. split; [exact Ed|].
  rewrite (take_S_r _ _ _ Eu), replay_snoc.
  assert (Hlt : (track < length (replay (_kalman_filter self) (take k ups) (heap s7)))%nat)
    by (eapply lookup_lt_Some; eassumption).
  unfold update_call in *.
  destruct (decide (state t = Tracked)); cbn [apply_call]; unfold ptr in *;
    rewrite Et, Ed, list_lookup_insert_eq by exact Hlt.
  - auto.
  - split; [exact Eu|]. split; [reflexivity|]. simpl. by rewrite Hkeep.
Qed.

End CallReplay.

(** ** The prediction pool of tracks of distinct identities *)

Section PoolOfDistinctIdentities.

Context {GlobalMotionCompensation : Type}.
Context {C : Collaborators GlobalMotionCompensation}.
Implicit Types (self : @BoTSORT GlobalMotionCompensation).

Lemma id_at_app h tl (p : nat) : (p < length h)%nat -> id_at (h ++ tl) p = id_at h p.
Proof. intros Hp. unfold id_at. by rewrite lookup_app_l. Qed.

Lemma activated_at_app h tl (p : nat) :
  (p < length h)%nat -> activated_at (h ++ tl) p = activated_at h p.
Proof. intros Hp. unfold activated_at. by rewrite lookup_app_l. Qed.

(** C7: when the pools hold tracks that existed before the call and the lost
    tracks have pairwise distinct track_ids, the prediction pool of a call
    of track that returns is the confirmed tracks of the tracked pool (those
    with is_activated = true), in order, followed by the lost tracks whose
    track_id does not occur among the confirmed tracks, in order: on a
    track_id tie the confirmed track is kept and the lost one dropped.
    Track::multi_predict is called once in the call, on this pool. *)
Theorem prediction_pool_is_confirmed_then_lost self dets frame s fr s' :
  track self dets frame s = Some (fr, s') ->
  below (length (heap s)) (_tracked_tracks self ++ _lost_tracks self) ->
  NoDup (id_at (heap s) <$> _lost_tracks self) ->
  let confirmed :=
    filter (fun p => activated_at (heap s) p = Some true) (_tracked_tracks self) in
  tracked_tracks (locals fr) = confirmed /\
  tracks_pool (locals fr)
    = confirmed
      ++ filter (fun p => id_at (heap s) p ∉ id_at (heap s) <$> confirmed)
                (_lost_tracks self) /\
  exists pre post,
    calls s' = calls s ++ pre ++ [Call_multi_predict (tracks_pool (locals fr))] ++ post /\
    forall ps, Call_multi_predict ps ∉ pre ++ post.
Proof.
  intros H Hbelow Hnd. cbv zeta.
  apply Forall_app in Hbelow as [Htr Hlo].
  destruct (prediction_pool_is_confirmed_then_new_lost _ _ _ _ _ _ H)
    as (tl & pre & post & _ & Hconf & Hpool & Hlog).
  cbv zeta in Hconf, Hpool.
  assert (Econf : filter (fun p => activated_at (heap s ++ tl) p = Some true)
                         (_tracked_tracks self)
                  = filter (fun p => activated_at (heap s) p = Some true)
                           (_tracked_tracks self)).
  { apply filter_iff_on. intros p Hp.
    rewrite activated_at_app; [reflexivity|].
    rewrite Forall_forall in Htr. by apply Htr. }
  rewrite Econf in Hconf, Hpool.
  set (confirmed := filter (fun p => activated_at (heap s) p = Some true)
                           (_tracked_tracks self)) in *.
  assert (Hsub : forall p, p ∈ confirmed -> (p < length (heap s))%nat).
  { intros p [_ Hp]%list_elem_of_filter. rewrite Forall_forall in Htr. by apply Htr. }
  assert (Eseen : id_at (heap s ++ tl) <$> confirmed = id_at (heap s) <$> confirmed).
  { apply list_fmap_ext. intros i p Hp. apply id_at_app, Hsub.
    eapply list_elem_of_lookup_2; eassumption. }
  assert (Elost : id_at (heap s ++ tl) <$> _lost_tracks self
                  = id_at (heap s) <$> _lost_tracks self).
  { apply list_fmap_ext. intros i p Hp. apply id_at_app.
    rewrite Forall_forall in Hlo. apply Hlo.
    eapply list_elem_of_lookup_2; eassumption. }
  split; [exact Hconf|]. split; [|eauto].
  rewrite Hpool. f_equal.
  rewrite not_yet_seen_NoDup by (by rewrite Elost).
  rewrite Eseen. apply filter_iff_on. intros p Hp.
  rewrite id_at_app; [reflexivity|].
  rewrite Forall_forall in Hlo. by apply Hlo.
Qed.

End PoolOfDistinctIdentities.

(** ** Trackers the constructor has built *)

Section ConstructedTracker.

Context {GlobalMotionCompensation : Type}.
Context {C : Collaborators GlobalMotionCompensation}.
Implicit Types (self : @BoTSORT GlobalMotionCompensation).






End ConstructedTracker.

(** ** Runs on concrete frames *)

Lemma BoTSORT_new_defined_iff_product_under_7680_witness :
  is_Some (Examples.configured 127 60) /\ ~ is_Some (Examples.configured 128 60).
Proof.
  unfold Examples.configured. split.
  - apply BoTSORT_new_defined_iff_product_under_7680; lia.
  - intros H. apply BoTSORT_new_defined_iff_product_under_7680 in H; lia.
Defined.

Lemma max_time_lost_is_exact_at_multiples_of_30_witness :
  exists t0, Examples.configured 100 60 = Some t0 /\ _max_time_lost t0 = 200.
Proof.
  destruct (Examples.configured 100 60) as [t0|] eqn:E;
    [| vm_compute in E; discriminate E].
  exists t0. split; [reflexivity|].
  assert (H2 : 0 <= 2 <= 8) by lia.
  assert (H100 : 0 <= 100 <= 255) by lia.
  exact (proj1 (max_time_lost_is_exact_at_multiples_of_30
                  (C := Reference.collaborators) None false _ _ 100 _ _ _
                  "none"%string 2 _ t0 H2 H100 E)).
Defined.

(** A lost pool that holds two tracks of the identity 7, merged behind one
    confirmed track. *)
Lemma merge_keeps_one_track_per_identity_witness :
  exists pool,
    _merge_track_lists [0%nat] [1%nat; 2%nat] Examples.twin_lost
      = Some (pool, Examples.twin_lost) /\
    NoDup (id_at (heap Examples.twin_lost) <$> pool).
Proof.
  destruct (_merge_track_lists [0%nat] [1%nat; 2%nat] Examples.twin_lost)
    as [[pool s']|] eqn:E; [| vm_compute in E; discriminate E].
  pose proof (merge_keeps_one_track_per_identity _ _ _ _ _ E) as (_ & _ & _ & Hnd).
  exists pool. split.
  - vm_compute in E. injection E as <- <-. reflexivity.
  - apply Hnd. vm_compute. apply NoDup_singleton.
Defined.

Lemma merge_is_idempotent_witness :
  _merge_track_lists [0%nat; 1%nat] [1%nat; 2%nat] Examples.twin_lost
    = Some ([0%nat; 1%nat], Examples.twin_lost).
Proof.
  assert (E : _merge_track_lists [0%nat] [1%nat; 2%nat] Examples.twin_lost
              = Some ([0%nat; 1%nat], Examples.twin_lost))
    by (vm_compute; reflexivity).
  exact (proj1 (merge_is_idempotent _ _ _ _ _ E)).
Defined.

(** A detection of confidence 0.05 is in neither list, and has its
    tracklet. *)
Lemma track_allocates_one_tracklet_per_detection_witness :
  exists fr s',
    Examples.run (Examples.first_frame_tracker (Reference.f32_ratio 6 10))
                 [Examples.det Examples.box (Reference.f32_ratio 5 100)]
                 Examples.empty_machine = Some (fr, s') /\
    length (heap s') = 1%nat /\
    detections_high_conf (locals fr) ++ detections_low_conf (locals fr) = [].
Proof.
  destruct (Examples.run (Examples.first_frame_tracker (Reference.f32_ratio 6 10))
              [Examples.det Examples.box (Reference.f32_ratio 5 100)]
              Examples.empty_machine) as [[fr s']|] eqn:E;
    [| vm_compute in E; discriminate E].
  exists fr, s'. split; [reflexivity|]. split.
  - exact (proj1 (track_allocates_one_tracklet_per_detection _ _ _ _ _ _ E)).
  - vm_compute in E. injection E as <- _. reflexivity.
Defined.

(** The lost track of the store, which is in no pool of the tracker, is not
    written to. *)
Lemma track_writes_to_pool_tracks_only_witness :
  exists fr s',
    Examples.run (Examples.tracker_with (Reference.f32_ratio 6 10) 1 [0%nat] [])
                 [Examples.det Examples.box (Reference.f32_ratio 9 10)]
                 Examples.one_lost = Some (fr, s') /\
    heap s' !! 1%nat = Some (Examples.track_at 7 Lost true).
Proof.
  destruct (Examples.run (Examples.tracker_with (Reference.f32_ratio 6 10) 1 [0%nat] [])
              [Examples.det Examples.box (Reference.f32_ratio 9 10)]
              Examples.one_lost) as [[fr s']|] eqn:E;
    [| vm_compute in E; discriminate E].
  exists fr, s'. split; [reflexivity|].
  apply (track_writes_to_pool_tracks_only _ _ _ _ _ _ 1%nat _ E); [|reflexivity].
  simpl. intros H. apply elem_of_cons in H as [H|H]; [discriminate H|].
  by apply elem_of_nil in H.
Defined.

(** With Re-ID enabled, the first call of a frame of one detection is the
    extraction of features from the default-constructed matrix. *)
Lemma reid_features_are_extracted_from_an_empty_matrix_witness :
  exists fr s',
    track (C := Reference.collaborators) Examples.reid_tracker
          [Examples.det Examples.box (Reference.f32_ratio 9 10)]
          Examples.frame Examples.empty_machine = Some (fr, s') /\
    head (calls s') = Some (Call_extract_features Mat_default).
Proof.
  destruct (track (C := Reference.collaborators) Examples.reid_tracker
              [Examples.det Examples.box (Reference.f32_ratio 9 10)]
              Examples.frame Examples.empty_machine) as [[fr s']|] eqn:E;
    [| vm_compute in E; discriminate E].
  exists fr, s'. split; [reflexivity|].
  destruct (reid_features_are_extracted_from_an_empty_matrix
              _ _ _ _ _ _ _ E eq_refl eq_refl) as [(rest & -> & _) _].
  reflexivity.
Defined.

(** With Re-ID enabled and a frame out of which no patch can be cut, the
    call has no result. *)
Lemma track_is_undefined_when_a_patch_cannot_be_cut_witness :
  track (C := Examples.no_patch) Examples.reid_tracker
        [Examples.det Examples.box (Reference.f32_ratio 9 10)]
        Examples.frame Examples.empty_machine = None.
Proof.
  apply (track_is_undefined_when_a_patch_cannot_be_cut
           (C := Examples.no_patch) _ _ _ _
           (Examples.det Examples.box (Reference.f32_ratio 9 10)));
    [reflexivity | apply list_elem_of_here | reflexivity].
Defined.

(** The prediction of the second frame is in the log. *)
Lemma track_calls_its_collaborators_in_order_witness :
  exists fr s',
    Examples.run Examples.second_frame_tracker
                 [Examples.det Examples.box (Reference.f32_ratio 9 10)]
                 Examples.one_track = Some (fr, s') /\
    Call_multi_predict (tracks_pool (locals fr)) ∈ calls s'.
Proof.
  destruct (Examples.run Examples.second_frame_tracker
              [Examples.det Examples.box (Reference.f32_ratio 9 10)]
              Examples.one_track) as [[fr s']|] eqn:E;
    [| vm_compute in E; discriminate E].
  exists fr, s'. split; [reflexivity|].
  destruct (track_calls_its_collaborators_in_order _ _ _ _ _ _ E)
    as (_ & cost & ups1 & ups2 & marks & -> & _).
  apply elem_of_app. right. apply elem_of_app. right. apply list_elem_of_here.
Defined.

(** A track of the tracked pool that is not activated is not in the
    prediction pool. *)
Lemma unconfirmed_tracks_are_only_compensated_witness :
  exists fr s',
    Examples.run (Examples.tracker_with (Reference.f32_ratio 6 10) 1 [0%nat] [])
                 [] Examples.one_unconfirmed = Some (fr, s') /\
    0%nat ∉ tracks_pool (locals fr).
Proof.
  destruct (Examples.run (Examples.tracker_with (Reference.f32_ratio 6 10) 1 [0%nat] [])
              [] Examples.one_unconfirmed) as [[fr s']|] eqn:E;
    [| vm_compute in E; discriminate E].
  exists fr, s'. split; [reflexivity|].
  destruct (unconfirmed_tracks_are_only_compensated _ _ _ _ _ _ E)
    as (added & _ & _ & _ & _ & Hall).
  assert (Hu : unconfirmed_tracks (locals fr) = [0%nat]).
  { clear -E. vm_compute in E. injection E as <- _. reflexivity. }
  apply (Hall 0%nat).
  - rewrite Hu. apply list_elem_of_here.
  - apply not_elem_of_nil.
Defined.

(** The unmatched indices of the second frame are inside its pool. *)
Lemma track_returns_only_on_indices_in_range_witness :
  exists fr s',
    Examples.run Examples.second_frame_tracker [] Examples.one_track
      = Some (fr, s') /\
    Forall (fun r => 0 <= r < Z.of_nat (length (tracks_pool (locals fr))))
           (unmatched_track_indices (first_associations (locals fr))).
Proof.
  destruct (Examples.run Examples.second_frame_tracker [] Examples.one_track)
    as [[fr s']|] eqn:E; [| vm_compute in E; discriminate E].
  exists fr, s'. split; [reflexivity|].
  exact (proj1 (proj2 (track_returns_only_on_indices_in_range _ _ _ _ _ _ E))).
Defined.

(** The second frame of a tracker with one confirmed track, without a
    detection. *)
Lemma frame_without_detections_updates_no_track_witness :
  exists fr s',
    Examples.run Examples.second_frame_tracker [] Examples.one_track
      = Some (fr, s') /\
    updated (locals fr) = {| activated_tracks := []; refind_tracks := [] |}.
Proof.
  destruct (Examples.run Examples.second_frame_tracker [] Examples.one_track)
    as [[fr s']|] eqn:E; [| vm_compute in E; discriminate E].
  exists fr, s'. split; [reflexivity|].
  destruct (frame_without_detections_updates_no_track _ _ _ _ _ _ E)
    as (_ & _ & _ & H).
  exact (proj1 (H eq_refl)).
Defined.

(** The retention bound of the default tracker after two frames. *)
Lemma track_keeps_the_configuration_and_the_pools_witness :
  exists tn s',
    track_frames (C := Reference.collaborators)
      (Examples.first_frame_tracker (Reference.f32_ratio 6 10))
      Examples.two_frames Examples.empty_machine = Some (tn, s') /\
    _max_time_lost tn = 30 /\ _tracked_tracks tn = [].
Proof.
  destruct (track_frames (C := Reference.collaborators)
              (Examples.first_frame_tracker (Reference.f32_ratio 6 10))
              Examples.two_frames Examples.empty_machine) as [[tn s']|] eqn:E;
    [| vm_compute in E; discriminate E].
  exists tn, s'. split; [reflexivity|].
  destruct (track_keeps_the_configuration_and_the_pools _ _ _ _ _ E)
    as (Hc & Ht & _).
  split; [|exact Ht].
  destruct Hc as (_ & _ & _ & _ & _ & _ & _ & _ & _ & Hm & _). exact Hm.
Defined.

(** The default tracker after a frame of one detection and a frame without
    detections. *)
Lemma constructed_tracker_never_tracks_witness :
  exists t0 tn s',
    Examples.configured 30 30 = Some t0 /\
    track_frames (C := Reference.collaborators) t0 Examples.two_frames
                 Examples.empty_machine = Some (tn, s') /\
    _tracked_tracks tn = [] /\ length (heap s') = 1%nat.
Proof.
  destruct (Examples.configured 30 30) as [t0|] eqn:E0;
    [| vm_compute in E0; discriminate E0].
  destruct (track_frames (C := Reference.collaborators) t0 Examples.two_frames
                         Examples.empty_machine) as [[tn s']|] eqn:E1.
  - exists t0, tn, s'. split; [reflexivity|]. split; [exact E1|].
    destruct (constructed_tracker_never_tracks _ _ _ _ _ _ _ _ _ _ _ _ _ _ _ _ E0 E1)
      as (Ht & _ & (tl & -> & Hlen) & _).
    split; [exact Ht | exact Hlen].
  - vm_compute in E0. injection E0 as <-. vm_compute in E1. discriminate E1.
Defined.

(** The confirmed track of the second frame, unmatched for want of a
    detection, is the one candidate of the second association. *)
Lemma second_association_takes_the_unmatched_tracked_tracks_witness :
  exists fr s',
    Examples.run Examples.second_frame_tracker [] Examples.one_track
      = Some (fr, s') /\
    unmatched_tracks_after_1st_association (locals fr)
    = filter (fun p => state_at (heap s') p = Some Tracked)
             (tracks_at (tracks_pool (locals fr))
                        (unmatched_track_indices (first_associations (locals fr)))).
Proof.
  destruct (Examples.run Examples.second_frame_tracker [] Examples.one_track)
    as [[fr s']|] eqn:E; [| vm_compute in E; discriminate E].
  exists fr, s'. split; [reflexivity|].
  exact (second_association_takes_the_unmatched_tracked_tracks
           (C := Reference.collaborators) _ _ _ _ _ _
           (linear_assignment_in_range (Lawful := collaborators_lawful) _ _) E).
Defined.

(** A box that leaves the 640 x 480 frame on both sides. *)
Lemma track_leaves_clamped_boxes_witness :
  exists fr s',
    Examples.run (Examples.first_frame_tracker (Reference.f32_ratio 6 10))
                 [Examples.det Examples.wide_box (Reference.f32_ratio 9 10)]
                 Examples.empty_machine = Some (fr, s') /\
    Forall (fun d' => clamped (f32_of_int 639) (f32_of_int 479) (bbox_tlwh d'))
           (detections_after fr).
Proof.
  destruct (Examples.run (Examples.first_frame_tracker (Reference.f32_ratio 6 10))
              [Examples.det Examples.wide_box (Reference.f32_ratio 9 10)]
              Examples.empty_machine) as [[fr s']|] eqn:E;
    [| vm_compute in E; discriminate E].
  exists fr, s'. split; [reflexivity|].
  exact (proj1 (track_leaves_clamped_boxes _ _ _ _ _ _ E)).
Defined.

(** The clamped vector of the first frame, given to the second frame. *)
Lemma second_call_leaves_clamped_detections_witness :
  exists fr s' fr2 s2',
    Examples.run (Examples.first_frame_tracker (Reference.f32_ratio 6 10))
                 [Examples.det Examples.wide_box (Reference.f32_ratio 9 10)]
                 Examples.empty_machine = Some (fr, s') /\
    Examples.run (tracker fr) (detections_after fr) s' = Some (fr2, s2') /\
    detections_after fr2 = detections_after fr.
Proof.
  destruct (Examples.run (Examples.first_frame_tracker (Reference.f32_ratio 6 10))
              [Examples.det Examples.wide_box (Reference.f32_ratio 9 10)]
              Examples.empty_machine) as [[fr s']|] eqn:E;
    [| vm_compute in E; discriminate E].
  destruct (Examples.run (tracker fr) (detections_after fr) s')
    as [[fr2 s2']|] eqn:E2.
  - exists fr, s', fr2, s2'. split; [reflexivity|]. split; [exact E2|].
    exact (second_call_leaves_clamped_detections
             _ _ _ _ _ _ _ _ _ _ _ E eq_refl eq_refl E2).
  - vm_compute in E. injection E as <- <-. vm_compute in E2. discriminate E2.
Defined.

(** The first frame of a tracker with Re-ID enabled. *)
Lemma track_returns_for_lawful_collaborators_witness :
  exists fr s',
    track (C := Reference.collaborators) Examples.reid_tracker
          [Examples.det Examples.box (Reference.f32_ratio 9 10)]
          Examples.frame Examples.empty_machine = Some (fr, s').
Proof.
  apply (track_returns_for_lawful_collaborators (L := collaborators_lawful)).
  - constructor.
  - intros _. split; [eexists; reflexivity|].
    constructor; [eexists; reflexivity | constructor].
Defined.

(** The confirmed track of the second frame, as the cost matrix of the first
    association sees it. *)
Lemma first_association_compares_predicted_tracks_with_high_detections_witness :
  exists fr s' T,
    Examples.run Examples.second_frame_tracker
                 [Examples.det Examples.box (Reference.f32_ratio 9 10)]
                 Examples.one_track = Some (fr, s') /\
    Forall2 (fun p t => exists t0, heap Examples.one_track !! p = Some t0 /\ t = t0)
            (tracks_pool (locals fr)) T.
Proof.
  destruct (Examples.run Examples.second_frame_tracker
              [Examples.det Examples.box (Reference.f32_ratio 9 10)]
              Examples.one_track) as [[fr s']|] eqn:E;
    [| vm_compute in E; discriminate E].
  destruct (first_association_compares_predicted_tracks_with_high_detections
              (C := Reference.collaborators) _ _ _ _ _ _ E) as (T & HT & _).
  - simpl. apply NoDup_singleton.
  - repeat constructor.
  - exists fr, s', T. split; [reflexivity | exact HT].
Defined.

(** Two detections of confidence 0.9 and 0.3: one tracklet in each list. *)
Lemma the_two_lists_follow_the_order_of_the_detections_witness :
  exists fr s',
    Examples.run (Examples.first_frame_tracker (Reference.f32_ratio 6 10))
                 [Examples.det Examples.box (Reference.f32_ratio 9 10);
                  Examples.det Examples.box (Reference.f32_ratio 3 10)]
                 Examples.empty_machine = Some (fr, s') /\
    NoDup (detections_high_conf (locals fr) ++ detections_low_conf (locals fr)).
Proof.
  destruct (Examples.run (Examples.first_frame_tracker (Reference.f32_ratio 6 10))
              [Examples.det Examples.box (Reference.f32_ratio 9 10);
               Examples.det Examples.box (Reference.f32_ratio 3 10)]
              Examples.empty_machine) as [[fr s']|] eqn:E;
    [| vm_compute in E; discriminate E].
  exists fr, s'. split; [reflexivity|].
  exact (proj2 (proj2 (proj2
           (the_two_lists_follow_the_order_of_the_detections _ _ _ _ _ _ E)))).
Defined.

(** The second frame of a tracker with one confirmed track and a detection
    of confidence 0.3 on its box. *)
Lemma low_confidence_detections_update_no_track_witness :
  exists fr s',
    Examples.run Examples.second_frame_tracker
                 [Examples.det Examples.box (Reference.f32_ratio 3 10)]
                 Examples.one_track = Some (fr, s') /\
    matches (second_associations (locals fr)) = [] /\
    lost_tracks (locals fr) = [].
Proof.
  destruct (Examples.run Examples.second_frame_tracker
              [Examples.det Examples.box (Reference.f32_ratio 3 10)]
              Examples.one_track) as [[fr s']|] eqn:E;
    [| vm_compute in E; discriminate E].
  exists fr, s'. split; [reflexivity|].
  destruct (low_confidence_detections_update_no_track
              (C := Reference.collaborators) _ _ _ _ _ _
              (linear_assignment_in_range (Lawful := collaborators_lawful) _ _) E)
    as (Hm & _ & Hl & _).
  split; assumption.
Defined.

(** The pool of one confirmed track and one lost track. *)
Lemma prediction_pool_is_confirmed_then_lost_witness :
  exists fr s',
    Examples.run (Examples.tracker_with (Reference.f32_ratio 6 10) 1 [0%nat] [1%nat])
                 [] Examples.one_lost = Some (fr, s') /\
    tracks_pool (locals fr) = [0%nat; 1%nat].
Proof.
  destruct (Examples.run
              (Examples.tracker_with (Reference.f32_ratio 6 10) 1 [0%nat] [1%nat])
              [] Examples.one_lost) as [[fr s']|] eqn:E;
    [| vm_compute in E; discriminate E].
  exists fr, s'. split; [reflexivity|].
  destruct (prediction_pool_is_confirmed_then_lost
              (C := Reference.collaborators) _ _ _ _ _ _ E) as (_ & Hpool & _).
  - repeat constructor.
  - simpl. apply NoDup_singleton.
  - rewrite Hpool. vm_compute. reflexivity.
Defined.

(** The confirmed track of the second frame, matched with a detection on its
    box. *)
Lemma first_association_updates_or_reactivates_witness :
  exists fr s',
    Examples.run Examples.second_frame_tracker
                 [Examples.det Examples.box (Reference.f32_ratio 9 10)]
                 Examples.one_track = Some (fr, s') /\
    matches (first_associations (locals fr)) = [(0, 0)] /\
    (Call_update 0%nat 1%nat 2 ∈ calls s' \/
     Call_re_activate 0%nat 1%nat 2 false ∈ calls s').
Proof.
  destruct (Examples.run Examples.second_frame_tracker
              [Examples.det Examples.box (Reference.f32_ratio 9 10)]
              Examples.one_track) as [[fr s']|] eqn:E;
    [| vm_compute in E; discriminate E].
  exists fr, s'. split; [reflexivity|].
  assert (Hms : matches (first_associations (locals fr)) = [(0, 0)]
                /\ tracks_pool (locals fr) = [0%nat]
                /\ detections_high_conf (locals fr) = [1%nat]).
  { vm_compute in E. injection E as <- _. repeat split; reflexivity. }
  destruct Hms as (Hms & Hpool & Hhigh). split; [exact Hms|].
  destruct (first_association_updates_or_reactivates
              (C := Reference.collaborators) _ _ _ _ _ _
              (fun _ _ _ _ => eq_refl) E)
    as (cost & ups & rest & _ & Ec & _ & _ & _ & _ & Hall).
  rewrite Hms, Hpool, Hhigh in Hall.
  destruct (Hall 0%nat (0, 0) eq_refl)
    as (track & detection & t & d & Htrack & Hdet & _ & _ & Hb).
  injection Htrack as <-. injection Hdet as <-.
  assert (Hin : forall c, ups !! 0%nat = Some c -> c ∈ calls s').
  { intros c Hc. rewrite Ec. apply elem_of_app. right.
    apply elem_of_app. right. apply elem_of_app. left.
    eapply list_elem_of_lookup_2; eassumption. }
  destruct (decide (state t = Tracked)).
  - left. apply Hin, Hb.
  - right. apply Hin, Hb.
Defined.


